(** * syz-stress: the stress driver of syzkaller (tools/syz-stress/stress.go)

    A shallow embedding of the driver and a verification of its
    orchestration properties: the generate/mutate policy of the worker
    loop, the shape of [execute], the statistics counter, the corpus
    loader, the call-list builder and the start-up pipeline.

    The driver talks to many packages that are not part of this file
    (prog, ipc, host, db, mgrconfig, log, math/rand, time).  Every call
    into one of them is an operation [Op X] whose answer, of type [X], is
    given by the environment.  The Go functions of stress.go are written
    as programs in the free monad [code] over these operations, and are
    run either alone against an oracle ([run_code]) or as the threads of
    a machine that interleaves goroutines ([step]). *)

From Stdlib Require Import ZArith Lia String Ascii Bool.
From stdpp Require Import base list gmap strings.

Local Open Scope string_scope.
Local Open Scope list_scope.
Local Open Scope Z_scope.

(** ** Go primitives *)

Module Go.

(** A value of Go's [int] (64 bits, two's complement). *)
Definition wrap64 (z : Z) : Z := (z + 2 ^ 63) mod 2 ^ 64 - 2 ^ 63.

(** A value of Go's [uint64]. *)
Definition wrapu64 (z : Z) : Z := z mod 2 ^ 64.

(** Go's [%] on integers truncates towards zero. *)
Definition rem (a b : Z) : Z := Z.rem a b.

(** [strings.Split(s, sep)] for a separator of one byte: the pieces of
    [s] between the occurrences of [sep]; one piece more than there are
    separators. *)
Fixpoint Split (s : string) (sep : ascii) : list string :=
  match s with
  | EmptyString => [EmptyString]
  | String c s' =>
      if Ascii.eqb c sep then EmptyString :: Split s' sep
      else match Split s' sep with
           | piece :: pieces => String c piece :: pieces
           | [] => [String c EmptyString]
           end
  end.

(** Values returned together with an [error]. *)
Inductive result (A : Type) : Type :=
| Ok (a : A)
| Err (e : string).
Arguments Ok {A} a.
Arguments Err {A} e.

(** Arguments of a format string. *)
Inductive arg : Type :=
| AInt (z : Z)
| AStr (s : string)
| AErr (e : string)
| ABytes (b : list Byte.byte).

End Go.
Import Go.

(** ** The data of the collaborating packages *)

(** [*prog.Prog]: a reference into the heap of programs. *)
Definition loc := nat.

(** The contents of a program: its calls, each a syscall and its arguments. *)
Definition ProgData := list (nat * list Z).

(** [*prog.Syscall]: syscalls are compared and used as map keys by
    pointer. *)
Definition sysref := nat.

Record Target := {
  Syscalls : list sysref;          (* target.Syscalls *)
  SyscallName : sysref -> string   (* c.Name *)
}.

Record Record_ := { Val : list Byte.byte }.          (* db.Record *)
Record DB := { Records : list Record_ }.        (* in the order [range] yields them *)

Inductive DeserializeMode := Strict | NonStrict.

Definition FeaturesFlags := string -> bool.      (* featuresFlags[name].Enabled *)
Definition HostFeatures := nat -> bool.          (* features[idx].Enabled *)

Inductive Prios := prios (id : nat).
Inductive ChoiceTable := choiceTable (id : nat).
Inductive ExecOpts := execOpts_ (id : nat).
Inductive Env := env_ (id : nat).
Inductive RandSource := randSource (seed : Z).
Inductive Rand := rand_ (src : RandSource).

Record Config := { Flags : Z; ConfigRest : nat }.   (* ipc.Config *)

Definition CallSet := gmap sysref bool.          (* map[*prog.Syscall]bool *)
Definition Disabled := gmap sysref string.       (* map[*prog.Syscall]string *)

(** What [env.Exec] returns: output, info (unused), hanged, err. *)
Record ExecResult := {
  output : list Byte.byte;
  hanged : bool;
  exec_err : option string
}.

(** The variables of [main] that the goroutine closure captures. *)
Record Shared := {
  sh_target : Target;
  sh_corpus : list loc;
  sh_ct : ChoiceTable;
  sh_config : Config;
  sh_execOpts : ExecOpts
}.

(** The locals of a worker goroutine set before its loop. *)
Record WorkerLocals := {
  w_env : Env;
  w_rs : RandSource;
  w_rnd : Rand
}.

(** ** Operations on the outside world *)

Inductive Op : Type -> Type :=
(* start-up *)
| ParseFeaturesFlags (enable disable : string) (defaultValue : bool) : Op (result FeaturesFlags)
| GetTarget (os arch : string) : Op (result Target)
| dbOpen (path : string) : Op (result DB)
| Deserialize (t : Target) (data : list Byte.byte) (mode : DeserializeMode) : Op (result loc)
| Logf (v : Z) (fmt : string) (args : list arg) : Op unit
| hostCheck (t : Target) : Op (result HostFeatures)
| hostSetup (t : Target) (f : HostFeatures) : Op (result unit)
| DetectSupportedSyscalls (t : Target) (sandbox : string) : Op (result (CallSet * Disabled))
| ParseEnabledSyscalls (t : Target) (enabled disabled : list string) : Op (result (list Z))
| TransitivelyEnabledCalls (t : Target) (calls : CallSet) : Op (CallSet * Disabled)
| CalculatePriorities (t : Target) (corpus : list loc) : Op Prios
| BuildChoiceTable (t : Target) (p : Prios) (calls : CallSet) : Op ChoiceTable
| ipcconfigDefault (t : Target) : Op (result (Config * ExecOpts))
| NewGate (c : Z) : Op unit
| GoWorker (pid : Z) (sh : Shared) : Op unit
| NewTicker (d : Z) : Op unit
| TickerRecv : Op unit
| AtomicLoadStatExec : Op Z
(* worker *)
| MakeEnv (c : Config) (pid : Z) : Op (result Env)
| UnixNano : Op Z
| NewSource (seed : Z) : Op RandSource
| randNew (rs : RandSource) : Op Rand
| Generate (t : Target) (rs : RandSource) (ncalls : Z) (ct : ChoiceTable) : Op loc
| Mutate (p : loc) (rs : RandSource) (ncalls : Z) (ct : ChoiceTable) (corpus : list loc) : Op unit
| Intn (r : Rand) (n : Z) : Op Z
| Clone (p : loc) : Op loc
| CallExecute (pid : Z) (env : Env) (opts : ExecOpts) (p : loc) : Op unit
(* execute *)
| AtomicAddStatExec (delta : Z) : Op unit
| GateEnter : Op Z
| GateLeave (ticket : Z) : Op unit
| outMuLock : Op unit
| outMuUnlock : Op unit
| Serialize (p : loc) : Op string
| Printf (fmt : string) (args : list arg) : Op unit
| EnvExec (env : Env) (opts : ExecOpts) (p : loc) : Op ExecResult
| StdoutWrite (b : list Byte.byte) : Op unit.

(** ** Programs *)

(** A Go function body: it returns, or calls [log.Fatalf] (which exits
    the process), or panics, or performs an operation and goes on with
    its answer. *)
Inductive code (A : Type) : Type :=
| Ret (a : A)
| Fatalf (fmt : string) (args : list arg)
| Panic (msg : string)
| Do {X : Type} (op : Op X) (k : X -> code A).
Arguments Ret {A} a.
Arguments Fatalf {A} fmt args.
Arguments Panic {A} msg.
Arguments Do {A X} op k.

Fixpoint bind {A B : Type} (c : code A) (f : A -> code B) : code B :=
  match c with
  | Ret a => f a
  | Fatalf fmt args => Fatalf fmt args
  | Panic msg => Panic msg
  | Do op k => Do op (fun x => bind (k x) f)
  end.

#[export] Instance code_ret : MRet code := @Ret.
#[export] Instance code_bind : MBind code := fun A B f c => bind c f.

Definition perform {X : Type} (op : Op X) : code X := Do op Ret.

(** [if cond { body }] *)
Definition when (cond : bool) (body : code unit) : code unit :=
  if cond then body else Ret tt.

(** [l[i]] on a slice: out of range panics. *)
Definition index {A : Type} (l : list A) (i : Z) : code A :=
  if i <? 0 then Panic "index out of range"
  else match l !! Z.to_nat i with
       | Some a => Ret a
       | None => Panic "index out of range"
       end.

(** [len(l)] *)
Definition len {A : Type} (l : list A) : Z := Z.of_nat (length l).

(** Calls registered with [defer] run when the function returns, last
    registered first. *)
Fixpoint run_deferred (ds : list (Op unit)) : code unit :=
  match ds with
  | [] => Ret tt
  | d :: ds' => perform d;; run_deferred ds'
  end.

(** ** The driver *)

(** Constants of the build and of the ipc and host packages. *)
Record Build := {
  GOOS : string;
  GOARCH : string;
  NumCPU : Z;
  FlagEnableTun : Z;
  FlagEnableNetDev : Z;
  FlagEnableNetReset : Z;
  FlagEnableCgroups : Z;
  FlagEnableBinfmtMisc : Z;
  FlagEnableCloseFds : Z;
  FeatureNetworkInjection : nat;
  FeatureNetworkDevices : nat
}.

(** The command line, as [flag.Parse] leaves it. *)
Record CmdLine := {
  flagOS : string;
  flagArch : string;
  flagCorpus : string;
  flagOutput : bool;
  flagProcs : Z;
  flagLogProg : bool;
  flagGenerate : bool;
  flagSyscalls : string;
  flagEnable : string;
  flagDisable : string
}.

Definition default_flags (B : Build) : CmdLine := {|
  flagOS := GOOS B;
  flagArch := GOARCH B;
  flagCorpus := "";
  flagOutput := false;
  flagProcs := wrap64 (2 * NumCPU B);
  flagLogProg := false;
  flagGenerate := true;
  flagSyscalls := "";
  flagEnable := "none";
  flagDisable := "none"
|}.

Definition programLength : Z := 30.

Definition comma : ascii := Ascii.ascii_of_nat 44.

Section Driver.

Variable B : Build.
Variable fl : CmdLine.

(** *** execute (lines 134-153) *)
Definition execute (pid : Z) (env : Env) (execOpts : ExecOpts) (p : loc) : code unit :=
  perform (AtomicAddStatExec 1);;
  deferred ←
    (if flagLogProg fl then
       ticket ← perform GateEnter;
       (* defer gate.Leave(ticket) *)
       perform outMuLock;;
       s ← perform (Serialize p);
       perform (Printf "executing program %v\n%s\n" [AInt pid; AStr s]);;
       perform outMuUnlock;;
       Ret [GateLeave ticket]
     else Ret []);
  r ← perform (EnvExec env execOpts p);
  (match exec_err r with
   | Some e => perform (Printf "failed to execute executor: %v\n" [AErr e])
   | None => Ret tt
   end);;
  when (hanged r || bool_decide (exec_err r ≠ None) || flagOutput fl)
    (s ← perform (Serialize p);
     perform (Printf "PROGRAM:\n%s\n" [AStr s]));;
  when (hanged r || bool_decide (exec_err r ≠ None) || flagOutput fl)
    (perform (StdoutWrite (output r)));;
  run_deferred deferred.

(** *** The worker goroutine (lines 103-125) *)
Definition worker_prologue (sh : Shared) (pid : Z) : code WorkerLocals :=
  r ← perform (MakeEnv (sh_config sh) pid);
  match r with
  | Err e => Fatalf "failed to create execution environment: %v" [AErr e]
  | Ok env =>
      now ← perform UnixNano;
      rs ← perform (NewSource (wrap64 (now + wrap64 (pid * 10 ^ 12))));
      rnd ← perform (randNew rs);
      Ret {| w_env := env; w_rs := rs; w_rnd := rnd |}
  end.

(** The condition of line 112: [&&] binds tighter than [||]. *)
Definition takes_generate (corpus : list loc) (i : Z) : bool :=
  (flagGenerate fl && (len corpus =? 0)) || negb (rem i 4 =? 0).

(** The body of the loop [for i := 0; ; i++] at a given [i]. *)
Definition worker_body (sh : Shared) (pid : Z) (w : WorkerLocals) (i : Z) : code unit :=
  let target := sh_target sh in
  let corpus := sh_corpus sh in
  let ct := sh_ct sh in
  let execOpts := sh_execOpts sh in
  let env := w_env w in
  let rs := w_rs w in
  let rnd := w_rnd w in
  if takes_generate corpus i then
    p ← perform (Generate target rs programLength ct);
    perform (CallExecute pid env execOpts p);;
    perform (Mutate p rs programLength ct corpus);;
    perform (CallExecute pid env execOpts p)
  else
    n ← perform (Intn rnd (len corpus));
    e ← index corpus n;
    p ← perform (Clone e);
    perform (Mutate p rs programLength ct corpus);;
    perform (CallExecute pid env execOpts p);;
    perform (Mutate p rs programLength ct corpus);;
    perform (CallExecute pid env execOpts p).

(** *** readCorpus (lines 155-172) *)
Fixpoint readCorpus_records (target : Target) (recs : list Record_) (progs : list loc)
  : code (list loc) :=
  match recs with
  | [] => Ret progs
  | rec :: recs' =>
      r ← perform (Deserialize target (Val rec) NonStrict);
      match r with
      | Err e => Fatalf "failed to deserialize corpus program: %v" [AErr e]
      | Ok p => readCorpus_records target recs' (progs ++ [p])
      end
  end.

Definition readCorpus (target : Target) : code (list loc) :=
  if String.eqb (flagCorpus fl) "" then Ret []
  else
    r ← perform (dbOpen (flagCorpus fl));
    match r with
    | Err e => Fatalf "failed to open corpus database: %v" [AErr e]
    | Ok db => readCorpus_records target (Records db) []
    end.

(** *** buildCallList (lines 174-215) *)

(** [for _, id := range syscallsIDs { enabledSyscalls[target.Syscalls[id]] = true }] *)
Fixpoint mark_enabled (target : Target) (ids : list Z) (enabledSyscalls : CallSet)
  : code CallSet :=
  match ids with
  | [] => Ret enabledSyscalls
  | id :: ids' =>
      c ← index (Syscalls target) id;
      mark_enabled target ids' (<[c := true]> enabledSyscalls)
  end.

(** [for c := range m { if !enabledSyscalls[c] { delete(m, c) } }] *)
Definition keep_enabled {V : Type} (enabledSyscalls : CallSet) (m : gmap sysref V)
  : gmap sysref V :=
  filter (fun kv => enabledSyscalls !! kv.1 = Some true) m.

(** [for c, reason := range disabled { log.Logf(0, fmt, c.Name, reason) }] *)
Fixpoint log_disabled (target : Target) (fmt : string) (ds : list (sysref * string))
  : code unit :=
  match ds with
  | [] => Ret tt
  | (c, reason) :: ds' =>
      perform (Logf 0 fmt [AStr (SyscallName target c); AStr reason]);;
      log_disabled target fmt ds'
  end.

Definition buildCallList (target : Target) (enabled : list string) : code CallSet :=
  if negb (String.eqb (flagOS fl) (GOOS B)) then
    Ret (foldl (fun calls c => <[c := true]> calls) (∅ : CallSet) (Syscalls target))
  else
    r ← perform (DetectSupportedSyscalls target "none");
    match r with
    | Err e => Fatalf "failed to detect host supported syscalls: %v" [AErr e]
    | Ok (calls, disabled) =>
        '(calls, disabled) ←
          (if negb (len enabled =? 0) then
             r ← perform (ParseEnabledSyscalls target enabled []);
             match r with
             | Err e => Fatalf "failed to parse enabled syscalls: %v" [AErr e]
             | Ok syscallsIDs =>
                 enabledSyscalls ← mark_enabled target syscallsIDs ∅;
                 Ret (keep_enabled enabledSyscalls calls,
                      keep_enabled enabledSyscalls disabled)
             end
           else Ret (calls, disabled));
        log_disabled target "unsupported syscall: %v: %v" (map_to_list disabled);;
        '(calls, disabled) ← perform (TransitivelyEnabledCalls target calls);
        log_disabled target "transitively unsupported: %v: %v" (map_to_list disabled);;
        Ret calls
    end.

(** *** main (lines 46-130) *)

(** [config.Flags |= f] *)
Definition set_flag (c : Config) (f : Z) : Config :=
  {| Flags := Z.lor (Flags c) f; ConfigRest := ConfigRest c |}.

Definition flag_if (cond : bool) (f : Z) (c : Config) : Config :=
  if cond then set_flag c f else c.

(** [for pid := 0; pid < *flagProcs; pid++ { go func() { ... }() }],
    with [n] the number of iterations still to run. *)
Fixpoint spawn (n : nat) (pid : Z) (sh : Shared) : code unit :=
  match n with
  | O => Ret tt
  | S n' => perform (GoWorker pid sh);; spawn n' (pid + 1) sh
  end.

Definition main : code unit :=
  r ← perform (ParseFeaturesFlags (flagEnable fl) (flagDisable fl) true);
  match r with
  | Err e => Fatalf "%v" [AErr e]
  | Ok featuresFlags =>
  r ← perform (GetTarget (flagOS fl) (flagArch fl));
  match r with
  | Err e => Fatalf "%v" [AErr e]
  | Ok target =>
  corpus ← readCorpus target;
  perform (Logf 0 "parsed %v programs" [AInt (len corpus)]);;
  if negb (flagGenerate fl) && (len corpus =? 0) then
    Fatalf "nothing to mutate (-generate=false and no corpus)" []
  else
  r ← perform (hostCheck target);
  match r with
  | Err e => Fatalf "%v" [AErr e]
  | Ok features =>
  r ← perform (hostSetup target features);
  match r with
  | Err e => Fatalf "%v" [AErr e]
  | Ok _ =>
  calls ← buildCallList target (Split (flagSyscalls fl) comma);
  prios ← perform (CalculatePriorities target corpus);
  ct ← perform (BuildChoiceTable target prios calls);
  r ← perform (ipcconfigDefault target);
  match r with
  | Err e => Fatalf "%v" [AErr e]
  | Ok (config, execOpts) =>
  let config :=
    flag_if (featuresFlags "tun" && features (FeatureNetworkInjection B))
      (FlagEnableTun B) config in
  let config :=
    flag_if (featuresFlags "net_dev" && features (FeatureNetworkDevices B))
      (FlagEnableNetDev B) config in
  let config := flag_if (featuresFlags "net_reset") (FlagEnableNetReset B) config in
  let config := flag_if (featuresFlags "cgroups") (FlagEnableCgroups B) config in
  let config := flag_if (featuresFlags "binfmt_misc") (FlagEnableBinfmtMisc B) config in
  let config := flag_if (featuresFlags "close_fds") (FlagEnableCloseFds B) config in
  perform (NewGate (wrap64 (2 * flagProcs fl)));;
  spawn (Z.to_nat (flagProcs fl)) 0
    {| sh_target := target; sh_corpus := corpus; sh_ct := ct;
       sh_config := config; sh_execOpts := execOpts |};;
  perform (NewTicker (5 * 10 ^ 9))
  end end end end end.

(** The body of [for range ticker.C] (lines 127-129). *)
Definition reporter_body : code unit :=
  perform TickerRecv;;
  n ← perform AtomicLoadStatExec;
  perform (Logf 0 "executed %v programs" [AInt n]).

End Driver.

(** ** Running one function alone *)

(** What the outside world observes: an operation with its answer, or the
    end of the process. *)
Inductive event : Type :=
| Ev {X : Type} (op : Op X) (x : X)
| EvFatal (fmt : string) (args : list arg)
| EvPanic (msg : string).

Inductive outcome (A : Type) : Type :=
| Returned (a : A)
| Exited
| Panicked.
Arguments Returned {A} a.
Arguments Exited {A}.
Arguments Panicked {A}.

(** The environment's answer to every operation. *)
Definition answers : Type := forall X : Type, Op X -> X.

(** An oracle gives the answers at each step of a run. *)
Definition oracle : Type := nat -> answers.

(** [run_code o n c]: the events of [c] and how it ends, when the
    operation at step [m] of the run (counted from [n]) is answered by
    [o m]. *)
Fixpoint run_code {A : Type} (o : oracle) (n : nat) (c : code A) : list event * outcome A :=
  match c with
  | Ret a => ([], Returned a)
  | Fatalf fmt args => ([EvFatal fmt args], Exited)
  | Panic msg => ([EvPanic msg], Panicked)
  | Do op k =>
      let x := o n _ op in
      let r := run_code o (S n) (k x) in
      (Ev op x :: r.1, r.2)
  end.

Definition events_of {A : Type} (o : oracle) (c : code A) : list event := (run_code o 0 c).1.
Definition outcome_of {A : Type} (o : oracle) (c : code A) : outcome A := (run_code o 0 c).2.

(** Classes of operations. *)
Definition opclass : Type := forall X : Type, Op X -> bool.

Definition op_stat_inc : opclass := fun X op =>
  match op with AtomicAddStatExec _ => true | _ => false end.
Definition op_exec : opclass := fun X op =>
  match op with EnvExec _ _ _ => true | _ => false end.
Definition op_gate_enter : opclass := fun X op =>
  match op with GateEnter => true | _ => false end.
Definition op_gate_leave : opclass := fun X op =>
  match op with GateLeave _ => true | _ => false end.
Definition op_generate : opclass := fun X op =>
  match op with Generate _ _ _ _ => true | _ => false end.
Definition op_mutate : opclass := fun X op =>
  match op with Mutate _ _ _ _ _ => true | _ => false end.
Definition op_call_execute : opclass := fun X op =>
  match op with CallExecute _ _ _ _ => true | _ => false end.
Definition op_go : opclass := fun X op =>
  match op with GoWorker _ _ => true | _ => false end.
Definition op_new_gate : opclass := fun X op =>
  match op with NewGate _ => true | _ => false end.
Definition op_parse_enabled : opclass := fun X op =>
  match op with ParseEnabledSyscalls _ _ _ => true | _ => false end.

(** The event is an operation of the class. *)
Definition holds (P : opclass) (e : event) : bool :=
  match e with
  | Ev op _ => P _ op
  | _ => false
  end.

(** A record was deserialized into a program. *)
Definition deserialized (e : event) : bool :=
  match e with
  | Ev op x =>
      match op in Op X return X -> bool with
      | Deserialize _ _ _ => fun x => match x with Ok _ => true | Err _ => false end
      | _ => fun _ => false
      end x
  | _ => false
  end.

(** The receiver of a [Mutate]. *)
Definition mutate_receiver (e : event) : option loc :=
  match e with
  | Ev op _ => match op with Mutate p _ _ _ _ => Some p | _ => None end
  | _ => None
  end.

(** The position of the first event that satisfies [P]. *)
Fixpoint position (P : event -> bool) (tr : list event) : option nat :=
  match tr with
  | [] => None
  | e :: tr' => if P e then Some O else S <$> position P tr'
  end.

(** The number of events that satisfy [P]. *)
Fixpoint count (P : event -> bool) (tr : list event) : nat :=
  match tr with
  | [] => O
  | e :: tr' => ((if P e then 1 else 0) + count P tr')%nat
  end.

(** The claim that [execute] gives its ticket back before it runs the
    program. *)
Definition released_before_exec (tr : list event) : bool :=
  match position (holds op_gate_leave) tr, position (holds op_exec) tr with
  | Some i, Some j => (i <? j)%nat
  | _, _ => false
  end.

(** ** The process: goroutines interleaved over a shared state *)

(** Modelled from the spec: ipc.Gate is not part of the driver's file.  The
    spec describes it as holding a fixed capacity N and a current
    outstanding-ticket count; [Enter] blocks until a ticket is available
    and then returns a ticket handle, [Leave] releases a ticket. *)
Record Gate := {
  capacity : Z;
  outstanding : nat
}.

(** Modelled from the spec: a ticket is available while fewer than N are
    outstanding. *)
Definition gate_available (g : Gate) : bool := Z.of_nat (outstanding g) <? capacity g.

Definition gate_enter (g : Gate) : Gate :=
  {| capacity := capacity g; outstanding := S (outstanding g) |}.

Definition gate_leave (g : Gate) : Gate :=
  {| capacity := capacity g; outstanding := pred (outstanding g) |}.

(** Where a goroutine is in its own function: [main] before the ticker
    loop, the ticker loop, a worker before its loop, a worker in iteration
    [i] of its loop. *)
Inductive base : Type :=
| BMain (c : code unit)
| BReporter (c : code unit)
| BInit (pid : Z) (sh : Shared) (c : code WorkerLocals)
| BLoop (pid : Z) (sh : Shared) (w : WorkerLocals) (i : Z) (c : code unit).

(** A goroutine: the calls to [execute] it is inside of, innermost first,
    above the function it started with. *)
Record thread := {
  frames : list (code unit);
  t_base : base
}.

Record state := {
  statExec : Z;                     (* the global statExec, a uint64 *)
  gate : option Gate;               (* the global gate, nil until NewGate *)
  outMu : bool;                     (* outMu is locked *)
  heap : list ProgData;             (* the programs allocated so far *)
  threads : list thread;            (* main is goroutine 0 *)
  trace : list (nat * event);       (* what happened, oldest first *)
  exited : bool                     (* the process has ended *)
}.

Definition set_statExec (v : Z) (s : state) : state :=
  {| statExec := v; gate := gate s; outMu := outMu s; heap := heap s;
     threads := threads s; trace := trace s; exited := exited s |}.
Definition set_gate (v : option Gate) (s : state) : state :=
  {| statExec := statExec s; gate := v; outMu := outMu s; heap := heap s;
     threads := threads s; trace := trace s; exited := exited s |}.
Definition set_outMu (v : bool) (s : state) : state :=
  {| statExec := statExec s; gate := gate s; outMu := v; heap := heap s;
     threads := threads s; trace := trace s; exited := exited s |}.
Definition set_heap (v : list ProgData) (s : state) : state :=
  {| statExec := statExec s; gate := gate s; outMu := outMu s; heap := v;
     threads := threads s; trace := trace s; exited := exited s |}.
Definition set_threads (v : list thread) (s : state) : state :=
  {| statExec := statExec s; gate := gate s; outMu := outMu s; heap := heap s;
     threads := v; trace := trace s; exited := exited s |}.
Definition set_exited (v : bool) (s : state) : state :=
  {| statExec := statExec s; gate := gate s; outMu := outMu s; heap := heap s;
     threads := threads s; trace := trace s; exited := v |}.
Definition log (tid : nat) (e : event) (s : state) : state :=
  {| statExec := statExec s; gate := gate s; outMu := outMu s; heap := heap s;
     threads := threads s; trace := trace s ++ [(tid, e)]; exited := exited s |}.

(** One scheduling decision: which goroutine moves, what the outside
    world answers to its operation, and the contents of the program a
    generation, mutation or deserialization produces. *)
Record choice := {
  ch_tid : nat;
  ch_ans : answers;
  ch_data : ProgData
}.

(** The answer an operation really gets in state [s] when the outside
    world proposes [x]: the allocator and the counter decide their own
    answers, [Intn(n)] answers within [0, n).  [None]: no such answer. *)
Definition resolve {X : Type} (s : state) (op : Op X) : X -> option X :=
  match op in Op X return X -> option X with
  | Deserialize _ _ _ => fun x =>
      match x with
      | Ok _ => Some (Ok (length (heap s)))
      | Err e => Some (Err e)
      end
  | Generate _ _ _ _ => fun _ => Some (length (heap s))
  | Clone _ => fun _ => Some (length (heap s))
  | AtomicLoadStatExec => fun _ => Some (statExec s)
  | Intn _ n => fun x =>
      if n <=? 0 then Some x                      (* Intn panics *)
      else if (0 <=? x) && (x <? n) then Some x else None
  | _ => fun x => Some x
  end.

(** A goroutine that panics, or a runtime fault, ends the process. *)
Definition crash (tid : nat) (msg : string) (s : state) : state :=
  set_exited true (log tid (EvPanic msg) s).

Section Machine.

Variable B : Build.
Variable fl : CmdLine.

Definition new_worker (pid : Z) (sh : Shared) : thread :=
  {| frames := []; t_base := BInit pid sh (worker_prologue sh pid) |}.

(** The operation cannot proceed now: the goroutine waits. *)
Definition blocked {X : Type} (op : Op X) (s : state) : bool :=
  match op with
  | GateEnter =>
      match gate s with
      | Some g => negb (gate_available g)
      | None => false
      end
  | outMuLock => outMu s
  | _ => false
  end.

(** The operation panics or is a fatal runtime error. *)
Definition fault {X : Type} (op : Op X) (s : state) : option string :=
  match op with
  | GateEnter | GateLeave _ =>
      match gate s with
      | Some _ => None
      | None => Some "nil pointer dereference"
      end
  | outMuUnlock => if outMu s then None else Some "sync: unlock of unlocked mutex"
  | Clone p | Mutate p _ _ _ _ =>
      match heap s !! p with
      | Some _ => None
      | None => Some "nil pointer dereference"
      end
  | Intn _ n => if n <=? 0 then Some "invalid argument to Intn" else None
  | _ => None
  end.

(** What the operation, answered by [x], does to the shared state. *)
Definition effect {X : Type} (d : ProgData) (op : Op X) : X -> state -> state :=
  match op in Op X return X -> state -> state with
  | AtomicAddStatExec delta => fun _ s => set_statExec (wrapu64 (statExec s + delta)) s
  | NewGate c => fun _ s => set_gate (Some {| capacity := c; outstanding := O |}) s
  | GateEnter => fun _ s => set_gate (gate_enter <$> gate s) s
  | GateLeave _ => fun _ s => set_gate (gate_leave <$> gate s) s
  | outMuLock => fun _ s => set_outMu true s
  | outMuUnlock => fun _ s => set_outMu false s
  | GoWorker pid sh => fun _ s => set_threads (threads s ++ [new_worker pid sh]) s
  | Deserialize _ _ _ => fun x s =>
      match x with
      | Ok _ => set_heap (heap s ++ [d]) s
      | Err _ => s
      end
  | Generate _ _ _ _ => fun _ s => set_heap (heap s ++ [d]) s
  | Clone p => fun _ s =>
      match heap s !! p with
      | Some pd => set_heap (heap s ++ [pd]) s
      | None => s
      end
  | Mutate p _ _ _ _ => fun _ s => set_heap (<[p := d]> (heap s)) s
  | _ => fun _ s => s
  end.

(** [None]: the goroutine is blocked. *)
Definition apply_op {X : Type} (tid : nat) (d : ProgData) (op : Op X) (x : X) (s : state)
  : option state :=
  if blocked op s then None
  else match fault op s with
       | Some msg => Some (crash tid msg s)
       | None => Some (log tid (Ev op x) (effect d op x s))
       end.

(** The call an operation makes into this file. *)
Definition call_of {X : Type} (op : Op X) : list (code unit) :=
  match op with
  | CallExecute pid env opts p => [execute fl pid env opts p]
  | _ => []
  end.

(** The function activation a goroutine is running: its code, the
    goroutine once that code has moved on to [c] and made the calls
    [call], and the goroutine once that code has returned. *)
Record activation := {
  act_type : Type;
  act_code : code act_type;
  act_moved : code act_type -> list (code unit) -> thread;
  act_returned : act_type -> thread
}.

Definition activation_of (t : thread) : activation :=
  match frames t with
  | f :: fs =>
      {| act_code := f;
         act_moved c call := {| frames := call ++ c :: fs; t_base := t_base t |};
         (* execute returns to its caller *)
         act_returned _ := {| frames := fs; t_base := t_base t |} |}
  | [] =>
      match t_base t with
      | BMain c =>
          {| act_code := c;
             act_moved c' call := {| frames := call; t_base := BMain c' |};
             (* main enters the ticker loop *)
             act_returned _ := {| frames := []; t_base := BReporter reporter_body |} |}
      | BReporter c =>
          {| act_code := c;
             act_moved c' call := {| frames := call; t_base := BReporter c' |};
             (* the next tick *)
             act_returned _ := {| frames := []; t_base := BReporter reporter_body |} |}
      | BInit pid sh c =>
          {| act_code := c;
             act_moved c' call := {| frames := call; t_base := BInit pid sh c' |};
             (* for i := 0 *)
             act_returned w :=
               {| frames := []; t_base := BLoop pid sh w 0 (worker_body fl sh pid w 0) |} |}
      | BLoop pid sh w i c =>
          {| act_code := c;
             act_moved c' call := {| frames := call; t_base := BLoop pid sh w i c' |};
             (* i++ *)
             act_returned _ :=
               let i' := wrap64 (i + 1) in
               {| frames := []; t_base := BLoop pid sh w i' (worker_body fl sh pid w i') |} |}
      end
  end.

Definition set_thread (tid : nat) (t : thread) (s : state) : state :=
  set_threads (<[tid := t]> (threads s)) s.

(** One step of goroutine [ch_tid ch]. *)
Definition step (s : state) (ch : choice) : option state :=
  let tid := ch_tid ch in
  if exited s then None else
  t ← threads s !! tid;
  let a := activation_of t in
  match act_code a with
  | Ret r => Some (set_thread tid (act_returned a r) s)
  | Fatalf fmt args => Some (set_exited true (log tid (EvFatal fmt args) s))
  | Panic msg => Some (crash tid msg s)
  | Do op k =>
      x ← resolve s op (ch_ans ch _ op);
      s' ← apply_op tid (ch_data ch) op x s;
      Some (if exited s' then s'
            else set_thread tid (act_moved a (k x) (call_of op)) s')
  end.

(** The process at its start: only [main] runs. *)
Definition init : state := {|
  statExec := 0;
  gate := None;
  outMu := false;
  heap := [];
  threads := [ {| frames := []; t_base := BMain (main B fl) |} ];
  trace := [];
  exited := false
|}.

Fixpoint run (s : state) (chs : list choice) : option state :=
  match chs with
  | [] => Some s
  | ch :: chs' => s' ← step s ch; run s' chs'
  end.

Inductive reachable : state -> Prop :=
| reach_init : reachable init
| reach_step s ch s' : reachable s -> step s ch = Some s' -> reachable s'.

End Machine.

(** ** Concrete worlds, for scenarios *)

(** A world answers every operation from a few settings. *)
Record world := {
  wd_records : list Record_;        (* what the corpus store holds *)
  wd_open_fails : bool;             (* db.Open fails *)
  wd_deserialize_fails : bool;      (* target.Deserialize fails *)
  wd_makeenv_fails : bool;          (* ipc.MakeEnv fails *)
  wd_exec : ExecResult;             (* what env.Exec returns *)
  wd_intn : Z;                      (* what rnd.Intn returns *)
  wd_loc : loc                      (* the program an allocation returns *)
}.

Definition answer (w : world) : answers := fun X op =>
  match op in Op X return X with
  | ParseFeaturesFlags _ _ _ => Ok (fun _ => false)
  | GetTarget _ _ => Ok {| Syscalls := []; SyscallName := fun _ => "" |}
  | dbOpen _ =>
      if wd_open_fails w then Err "open failed" else Ok {| Records := wd_records w |}
  | Deserialize _ _ _ =>
      if wd_deserialize_fails w then Err "bad program" else Ok (wd_loc w)
  | Logf _ _ _ => tt
  | hostCheck _ => Ok (fun _ => false)
  | hostSetup _ _ => Ok tt
  | DetectSupportedSyscalls _ _ => Ok (∅, ∅)
  | ParseEnabledSyscalls _ _ _ => Ok []
  | TransitivelyEnabledCalls _ calls => (calls, ∅)
  | CalculatePriorities _ _ => prios 0
  | BuildChoiceTable _ _ _ => choiceTable 0
  | ipcconfigDefault _ => Ok ({| Flags := 0; ConfigRest := 0 |}, execOpts_ 0)
  | NewGate _ => tt
  | GoWorker _ _ => tt
  | NewTicker _ => tt
  | TickerRecv => tt
  | AtomicLoadStatExec => 0
  | MakeEnv _ pid =>
      if wd_makeenv_fails w then Err "no executor" else Ok (env_ (Z.to_nat pid))
  | UnixNano => 0
  | NewSource seed => randSource seed
  | randNew rs => rand_ rs
  | Generate _ _ _ _ => wd_loc w
  | Mutate _ _ _ _ _ => tt
  | Intn _ _ => wd_intn w
  | Clone _ => wd_loc w
  | CallExecute _ _ _ _ => tt
  | AtomicAddStatExec _ => tt
  | GateEnter => 0
  | GateLeave _ => tt
  | outMuLock => tt
  | outMuUnlock => tt
  | Serialize _ => "prog"
  | Printf _ _ => tt
  | EnvExec _ _ _ => wd_exec w
  | StdoutWrite _ => tt
  end.

Definition quiet_world : world := {|
  wd_records := [];
  wd_open_fails := false;
  wd_deserialize_fails := false;
  wd_makeenv_fails := false;
  wd_exec := {| output := []; hanged := false; exec_err := None |};
  wd_intn := 0;
  wd_loc := O
|}.

Definition linux_build : Build := {|
  GOOS := "linux"; GOARCH := "amd64"; NumCPU := 1;
  FlagEnableTun := 1; FlagEnableNetDev := 2; FlagEnableNetReset := 4;
  FlagEnableCgroups := 8; FlagEnableBinfmtMisc := 16; FlagEnableCloseFds := 32;
  FeatureNetworkInjection := 0; FeatureNetworkDevices := 1
|}.

(** The scheduler lets goroutine [tid] move [n] times in world [w]. *)
Definition moves (w : world) (tid : nat) (n : nat) : list choice :=
  replicate n {| ch_tid := tid; ch_ans := answer w; ch_data := [] |}.

Definition logprog_flags : CmdLine := {|
  flagOS := "linux"; flagArch := "amd64"; flagCorpus := ""; flagOutput := false;
  flagProcs := 1; flagLogProg := true; flagGenerate := true; flagSyscalls := "";
  flagEnable := "none"; flagDisable := "none"
|}.

(** * Properties *)

(** ** Running code *)

Lemma count_app P tr1 tr2 : count P (tr1 ++ tr2) = (count P tr1 + count P tr2)%nat.
Proof. induction tr1 as [|e tr1 IH]; simpl; [done|]. rewrite IH. lia. Qed.

Lemma run_code_bind {A B : Type} (o : oracle) (c : code A) (f : A -> code B) :
  forall n,
    run_code o n (bind c f) =
      match (run_code o n c).2 with
      | Returned a =>
          ((run_code o n c).1 ++ (run_code o (n + length (run_code o n c).1) (f a)).1,
           (run_code o (n + length (run_code o n c).1) (f a)).2)
      | Exited => ((run_code o n c).1, Exited)
      | Panicked => ((run_code o n c).1, Panicked)
      end.
Proof.
  induction c as [a|fmt args|msg|X op k IH]; intros n; simpl.
  - rewrite Nat.add_0_r. by destruct (run_code o n (f a)).
  - done.
  - done.
  - rewrite IH. destruct (run_code o (S n) (k (o n X op))).2; simpl;
      by rewrite ?Nat.add_succ_r.
Qed.

Lemma mbind_bind {A B : Type} (c : code A) (f : A -> code B) : c ≫= f = bind c f.
Proof. done. Qed.

(** ** execute *)

Section ExecuteShape.

Variable fl : CmdLine.
Variables (pid : Z) (env : Env) (opts : ExecOpts) (p : loc).

(** [execute] always returns, after exactly one increment of the
    counter and exactly one run of the program. *)
Lemma execute_counts o n :
  count (holds op_stat_inc) (run_code o n (execute fl pid env opts p)).1 = 1%nat /\
  count (holds op_exec) (run_code o n (execute fl pid env opts p)).1 = 1%nat /\
  (run_code o n (execute fl pid env opts p)).2 = Returned tt.
Proof.
  unfold execute. destruct (flagLogProg fl); cbn.
  - destruct (o (S (S (S (S (S (S n)))))) _ (EnvExec env opts p)) as [out h [e|]];
      destruct h, (flagOutput fl); cbn; done.
  - destruct (o (S n) _ (EnvExec env opts p)) as [out h [e|]];
      destruct h, (flagOutput fl); cbn; done.
Qed.

End ExecuteShape.

(** C3, as the claim states it, fails: with logprog set, the ticket is
    still held when the program runs; [gate.Leave] is the last event of
    the call, after [env.Exec]. *)
Lemma execute_ticket_not_released_before_exec :
  flagLogProg logprog_flags = true /\
  released_before_exec
    (events_of (fun _ => answer quiet_world)
       (execute logprog_flags 0 (env_ 0) (execOpts_ 0) O)) = false /\
  position (holds op_exec)
    (events_of (fun _ => answer quiet_world)
       (execute logprog_flags 0 (env_ 0) (execOpts_ 0) O)) = Some 6%nat /\
  position (holds op_gate_leave)
    (events_of (fun _ => answer quiet_world)
       (execute logprog_flags 0 (env_ 0) (execOpts_ 0) O)) = Some 7%nat.
Proof. repeat split. Qed.

(** C3, amended: with logprog set, [execute] takes its ticket before it
    prints the worker id and the program, keeps it while the program
    runs and while the diagnostics are dumped, and gives it back (the
    deferred [gate.Leave]) as the last thing it does, after [env.Exec]. *)
Theorem execute_holds_ticket_until_return fl pid env opts p o n :
  flagLogProg fl = true ->
  let tr := (run_code o n (execute fl pid env opts p)).1 in
  exists (t : Z) (s : string),
    tr !! 1%nat = Some (Ev GateEnter t) /\
    tr !! 4%nat = Some (Ev (Printf "executing program %v\n%s\n" [AInt pid; AStr s])
                         (o (4 + n)%nat _ (Printf "executing program %v\n%s\n" [AInt pid; AStr s]))) /\
    position (holds op_exec) tr = Some 6%nat /\
    position (holds op_gate_leave) tr = Some (length tr - 1)%nat /\
    (6 < length tr - 1)%nat /\
    last tr = Some (Ev (GateLeave t) (o (n + (length tr - 1))%nat _ (GateLeave t))) /\
    count (holds op_gate_enter) tr = 1%nat /\
    count (holds op_gate_leave) tr = 1%nat /\
    (run_code o n (execute fl pid env opts p)).2 = Returned tt.
Proof.
  intros Hlog tr. subst tr. unfold execute. rewrite Hlog. cbn.
  do 2 eexists.
  destruct (o (S (S (S (S (S (S n)))))) _ (EnvExec env opts p)) as [out h [e|]];
    destruct h, (flagOutput fl); cbn; repeat split; try reflexivity; try lia;
    repeat f_equal; f_equal; lia.
Qed.

Lemma execute_holds_ticket_until_return_witness :
  exists (t : Z) (s : string),
    (run_code (fun _ => answer quiet_world) 0
       (execute logprog_flags 0 (env_ 0) (execOpts_ 0) O)).1 !! 1%nat = Some (Ev GateEnter t) /\
    position (holds op_gate_leave)
      (run_code (fun _ => answer quiet_world) 0
         (execute logprog_flags 0 (env_ 0) (execOpts_ 0) O)).1 = Some 7%nat.
Proof.
  destruct (execute_holds_ticket_until_return logprog_flags 0 (env_ 0) (execOpts_ 0) O
              (fun _ => answer quiet_world) 0 eq_refl)
    as (t & s & H1 & _ & _ & H4 & _).
  exists t, s. split; [exact H1 | exact H4].
Defined.

(** ** readCorpus *)

Section ReadCorpus.

Variable fl : CmdLine.
Variable target : Target.
Variable o : oracle.

(** When the loop over the records returns, it has appended one program
    per record; it never panics. *)
Lemma readCorpus_records_returns recs : forall n progs,
  match (run_code o n (readCorpus_records target recs progs)).2 with
  | Returned ps =>
      exists locs, ps = progs ++ locs /\ length locs = length recs /\
        count deserialized (run_code o n (readCorpus_records target recs progs)).1
          = length recs
  | Exited => True
  | Panicked => False
  end.
Proof.
  induction recs as [|rec recs IH]; intros n progs; simpl.
  - exists []. by rewrite app_nil_r.
  - destruct (o n _ (Deserialize target (Val rec) NonStrict)) as [p|e] eqn:Hd; simpl; [|done].
    specialize (IH (S n) (progs ++ [p])).
    destruct (run_code o (S n) (readCorpus_records target recs (progs ++ [p]))) as [tr [ps| |]];
      simpl in *; try done.
    destruct IH as (locs & -> & Hlen & Hcount).
    exists (p :: locs). rewrite <- app_assoc. simpl. by rewrite Hlen, Hcount.
Qed.

(** A record whose deserialization fails ends the process. *)
Lemma readCorpus_records_fails recs : forall n progs j rec e,
  recs !! j = Some rec ->
  o (n + j)%nat _ (Deserialize target (Val rec) NonStrict) = Err e ->
  (run_code o n (readCorpus_records target recs progs)).2 = Exited /\
  exists e', last (run_code o n (readCorpus_records target recs progs)).1
             = Some (EvFatal "failed to deserialize corpus program: %v" [AErr e']).
Proof.
  induction recs as [|rec0 recs IH]; intros n progs j rec e Hj He; [done|].
  simpl. destruct (o n _ (Deserialize target (Val rec0) NonStrict)) as [p|e0] eqn:Hd; simpl.
  - destruct j as [|j]; simpl in Hj.
    + injection Hj as ->. rewrite Nat.add_0_r in He. congruence.
    + rewrite Nat.add_succ_r in He.
      destruct (IH (S n) (progs ++ [p]) j rec e Hj He) as (Hout & e' & Hlast).
      split; [done|]. exists e'. rewrite last_cons, Hlast. done.
  - split; [done|]. by exists e0.
Qed.

End ReadCorpus.

(** C7: readCorpus returns an empty corpus when the corpus path is
    empty; for a non-empty path, a store that cannot be opened is fatal,
    a record that cannot be deserialized (in non-strict mode) is fatal,
    and when readCorpus returns it holds one program per record: none
    was skipped. *)
Theorem readCorpus_errors fl target o n :
  (flagCorpus fl = "" ->
     run_code o n (readCorpus fl target) = ([], Returned [])) /\
  (flagCorpus fl <> "" -> forall e,
     o n _ (dbOpen (flagCorpus fl)) = Err e ->
     run_code o n (readCorpus fl target) =
       ([Ev (dbOpen (flagCorpus fl)) (Err e);
         EvFatal "failed to open corpus database: %v" [AErr e]], Exited)) /\
  (flagCorpus fl <> "" -> forall db,
     o n _ (dbOpen (flagCorpus fl)) = Ok db ->
     (forall j rec e,
        Records db !! j = Some rec ->
        o (S n + j)%nat _ (Deserialize target (Val rec) NonStrict) = Err e ->
        (run_code o n (readCorpus fl target)).2 = Exited /\
        exists e', last (run_code o n (readCorpus fl target)).1 =
                   Some (EvFatal "failed to deserialize corpus program: %v" [AErr e'])) /\
     (forall ps,
        (run_code o n (readCorpus fl target)).2 = Returned ps ->
        length ps = length (Records db))).
Proof.
  unfold readCorpus. split; [|split].
  - intros ->. done.
  - intros Hpath e He. apply String.eqb_neq in Hpath. rewrite Hpath. cbn. by rewrite He.
  - intros Hpath db Hdb. apply String.eqb_neq in Hpath. rewrite Hpath. cbn. rewrite Hdb.
    split.
    + intros j rec e Hj He.
      destruct (readCorpus_records_fails target o (Records db) (S n) [] j rec e Hj He)
        as (Hout & e' & Hlast).
      split; [done|]. exists e'. cbn. rewrite last_cons, Hlast. done.
    + intros ps Hps. cbn in Hps.
      pose proof (readCorpus_records_returns target o (Records db) (S n) []) as H.
      rewrite Hps in H. destruct H as (locs & -> & Hlen & _). done.
Qed.

Definition corpus_flags : CmdLine := {|
  flagOS := "linux"; flagArch := "amd64"; flagCorpus := "corpus.db"; flagOutput := false;
  flagProcs := 1; flagLogProg := false; flagGenerate := false; flagSyscalls := "";
  flagEnable := "none"; flagDisable := "none"
|}.

Definition empty_target : Target := {| Syscalls := []; SyscallName := fun _ => "" |}.

Definition bad_record_world : world := {|
  wd_records := [ {| Val := [] |} ];
  wd_open_fails := false;
  wd_deserialize_fails := true;
  wd_makeenv_fails := false;
  wd_exec := {| output := []; hanged := false; exec_err := None |};
  wd_intn := 0;
  wd_loc := O
|}.

Lemma readCorpus_errors_witness :
  (run_code (fun _ => answer bad_record_world) 0 (readCorpus corpus_flags empty_target)).2
    = Exited.
Proof.
  destruct (readCorpus_errors corpus_flags empty_target (fun _ => answer bad_record_world) 0)
    as (_ & _ & H).
  destruct (H ltac:(discriminate) {| Records := [ {| Val := [] |} ] |} eq_refl) as (Hbad & _).
  exact (proj1 (Hbad O {| Val := [] |} "bad program" eq_refl eq_refl)).
Defined.

(** ** buildCallList *)

Lemma Split_length s sep : (0 < length (Split s sep))%nat.
Proof.
  induction s as [|c s IH]; simpl; [lia|].
  destruct (Ascii.eqb c sep); simpl; [lia|].
  destruct (Split s sep); simpl; lia.
Qed.

(** The log line of one disabled call. *)
Definition disabled_logged (target : Target) (fmt : string) (cr : sysref * string) : event :=
  Ev (Logf 0 fmt [AStr (SyscallName target cr.1); AStr cr.2]) tt.

Lemma log_disabled_run target fmt (o : oracle) ds : forall n,
  run_code o n (log_disabled target fmt ds) =
    (map (disabled_logged target fmt) ds, Returned tt).
Proof.
  induction ds as [|[c reason] ds IH]; intros n; [done|].
  cbn. rewrite IH. cbn. unfold disabled_logged at 2. cbn.
  by destruct (o n _ (Logf 0 fmt [AStr (SyscallName target c); AStr reason])).
Qed.

(** The ids that [ParseEnabledSyscalls] returned are indices into
    [target.Syscalls]. *)
Definition valid_ids (target : Target) (ids : list Z) : Prop :=
  Forall (fun id => 0 <= id < len (Syscalls target)) ids.

Lemma index_valid {A : Type} (l : list A) i :
  0 <= i < len l -> exists a, index l i = Ret a /\ l !! Z.to_nat i = Some a.
Proof.
  intros [H0 H1]. unfold index.
  destruct (Z.ltb_spec i 0) as [?|_]; [lia|].
  destruct (l !! Z.to_nat i) as [a|] eqn:E; [by exists a|].
  apply lookup_ge_None in E. unfold len in H1. lia.
Qed.

Lemma index_invalid {A : Type} (l : list A) i :
  ~ (0 <= i < len l) -> index l i = Panic "index out of range".
Proof.
  intros H. unfold index.
  destruct (Z.ltb_spec i 0) as [?|?]; [done|].
  destruct (l !! Z.to_nat i) as [a|] eqn:E; [|done].
  apply lookup_lt_Some in E. unfold len in H. lia.
Qed.

Lemma mark_enabled_valid target ids : forall es,
  valid_ids target ids ->
  exists es',
    mark_enabled target ids es = Ret es' /\
    forall c, es' !! c = Some true <->
      es !! c = Some true \/
      exists id, id ∈ ids /\ Syscalls target !! Z.to_nat id = Some c.
Proof.
  unfold CallSet. induction ids as [|id ids IH]; intros es Hv.
  - exists es. split; [done|]. intros c. split; [by left|].
    intros [H|(id & Hin & _)]; [done|]. by apply elem_of_nil in Hin.
  - apply Forall_cons in Hv as [Hid Hv].
    destruct (index_valid _ _ Hid) as (c0 & Hi & Hc0).
    destruct (IH (<[c0 := true]> es) Hv) as (es' & Hm & Hes').
    exists es'. split.
    + cbn. rewrite Hi. cbn. exact Hm.
    + intros c. rewrite Hes'. split.
      * intros [H|(id' & Hin & Hc)].
        -- destruct (decide (c = c0)) as [->|Hne].
           ++ right. exists id. split; [apply list_elem_of_here|done].
           ++ rewrite lookup_insert_ne in H by done. by left.
        -- right. exists id'. split; [by apply list_elem_of_further|done].
      * intros [H|(id' & Hin & Hc)].
        -- left. destruct (decide (c = c0)) as [->|Hne].
           ++ by rewrite lookup_insert_eq.
           ++ by rewrite lookup_insert_ne.
        -- apply elem_of_cons in Hin as [->|Hin].
           ++ left. rewrite Hc0 in Hc. injection Hc as ->. by rewrite lookup_insert_eq.
           ++ right. by exists id'.
Qed.

Lemma mark_enabled_invalid target ids : forall es,
  ~ valid_ids target ids ->
  mark_enabled target ids es = Panic "index out of range".
Proof.
  induction ids as [|id ids IH]; intros es Hv.
  - destruct Hv. constructor.
  - destruct (decide (0 <= id < len (Syscalls target))) as [Hid|Hid].
    + destruct (index_valid _ _ Hid) as (c0 & Hi & _).
      cbn. rewrite Hi. cbn. apply IH. intros H. apply Hv. by constructor.
    + cbn. by rewrite (index_invalid _ _ Hid).
Qed.

Lemma keep_enabled_lookup {V : Type} (es : CallSet) (m : gmap sysref V) c v :
  keep_enabled es m !! c = Some v <-> m !! c = Some v /\ es !! c = Some true.
Proof. unfold keep_enabled. by rewrite map_lookup_filter_Some. Qed.

(** The run of [buildCallList] on the controller's own OS, when the
    allow-list resolves to valid ids. *)
Lemma buildCallList_same_os_run B fl target enabled (o : oracle) n calls disabled ids :
  flagOS fl = GOOS B ->
  enabled <> [] ->
  o n _ (DetectSupportedSyscalls target "none") = Ok (calls, disabled) ->
  o (S n) _ (ParseEnabledSyscalls target enabled []) = Ok ids ->
  valid_ids target ids ->
  let named c := exists id, id ∈ ids /\ Syscalls target !! Z.to_nat id = Some c in
  exists (calls1 : CallSet) (disabled1 : Disabled) logs1 logs2,
    (forall c v, calls1 !! c = Some v <-> calls !! c = Some v /\ named c) /\
    (forall c v, disabled1 !! c = Some v <-> disabled !! c = Some v /\ named c) /\
    logs1 ≡ₚ map (disabled_logged target "unsupported syscall: %v: %v")
               (map_to_list disabled1) /\
    let answered :=
      o (S (S (n + length logs1))) _ (TransitivelyEnabledCalls target calls1) in
    logs2 ≡ₚ map (disabled_logged target "transitively unsupported: %v: %v")
               (map_to_list answered.2) /\
    run_code o n (buildCallList B fl target enabled) =
      ([Ev (DetectSupportedSyscalls target "none") (Ok (calls, disabled));
        Ev (ParseEnabledSyscalls target enabled []) (Ok ids)] ++
       logs1 ++
       [Ev (TransitivelyEnabledCalls target calls1) answered] ++
       logs2,
       Returned answered.1).
Proof.
  intros Hos Hen Hd Hp Hv named.
  destruct (mark_enabled_valid target ids ∅ Hv) as (es & Hm & Hes).
  assert (Hnamed : forall c, es !! c = Some true <-> named c).
  { intros c. rewrite Hes. split; [|by right]. intros [H|H]; [|done].
    unfold CallSet in H. by rewrite lookup_empty in H. }
  exists (keep_enabled es calls), (keep_enabled es disabled).
  eexists _, _.
  split; [intros c v; by rewrite keep_enabled_lookup, Hnamed|].
  split; [intros c v; by rewrite keep_enabled_lookup, Hnamed|].
  split; [reflexivity|]. cbn zeta. split; [reflexivity|].
  assert (Hlen : (len enabled =? 0) = false) by (destruct enabled; done).
  unfold buildCallList. rewrite Hos, String.eqb_refl. cbn.
  rewrite Hd. cbn. rewrite Hlen. cbn. rewrite Hp. cbn.
  change (mark_enabled target ids ∅ ≫= ?f) with (bind (mark_enabled target ids ∅) f).
  rewrite Hm. cbn.
  rewrite mbind_bind, run_code_bind, log_disabled_run. cbn.
  destruct (o _ _ (TransitivelyEnabledCalls target (keep_enabled es calls)))
    as [calls2 disabled2]. cbn.
  rewrite mbind_bind, run_code_bind, log_disabled_run. cbn.
  by rewrite app_nil_r.
Qed.

(** C9: when the target OS is the controller's own, buildCallList takes
    the allow-list path for every value of the syscalls flag: splitting
    on commas never yields an empty list (the empty flag yields the list
    of one empty string), so once the supported calls are detected the
    next thing buildCallList does is resolve the allow-list; and when
    the allow-list resolves (to ids of the target's calls), the detected
    calls and the detected disabled calls are both intersected with the
    calls it names: only those are logged as unsupported, only those go
    to [TransitivelyEnabledCalls], whose answer is returned. *)
Theorem buildCallList_always_resolves_allow_list B fl target o n :
  flagOS fl = GOOS B ->
  let enabled := Split (flagSyscalls fl) comma in
  let tr := (run_code o n (buildCallList B fl target enabled)).1 in
  Split "" comma = [""] /\
  (len enabled =? 0) = false /\
  tr !! 0%nat = Some (Ev (DetectSupportedSyscalls target "none")
                        (o n _ (DetectSupportedSyscalls target "none"))) /\
  (forall calls disabled,
     o n _ (DetectSupportedSyscalls target "none") = Ok (calls, disabled) ->
     tr !! 1%nat = Some (Ev (ParseEnabledSyscalls target enabled [])
                           (o (S n) _ (ParseEnabledSyscalls target enabled []))) /\
     (flagSyscalls fl = "" ->
      tr !! 1%nat = Some (Ev (ParseEnabledSyscalls target [""] [])
                            (o (S n) _ (ParseEnabledSyscalls target [""] [])))) /\
     (forall ids,
        o (S n) _ (ParseEnabledSyscalls target enabled []) = Ok ids ->
        valid_ids target ids ->
        let named c := exists id, id ∈ ids /\ Syscalls target !! Z.to_nat id = Some c in
        exists (calls1 : CallSet) (disabled1 : Disabled) logs1 logs2,
          (forall c v, calls1 !! c = Some v <-> calls !! c = Some v /\ named c) /\
          (forall c v, disabled1 !! c = Some v <-> disabled !! c = Some v /\ named c) /\
          logs1 ≡ₚ map (disabled_logged target "unsupported syscall: %v: %v")
                     (map_to_list disabled1) /\
          let answered :=
            o (S (S (n + length logs1))) _ (TransitivelyEnabledCalls target calls1) in
          logs2 ≡ₚ map (disabled_logged target "transitively unsupported: %v: %v")
                     (map_to_list answered.2) /\
          run_code o n (buildCallList B fl target enabled) =
            ([Ev (DetectSupportedSyscalls target "none") (Ok (calls, disabled));
              Ev (ParseEnabledSyscalls target enabled []) (Ok ids)] ++
             logs1 ++
             [Ev (TransitivelyEnabledCalls target calls1) answered] ++
             logs2,
             Returned answered.1))).
Proof.
  intros Hos enabled tr.
  assert (Hlen : (len enabled =? 0) = false).
  { apply Z.eqb_neq. unfold len. pose proof (Split_length (flagSyscalls fl) comma).
    fold enabled in H. lia. }
  assert (Hne : enabled <> []) by (by intros E; rewrite E in Hlen).
  split; [done|]. split; [done|].
  assert (Hpath : forall calls disabled ids,
            o n _ (DetectSupportedSyscalls target "none") = Ok (calls, disabled) ->
            o (S n) _ (ParseEnabledSyscalls target enabled []) = Ok ids ->
            valid_ids target ids -> _)
    by (intros calls disabled ids Hd Hp Hv;
        exact (buildCallList_same_os_run B fl target enabled o n calls disabled ids
                 Hos Hne Hd Hp Hv)).
  subst tr. unfold buildCallList. rewrite Hos, String.eqb_refl. cbn.
  split; [done|].
  intros calls disabled Hd. split; [|split].
  - rewrite Hd, Hlen. cbn. done.
  - rewrite Hd, Hlen. cbn. intros Hempty. subst enabled. rewrite Hempty. done.
  - intros ids Hp Hv. specialize (Hpath calls disabled ids Hd Hp Hv).
    unfold buildCallList in Hpath. rewrite Hos, String.eqb_refl in Hpath. exact Hpath.
Qed.

Lemma buildCallList_always_resolves_allow_list_witness :
  (run_code (fun _ => answer quiet_world) 0
     (buildCallList linux_build logprog_flags empty_target
        (Split (flagSyscalls logprog_flags) comma))).1 !! 1%nat
  = Some (Ev (ParseEnabledSyscalls empty_target [""] []) (Ok [])).
Proof.
  destruct (buildCallList_always_resolves_allow_list linux_build logprog_flags empty_target
              (fun _ => answer quiet_world) 0 eq_refl) as (_ & _ & _ & H).
  destruct (H ∅ ∅ eq_refl) as (_ & H2 & _).
  exact (H2 eq_refl).
Defined.

(** ** The worker loop *)


(** A program the iteration obtained from the generator or by [Clone]. *)
Definition produced (e : event) : option loc :=
  match e with
  | Ev op x =>
      match op in Op X return X -> option loc with
      | Generate _ _ _ _ => fun x => Some x
      | Clone _ => fun x => Some x
      | _ => fun _ => None
      end x
  | _ => None
  end.

Lemma wrap64_mod z : wrap64 z mod 2 ^ 64 = z mod 2 ^ 64.
Proof.
  unfold wrap64.
  rewrite <- Zminus_mod_idemp_l, Z.mod_mod by lia.
  rewrite Zminus_mod_idemp_l. f_equal. lia.
Qed.







Section WorkerBody.

Variable fl : CmdLine.
Variables (sh : Shared) (pid : Z) (w : WorkerLocals).

Let target := sh_target sh.
Let corpus := sh_corpus sh.
Let ct := sh_ct sh.
Let execOpts := sh_execOpts sh.

(** What the generate branch does. *)
Lemma generate_branch_events (o : oracle) (k : nat) (i : Z) :
  takes_generate fl corpus i = true ->
  let p := o k _ (Generate target (w_rs w) 30 ct) in
  run_code o k (worker_body fl sh pid w i) =
    ([Ev (Generate target (w_rs w) 30 ct) p;
      Ev (CallExecute pid (w_env w) execOpts p) tt;
      Ev (Mutate p (w_rs w) 30 ct corpus) tt;
      Ev (CallExecute pid (w_env w) execOpts p) tt], Returned tt).
Proof.
  intros Hg p. unfold worker_body. fold corpus. rewrite Hg. cbn.
  repeat match goal with |- context [o ?n unit ?op] => destruct (o n unit op) end.
  done.
Qed.

(** What the mutate branch does: it picks a corpus entry, clones it
    and works on the clone; it never asks the generator. *)
Lemma mutate_branch_events (o : oracle) (k : nat) (i : Z) :
  takes_generate fl corpus i = false ->
  let n := o k _ (Intn (w_rnd w) (len corpus)) in
  let tr := (run_code o k (worker_body fl sh pid w i)).1 in
  tr !! 0%nat = Some (Ev (Intn (w_rnd w) (len corpus)) n) /\
  count (holds op_generate) tr = 0%nat /\
  forall e, 0 <= n -> corpus !! Z.to_nat n = Some e ->
    let p := o (S k) _ (Clone e) in
    run_code o k (worker_body fl sh pid w i) =
      ([Ev (Intn (w_rnd w) (len corpus)) n;
        Ev (Clone e) p;
        Ev (Mutate p (w_rs w) 30 ct corpus) tt;
        Ev (CallExecute pid (w_env w) execOpts p) tt;
        Ev (Mutate p (w_rs w) 30 ct corpus) tt;
        Ev (CallExecute pid (w_env w) execOpts p) tt], Returned tt).
Proof.
  intros Hg n tr. subst tr. unfold worker_body. fold corpus. rewrite Hg. cbn.
  fold n. unfold index.
  split; [done|]. split.
  - destruct (n <? 0); [done|]. destruct (corpus !! Z.to_nat n); done.
  - intros e Hn He. destruct (Z.ltb_spec n 0); [lia|]. rewrite He. cbn.
    repeat match goal with |- context [o ?n unit ?op] => destruct (o n unit op) end.
    done.
Qed.

(** Every [Mutate] of an iteration is applied to the program that the
    iteration itself obtained before, from the generator or by
    [Clone]. *)
Lemma mutate_receiver_produced (o : oracle) (k : nat) (i : Z) (j : nat) e p :
  (run_code o k (worker_body fl sh pid w i)).1 !! j = Some e ->
  mutate_receiver e = Some p ->
  exists j' e',
    (j' < j)%nat /\
    (run_code o k (worker_body fl sh pid w i)).1 !! j' = Some e' /\
    produced e' = Some p.
Proof.
  destruct (takes_generate fl corpus i) eqn:Hg.
  - rewrite (generate_branch_events o k i Hg). simpl.
    destruct j as [|[|[|[|[|j]]]]]; simpl; intros [= <-]; simpl; try done.
    intros [= <-]. exists 0%nat. eexists. split; [lia|]. split; [reflexivity|]. done.
  - unfold worker_body. fold corpus. rewrite Hg. cbn. unfold index.
    destruct (_ <? 0).
    { destruct j as [|[|j]]; simpl; intros [= <-]; done. }
    destruct (corpus !! _) as [e0|].
    2:{ destruct j as [|[|j]]; simpl; intros [= <-]; done. }
    cbn.
    destruct j as [|[|[|[|[|[|j]]]]]]; simpl; intros [= <-]; simpl; try done;
      intros [= <-]; exists 1%nat; eexists; (split; [lia|]); (split; [reflexivity|]); done.
Qed.

End WorkerBody.



(** ** The steps of the process *)

Lemma effect_exited {X : Type} d (op : Op X) x s : exited (effect d op x s) = exited s.
Proof. destruct op; simpl; try done; by repeat case_match. Qed.

Lemma effect_trace {X : Type} d (op : Op X) x s : trace (effect d op x s) = trace s.
Proof. destruct op; simpl; try done; by repeat case_match. Qed.

(** The goroutines an operation starts. *)
Definition spawned {X : Type} (op : Op X) : list thread :=
  match op with
  | GoWorker pid sh => [new_worker pid sh]
  | _ => []
  end.

Lemma effect_threads {X : Type} d (op : Op X) x s :
  threads (effect d op x s) = threads s ++ spawned op.
Proof. destruct op; simpl; rewrite ?app_nil_r; try done; by repeat case_match. Qed.

(** The ways a step can go. *)
Inductive step_spec (fl : CmdLine) (s : state) (ch : choice) : state -> Prop :=
| step_return t r :
    threads s !! ch_tid ch = Some t ->
    act_code (activation_of fl t) = Ret r ->
    step_spec fl s ch (set_thread (ch_tid ch) (act_returned (activation_of fl t) r) s)
| step_fatal t fmt args :
    threads s !! ch_tid ch = Some t ->
    act_code (activation_of fl t) = Fatalf fmt args ->
    step_spec fl s ch (set_exited true (log (ch_tid ch) (EvFatal fmt args) s))
| step_panic t msg :
    threads s !! ch_tid ch = Some t ->
    act_code (activation_of fl t) = Panic msg ->
    step_spec fl s ch (crash (ch_tid ch) msg s)
| step_fault t X (op : Op X) k x msg :
    threads s !! ch_tid ch = Some t ->
    act_code (activation_of fl t) = Do op k ->
    resolve s op (ch_ans ch X op) = Some x ->
    blocked op s = false ->
    fault op s = Some msg ->
    step_spec fl s ch (crash (ch_tid ch) msg s)
| step_op t X (op : Op X) k x :
    threads s !! ch_tid ch = Some t ->
    act_code (activation_of fl t) = Do op k ->
    resolve s op (ch_ans ch X op) = Some x ->
    blocked op s = false ->
    fault op s = None ->
    step_spec fl s ch
      (set_thread (ch_tid ch) (act_moved (activation_of fl t) (k x) (call_of fl op))
         (log (ch_tid ch) (Ev op x) (effect (ch_data ch) op x s))).

Lemma step_inv fl s ch s' :
  step fl s ch = Some s' -> exited s = false /\ step_spec fl s ch s'.
Proof.
  unfold step. destruct (exited s) eqn:Hex; [done|].
  destruct (threads s !! ch_tid ch) as [t|] eqn:Ht; [|done]. simpl.
  destruct (act_code (activation_of fl t)) as [r|fmt args|msg|X op k] eqn:Hc.
  - intros [= <-]. split; [done|]. by eapply step_return.
  - intros [= <-]. split; [done|]. by eapply step_fatal.
  - intros [= <-]. split; [done|]. by eapply step_panic.
  - destruct (resolve s op (ch_ans ch X op)) as [x|] eqn:Hx; [|done]. simpl.
    unfold apply_op. destruct (blocked op s) eqn:Hb; [done|].
    destruct (fault op s) as [msg|] eqn:Hf; simpl.
    + intros [= <-]. split; [done|]. by eapply step_fault.
    + rewrite effect_exited, Hex. intros [= <-]. split; [done|]. by eapply step_op.
Qed.

(** A step that is possible is taken. *)
Lemma step_spec_step fl s ch s' :
  exited s = false -> step_spec fl s ch s' -> step fl s ch = Some s'.
Proof.
  intros Hex H. unfold step. rewrite Hex.
  destruct H as [t r Ht Hc|t fmt args Ht Hc|t msg Ht Hc|t X op k x msg Ht Hc Hx Hb Hf
                |t X op k x Ht Hc Hx Hb Hf]; rewrite Ht; simpl; rewrite Hc; try done.
  - rewrite Hx. simpl. unfold apply_op. by rewrite Hb, Hf.
  - rewrite Hx. simpl. unfold apply_op. rewrite Hb, Hf. simpl.
    by rewrite effect_exited, Hex.
Qed.

Lemma run_reachable B fl chs : forall s s',
  reachable B fl s -> run fl s chs = Some s' -> reachable B fl s'.
Proof.
  induction chs as [|ch chs IH]; intros s s' Hs; simpl.
  - by intros [= <-].
  - destruct (step fl s ch) as [s1|] eqn:H1; [|done]. simpl.
    apply IH. by eapply reach_step.
Qed.

(** A schedule that can be run to its end leads to a reachable state. *)
Lemma run_default_reachable B fl chs :
  is_Some (run fl (init B fl) chs) ->
  reachable B fl (default (init B fl) (run fl (init B fl) chs)).
Proof.
  intros [s Hs]. rewrite Hs. simpl.
  eapply run_reachable; [apply reach_init|exact Hs].
Qed.

Definition runs (fl : CmdLine) (s : state) (chs : list choice) : bool :=
  bool_decide (is_Some (run fl s chs)).

Lemma runs_reachable B fl chs :
  runs fl (init B fl) chs = true ->
  reachable B fl (default (init B fl) (run fl (init B fl) chs)).
Proof. intros H. apply run_default_reachable. by apply bool_decide_eq_true in H. Qed.

(** Once the process has exited nothing moves. *)
Lemma exited_stuck fl s ch : exited s = true -> step fl s ch = None.
Proof. intros H. unfold step. by rewrite H. Qed.

(** ** What code can do *)

(** Every operation the code can perform satisfies [Φ]. *)
Fixpoint all_ops (Φ : forall X : Type, Op X -> Prop) {A : Type} (c : code A) : Prop :=
  match c with
  | Do op k => Φ _ op /\ forall x, all_ops Φ (k x)
  | _ => True
  end.

Lemma all_ops_bind Φ {A B : Type} (c : code A) (f : A -> code B) :
  all_ops Φ c -> (forall a, all_ops Φ (f a)) -> all_ops Φ (bind c f).
Proof.
  intros Hc Hf. induction c as [a|fmt args|msg|X op k IH]; simpl in *; try done.
  destruct Hc as [Hop Hk]. split; [done|]. intros x. by apply IH.
Qed.

Lemma all_ops_mono (Φ Ψ : forall X : Type, Op X -> Prop) {A : Type} (c : code A) :
  (forall X (op : Op X), Φ X op -> Ψ X op) -> all_ops Φ c -> all_ops Ψ c.
Proof.
  intros HΦ. induction c as [a|fmt args|msg|X op k IH]; simpl; try done.
  intros [Hop Hk]. split; [by apply HΦ|]. intros x. by apply IH.
Qed.

Definition weight (P : opclass) {X : Type} (op : Op X) : nat := if P X op then 1 else 0.

(** On every path the code performs at most [hi] operations of class
    [P], and at least [lo] of them before it returns. *)
Fixpoint ahead (P : opclass) {A : Type} (c : code A) (lo hi : nat) : Prop :=
  match c with
  | Ret _ => lo = O
  | Fatalf _ _ | Panic _ => True
  | Do op k =>
      exists lo' hi', (lo <= weight P op + lo')%nat /\ (weight P op + hi' <= hi)%nat /\
                      forall x, ahead P (k x) lo' hi'
  end.

Lemma ahead_weaken P {A : Type} (c : code A) : forall lo hi lo' hi',
  ahead P c lo hi -> (lo' <= lo)%nat -> (hi <= hi')%nat -> ahead P c lo' hi'.
Proof.
  induction c as [a|fmt args|msg|X op k IH]; simpl; intros lo hi lo' hi' H Hlo Hhi;
    try done; try lia.
  destruct H as (l & h & Hl & Hh & Hk). exists l, h. repeat split; [lia|lia|done].
Qed.

Lemma ahead_bind P {A B : Type} (c : code A) (f : A -> code B) : forall l1 h1 l2 h2,
  ahead P c l1 h1 -> (forall a, ahead P (f a) l2 h2) ->
  ahead P (bind c f) (l1 + l2) (h1 + h2).
Proof.
  induction c as [a|fmt args|msg|X op k IH]; simpl; intros l1 h1 l2 h2 Hc Hf; try done.
  - eapply ahead_weaken; [apply Hf|lia|lia].
  - destruct Hc as (l & h & Hl & Hh & Hk). exists (l + l2)%nat, (h + h2)%nat.
    repeat split; [lia|lia|]. intros x. by apply IH.
Qed.

(** Code that performs no operation of class [P]. *)
Lemma ahead_free P {A : Type} (c : code A) :
  all_ops (fun X op => P X op = false) c -> ahead P c 0 0.
Proof.
  induction c as [a|fmt args|msg|X op k IH]; simpl; try done.
  intros [Hop Hk]. exists 0%nat, 0%nat. unfold weight. rewrite Hop.
  repeat split; [lia|lia|]. intros x. by apply IH.
Qed.

Lemma ahead_bind_free P {A B : Type} (c : code A) (f : A -> code B) lo hi :
  all_ops (fun X op => P X op = false) c -> (forall a, ahead P (f a) lo hi) ->
  ahead P (bind c f) lo hi.
Proof. intros Hc Hf. apply (ahead_bind P c f 0 0 lo hi); [by apply ahead_free|done]. Qed.

(** What a run of the code alone shows of these bounds. *)
Lemma ahead_run P {A : Type} (c : code A) (o : oracle) : forall n lo hi,
  ahead P c lo hi ->
  (count (holds P) (run_code o n c).1 <= hi)%nat /\
  (forall a, (run_code o n c).2 = Returned a -> (lo <= count (holds P) (run_code o n c).1)%nat).
Proof.
  induction c as [a|fmt args|msg|X op k IH]; simpl; intros n lo hi Hc.
  - split; [lia|]. intros; lia.
  - split; [lia|]. done.
  - split; [lia|]. done.
  - destruct Hc as (l & h & Hl & Hh & Hk).
    destruct (IH (o n X op) (S n) l h (Hk _)) as [Hhi Hlo]. fold (weight P op).
    split; [lia|]. intros a Ha. specialize (Hlo a Ha). lia.
Qed.

(** ** The operations each function performs *)

(** The operations of start-up; the gate is built with capacity [C]. *)
Definition startup_op (C : Z) (X : Type) (op : Op X) : Prop :=
  match op with
  | ParseFeaturesFlags _ _ _ | GetTarget _ _ | dbOpen _ | Deserialize _ _ _
  | Logf _ _ _ | hostCheck _ | hostSetup _ _ | DetectSupportedSyscalls _ _
  | ParseEnabledSyscalls _ _ _ | TransitivelyEnabledCalls _ _
  | CalculatePriorities _ _ | BuildChoiceTable _ _ _ | ipcconfigDefault _
  | GoWorker _ _ | NewTicker _ => True
  | NewGate c => c = C
  | _ => False
  end.

(** The operations of the ticker loop. *)
Definition reporter_op (X : Type) (op : Op X) : Prop :=
  match op with
  | TickerRecv | AtomicLoadStatExec | Logf _ _ _ => True
  | _ => False
  end.

(** The operations of a worker outside [execute]. *)
Definition worker_op (X : Type) (op : Op X) : Prop :=
  match op with
  | MakeEnv _ _ | UnixNano | NewSource _ | randNew _ | Generate _ _ _ _
  | Mutate _ _ _ _ _ | Intn _ _ | Clone _ | CallExecute _ _ _ _ => True
  | _ => False
  end.

(** The operations of [execute]; the counter is only ever incremented by
    one. *)
Definition execute_op (X : Type) (op : Op X) : Prop :=
  match op with
  | AtomicAddStatExec delta => delta = 1
  | GateEnter | GateLeave _ | outMuLock | outMuUnlock | Serialize _ | Printf _ _
  | EnvExec _ _ _ | StdoutWrite _ => True
  | _ => False
  end.

(** The operations of the whole driver. *)
Definition driver_op (C : Z) (X : Type) (op : Op X) : Prop :=
  startup_op C X op \/ reporter_op X op \/ worker_op X op \/ execute_op X op.

Ltac walk_ops :=
  repeat first
    [ progress simpl
    | rewrite mbind_bind
    | match goal with
      | |- _ /\ _ => split
      | |- forall _, _ => intros ?
      | |- True => exact I
      | |- ?x = ?x => reflexivity
      | |- all_ops _ (if ?b then _ else _) => destruct b
      | |- all_ops _ (match ?x with _ => _ end) => destruct x
      | |- all_ops _ (bind (if ?b then _ else _) _) => destruct b
      | |- all_ops _ (bind (match ?x with _ => _ end) _) => destruct x
      | |- all_ops _ (bind _ _) => apply all_ops_bind
      end ].

Lemma index_ops Φ {A : Type} (l : list A) i : all_ops Φ (index l i).
Proof. unfold index. walk_ops. Qed.

Section Footprints.

Variable B : Build.
Variable fl : CmdLine.

Lemma execute_ops pid env opts p : all_ops execute_op (execute fl pid env opts p).
Proof. unfold execute, when, perform. walk_ops. Qed.

Lemma reporter_ops : all_ops reporter_op reporter_body.
Proof. unfold reporter_body, perform. walk_ops. Qed.

Lemma worker_prologue_ops sh pid : all_ops worker_op (worker_prologue sh pid).
Proof. unfold worker_prologue, perform. walk_ops. Qed.

Lemma worker_body_ops sh pid w i : all_ops worker_op (worker_body fl sh pid w i).
Proof. unfold worker_body, perform. walk_ops; auto using index_ops. Qed.

Lemma readCorpus_records_ops (Φ : forall X : Type, Op X -> Prop) target recs : forall progs,
  (forall data, Φ _ (Deserialize target data NonStrict)) ->
  all_ops Φ (readCorpus_records target recs progs).
Proof.
  induction recs as [|rec recs IH]; intros progs HΦ; unfold perform; walk_ops; auto.
Qed.

Lemma mark_enabled_ops (Φ : forall X : Type, Op X -> Prop) target ids : forall m, all_ops Φ (mark_enabled target ids m).
Proof.
  induction ids as [|id ids IH]; intros m; walk_ops; auto using index_ops.
Qed.

Lemma log_disabled_ops (Φ : forall X : Type, Op X -> Prop) target fmt ds :
  (forall args, Φ _ (Logf 0 fmt args)) ->
  all_ops Φ (log_disabled target fmt ds).
Proof.
  intros HΦ. induction ds as [|[c reason] ds IH]; unfold perform; walk_ops; auto.
Qed.

Lemma spawn_ops (Φ : forall X : Type, Op X -> Prop) n : forall pid sh,
  (forall pid, Φ _ (GoWorker pid sh)) ->
  all_ops Φ (spawn n pid sh).
Proof.
  induction n as [|n IH]; intros pid sh HΦ; unfold perform; walk_ops; auto.
Qed.

Lemma main_ops : all_ops (startup_op (wrap64 (2 * flagProcs fl))) (main B fl).
Proof.
  unfold main, readCorpus, buildCallList, perform.
  walk_ops;
    first [ apply readCorpus_records_ops | apply mark_enabled_ops
          | apply log_disabled_ops | apply spawn_ops ]; done.
Qed.

End Footprints.

(** ** Invariants of the process *)

(** The code of the function a goroutine started with. *)
Definition base_holds (Q : forall A : Type, code A -> Prop) (b : base) : Prop :=
  match b with
  | BMain c => Q _ c
  | BReporter c => Q _ c
  | BInit _ _ c => Q _ c
  | BLoop _ _ _ _ c => Q _ c
  end.

(** The number of events of class [P] the process has performed. *)
Definition tcount (P : opclass) (s : state) : nat := count (holds P) (trace s).*2.

Lemma count_snoc P (tr : list (nat * event)) tid e :
  count P (tr ++ [(tid, e)]).*2 = (count P tr.*2 + (if P e then 1 else 0))%nat.
Proof. rewrite fmap_app, count_app. simpl. lia. Qed.

Section AllOps.

Variable B : Build.
Variable fl : CmdLine.
Variable Φ : forall X : Type, Op X -> Prop.

Hypothesis main_Φ : all_ops Φ (main B fl).
Hypothesis reporter_Φ : all_ops Φ reporter_body.
Hypothesis prologue_Φ : forall sh pid, all_ops Φ (worker_prologue sh pid).
Hypothesis body_Φ : forall sh pid w i, all_ops Φ (worker_body fl sh pid w i).
Hypothesis execute_Φ : forall pid env opts p, all_ops Φ (execute fl pid env opts p).

Definition thread_all (t : thread) : Prop :=
  Forall (all_ops Φ) (frames t) /\ base_holds (fun A c => all_ops Φ c) (t_base t).

Definition event_all (te : nat * event) : Prop :=
  match te.2 with
  | Ev op _ => Φ _ op
  | _ => True
  end.

Lemma thread_all_returned t r :
  thread_all t ->
  act_code (activation_of fl t) = Ret r ->
  thread_all (act_returned (activation_of fl t) r).
Proof using reporter_Φ body_Φ.
  destruct t as [[|f fs] b]; [destruct b|]; simpl; intros [Hf Hb] Hc; split; simpl;
    try done; try apply body_Φ.
  by inversion Hf.
Qed.

Lemma call_of_all {X : Type} (op : Op X) : Forall (all_ops Φ) (call_of fl op).
Proof using execute_Φ. destruct op; simpl; try done. by constructor. Qed.

Lemma thread_all_moved t X (op : Op X) k :
  thread_all t ->
  act_code (activation_of fl t) = Do op k ->
  Φ _ op /\ forall x, thread_all (act_moved (activation_of fl t) (k x) (call_of fl op)).
Proof using execute_Φ.
  destruct t as [[|f fs] b]; [destruct b|]; simpl; intros [Hf Hb] Hc; simpl in *; subst.
  1-4: destruct Hb as [Hop Hk]; split; [done|]; intros x; split; simpl;
    [apply call_of_all|apply Hk].
  inversion Hf as [|? ? Hd Hfs]; subst. simpl in Hd. destruct Hd as [Hop Hk].
  split; [done|]. intros x. split; [|done].
  simpl. apply Forall_app. split; [apply call_of_all|]. constructor; [apply Hk|done].
Qed.

Lemma spawned_all {X : Type} (op : Op X) : Forall thread_all (spawned op).
Proof using prologue_Φ.
  destruct op; simpl; try done. constructor; [|done]. split; simpl; [done|apply prologue_Φ].
Qed.

(** In every state the process can reach, all code that remains to be
    run performs only operations in [Φ], and so did all code that has
    run. *)
Lemma reachable_all_ops s :
  reachable B fl s -> Forall thread_all (threads s) /\ Forall event_all (trace s).
Proof using All.
  induction 1 as [|s ch s' Hr [IHt IHe] Hstep].
  - split; [|done]. constructor; [|done]. split; simpl; [done|apply main_Φ].
  - apply step_inv in Hstep as [Hex Hstep].
    destruct Hstep as [t r Ht Hc|t fmt args Ht Hc|t msg Ht Hc|t X op k x msg Ht Hc Hx Hb Hf
                      |t X op k x Ht Hc Hx Hb Hf]; simpl.
    + split; [|done]. apply Forall_insert; [done|].
      apply thread_all_returned; [|done]. by eapply Forall_lookup_1.
    + split; [done|]. apply Forall_app. by split; [|constructor].
    + split; [done|]. apply Forall_app. by split; [|constructor].
    + split; [done|]. apply Forall_app. by split; [|constructor].
    + assert (Ht' : thread_all t) by (by eapply Forall_lookup_1).
      destruct (thread_all_moved t X op k Ht' Hc) as [Hop Hk].
      rewrite effect_threads, effect_trace. split.
      * apply Forall_insert; [|apply Hk]. apply Forall_app. split; [done|apply spawned_all].
      * apply Forall_app. split; [done|]. by constructor.
Qed.

End AllOps.

Section Counting.

Variable B : Build.
Variable fl : CmdLine.
Variable P : opclass.
Variables ne_lo ne_hi n0 : nat.

Hypothesis call_not_P : forall pid env opts p, P _ (CallExecute pid env opts p) = false.
Hypothesis main_P : ahead P (main B fl) 0 n0.
Hypothesis reporter_P : ahead P reporter_body 0 0.
Hypothesis prologue_P : forall sh pid, ahead P (worker_prologue sh pid) 0 0.
Hypothesis body_P : forall sh pid w i, ahead P (worker_body fl sh pid w i) 0 0.
Hypothesis execute_P : forall pid env opts p, ahead P (execute fl pid env opts p) ne_lo ne_hi.

(** The calls to [execute] a goroutine is inside of still perform at
    least [lo] and at most [hi] operations of class [P]. *)
Fixpoint frames_ahead (fs : list (code unit)) (lo hi : nat) : Prop :=
  match fs with
  | [] => lo = O
  | f :: fs' =>
      exists l1 h1 l2 h2,
        ahead P f l1 h1 /\ frames_ahead fs' l2 h2 /\
        (lo <= l1 + l2)%nat /\ (h1 + h2 <= hi)%nat
  end.

Definition thread_ahead (t : thread) (lo hi : nat) : Prop :=
  exists hf hb,
    frames_ahead (frames t) lo hf /\
    base_holds (fun A c => ahead P c 0 hb) (t_base t) /\
    (hf + hb <= hi)%nat.

Fixpoint threads_ahead (ts : list thread) (lo hi : nat) : Prop :=
  match ts with
  | [] => lo = O
  | t :: ts' =>
      exists l1 h1 l2 h2,
        thread_ahead t l1 h1 /\ threads_ahead ts' l2 h2 /\
        (lo <= l1 + l2)%nat /\ (h1 + h2 <= hi)%nat
  end.

Lemma frames_ahead_weaken fs lo hi lo' hi' :
  frames_ahead fs lo hi -> (lo' <= lo)%nat -> (hi <= hi')%nat -> frames_ahead fs lo' hi'.
Proof.
  destruct fs as [|f fs]; simpl; [lia|].
  intros (l1 & h1 & l2 & h2 & Hf & Hfs & Hl & Hh) Hlo Hhi.
  exists l1, h1, l2, h2. repeat split; try done; lia.
Qed.

Lemma thread_ahead_weaken t lo hi lo' hi' :
  thread_ahead t lo hi -> (lo' <= lo)%nat -> (hi <= hi')%nat -> thread_ahead t lo' hi'.
Proof.
  intros (hf & hb & Hf & Hb & Hh) Hlo Hhi. exists hf, hb.
  split; [by eapply frames_ahead_weaken|]. split; [done|lia].
Qed.

Lemma threads_ahead_weaken ts lo hi lo' hi' :
  threads_ahead ts lo hi -> (lo' <= lo)%nat -> (hi <= hi')%nat -> threads_ahead ts lo' hi'.
Proof.
  destruct ts as [|t ts]; simpl; [lia|].
  intros (l1 & h1 & l2 & h2 & Ht & Hts & Hl & Hh) Hlo Hhi.
  exists l1, h1, l2, h2. repeat split; try done; lia.
Qed.

(** A goroutine that returns from a function. *)
Lemma thread_ahead_returned t r lo hi :
  thread_ahead t lo hi ->
  act_code (activation_of fl t) = Ret r ->
  thread_ahead (act_returned (activation_of fl t) r) lo hi.
Proof using reporter_P body_P.
  destruct t as [[|f fs] b]; [destruct b|]; simpl;
    intros (hf & hb & Hf & Hb & Hh) Hc; simpl in *; subst.
  1-4: exists 0%nat, 0%nat; simpl; repeat split; try done; try lia; apply body_P.
  destruct Hf as (l1 & h1 & l2 & h2 & Hf & Hfs & Hl & Hh'). simpl in Hf. subst l1.
  exists hf, hb. simpl. split; [|done]. eapply frames_ahead_weaken; [done|lia|lia].
Qed.

Lemma call_of_cases {X : Type} (op : Op X) :
  (call_of fl op = [] /\ weight op_call_execute op = O) \/
  (exists pid env opts p,
     call_of fl op = [execute fl pid env opts p] /\
     weight op_call_execute op = 1%nat /\ weight P op = O).
Proof using call_not_P.
  destruct op; try (left; done). right. do 4 eexists. unfold weight.
  by rewrite call_not_P.
Qed.

(** A goroutine that performs an operation. *)
Lemma thread_ahead_moved t X (op : Op X) k lo hi :
  thread_ahead t lo hi ->
  act_code (activation_of fl t) = Do op k ->
  exists lo' hi',
    (forall x, thread_ahead (act_moved (activation_of fl t) (k x) (call_of fl op)) lo' hi') /\
    (lo + weight op_call_execute op * ne_lo <= weight P op + lo')%nat /\
    (weight P op + hi' <= hi + weight op_call_execute op * ne_hi)%nat.
Proof using call_not_P execute_P.
  intros Ht Hc.
  assert (Hbase : forall A (c : code A) (k' : X -> code A) hb,
             c = Do op k' -> ahead P c 0 hb ->
             exists h', (weight P op + h' <= hb)%nat /\ forall x, ahead P (k' x) 0 h').
  { intros A c k' hb -> (l' & h' & _ & Hh & Hk). exists h'. split; [done|].
    intros x. eapply ahead_weaken; [apply Hk|lia|lia]. }
  destruct t as [[|f fs] b]; simpl in *.
  - destruct Ht as (hf & hb & Hf & Hb & Hh). simpl in Hf. subst lo.
    assert (exists h', (weight P op + h' <= hb)%nat /\
              forall x c', c' = call_of fl op ->
                base_holds (fun A c => ahead P c 0 h')
                  (t_base (act_moved (activation_of fl {| frames := []; t_base := b |})
                             (k x) c'))) as (h' & Hh' & Hk).
    { destruct b; simpl in *; destruct (Hbase _ _ _ _ Hc Hb) as (h' & ? & ?);
        exists h'; (split; [done|]); intros x c' _; simpl; done. }
    destruct (call_of_cases op) as [[Hcall Hw]|(pid & env & opts & p & Hcall & Hw & HwP)].
    + exists 0%nat, h'. rewrite Hw. split; [|lia].
      intros x. exists 0%nat, h'. split; [|split; [by apply Hk|lia]].
      destruct b; simpl; by rewrite Hcall.
    + exists ne_lo, (ne_hi + h')%nat. rewrite Hw, HwP. split; [|lia].
      intros x. exists ne_hi, h'. split; [|split; [by apply Hk|lia]].
      destruct b; simpl; rewrite Hcall; simpl;
        exists ne_lo, ne_hi, 0%nat, 0%nat; repeat split; try lia; apply execute_P.
  - destruct Ht as (hf & hb & Hf & Hb & Hh). simpl in Hf, Hb.
    destruct Hf as (l1 & h1 & l2 & h2 & Hf & Hfs & Hl & Hh1). subst f.
    destruct Hf as (l1' & h1' & Hl1 & Hh1' & Hk).
    destruct (call_of_cases op) as [[Hcall Hw]|(pid & env & opts & p & Hcall & Hw & HwP)].
    + exists (l1' + l2)%nat, (h1' + h2 + hb)%nat. rewrite Hw. split; [|lia].
      intros x. exists (h1' + h2)%nat, hb. simpl. rewrite Hcall. simpl.
      split; [|split; [done|lia]].
      exists l1', h1', l2, h2. repeat split; try done; lia.
    + exists (ne_lo + (l1' + l2))%nat, (ne_hi + (h1' + h2) + hb)%nat. rewrite Hw, HwP.
      split; [|lia].
      intros x. exists (ne_hi + (h1' + h2))%nat, hb. simpl. rewrite Hcall. simpl.
      split; [|split; [done|lia]].
      exists ne_lo, ne_hi, (l1' + l2)%nat, (h1' + h2)%nat.
      split; [apply execute_P|]. split; [|lia].
      exists l1', h1', l2, h2. repeat split; try done; lia.
Qed.

(** One goroutine among the others. *)
Lemma threads_ahead_focus ts : forall tid t L H,
  threads_ahead ts L H ->
  ts !! tid = Some t ->
  exists l h Lr Hr,
    thread_ahead t l h /\ (L <= l + Lr)%nat /\ (h + Hr <= H)%nat /\
    forall t' l' h', thread_ahead t' l' h' ->
      threads_ahead (<[tid := t']> ts) (l' + Lr) (h' + Hr).
Proof.
  induction ts as [|t0 ts IH]; intros tid t L H Hts Hl; [done|].
  simpl in Hts. destruct Hts as (l1 & h1 & l2 & h2 & Ht0 & Hts & HL & HH).
  destruct tid as [|tid]; simpl in Hl.
  - injection Hl as ->. exists l1, h1, l2, h2. repeat split; try done.
    intros t' l' h' Ht'. simpl. exists l', h', l2, h2. repeat split; try done.
  - destruct (IH tid t l2 h2 Hts Hl) as (l & h & Lr & Hr & Ht & HLr & HHr & Hupd).
    exists l, h, (l1 + Lr)%nat, (h1 + Hr)%nat. repeat split; try done; try lia.
    intros t' l' h' Ht'. simpl. exists l1, h1, (l' + Lr)%nat, (h' + Hr)%nat.
    repeat split; try done; try lia. by apply Hupd.
Qed.

Lemma threads_ahead_spawned ts {X : Type} (op : Op X) : forall L H,
  threads_ahead ts L H -> threads_ahead (ts ++ spawned op) L H.
Proof using prologue_P.
  induction ts as [|t ts IH]; intros L H Hts; simpl in *.
  - subst L. destruct op; simpl; try done.
    exists 0%nat, 0%nat, 0%nat, 0%nat. split; [|repeat split; lia].
    exists 0%nat, 0%nat. simpl. split; [done|]. split; [apply prologue_P|lia].
  - destruct Hts as (l1 & h1 & l2 & h2 & Ht & Hts & HL & HH).
    exists l1, h1, l2, h2. repeat split; try done. by apply IH.
Qed.

(** The counting invariant: the operations of class [P] performed so
    far, with those the calls in progress still perform, account for
    [ne_lo] to [ne_hi] per call of [execute], and for at most [n0]
    more. *)
Lemma reachable_counts s :
  reachable B fl s ->
  exists lo hi,
    threads_ahead (threads s) lo hi /\
    (tcount op_call_execute s * ne_lo <= tcount P s + lo)%nat /\
    (tcount P s + hi <= n0 + tcount op_call_execute s * ne_hi)%nat.
Proof using All.
  induction 1 as [|s ch s' Hr (lo & hi & Hts & Hlo & Hhi) Hstep].
  - exists 0%nat, n0. simpl. split; [|unfold tcount; simpl; lia].
    exists 0%nat, n0, 0%nat, 0%nat. split; [|repeat split; lia].
    exists 0%nat, n0. simpl. split; [done|]. split; [done|lia].
  - apply step_inv in Hstep as [Hex Hstep]. unfold tcount in *.
    destruct Hstep as [t r Ht Hc|t fmt args Ht Hc|t msg Ht Hc|t X op k x msg Ht Hc Hx Hb Hf
                      |t X op k x Ht Hc Hx Hb Hf]; simpl.
    + destruct (threads_ahead_focus _ _ _ _ _ Hts Ht) as (l & h & Lr & Hr' & Hth & HL & HH & Hupd).
      exists (l + Lr)%nat, (h + Hr')%nat. split; [|lia].
      apply Hupd. by apply thread_ahead_returned.
    + exists lo, hi. rewrite !count_snoc. simpl. split; [done|lia].
    + exists lo, hi. rewrite !count_snoc. simpl. split; [done|lia].
    + exists lo, hi. rewrite !count_snoc. simpl. split; [done|lia].
    + rewrite effect_threads, effect_trace, !count_snoc. simpl.
      fold (weight P op). fold (weight op_call_execute op).
      pose proof (threads_ahead_spawned _ op _ _ Hts) as Hts'.
      assert (Ht' : (threads s ++ spawned op) !! ch_tid ch = Some t)
        by (by apply lookup_app_l_Some).
      destruct (threads_ahead_focus _ _ _ _ _ Hts' Ht') as (l & h & Lr & Hr' & Hth & HL & HH & Hupd).
      destruct (thread_ahead_moved t X op k l h Hth Hc) as (l' & h' & Hmv & Hl' & Hh').
      exists (l' + Lr)%nat, (h' + Hr')%nat. split; [apply Hupd, Hmv|]. split; [nia|nia].
Qed.

(** No call of [execute] is in progress. *)
Definition quiescent (s : state) : Prop := Forall (fun t => frames t = []) (threads s).

Lemma quiescent_ahead ts lo hi :
  Forall (fun t => frames t = []) ts -> threads_ahead ts lo hi -> lo = O.
Proof.
  revert lo hi. induction ts as [|t ts IH]; intros lo hi Hq; simpl; [done|].
  inversion Hq as [|? ? Hf Hq']; subst.
  intros (l1 & h1 & l2 & h2 & (hf & hb & Hfr & _) & Hts & HL & _).
  rewrite Hf in Hfr. simpl in Hfr. apply IH in Hts; [|done]. lia.
Qed.

End Counting.

(** ** The statistics counter *)

Lemma ahead_do P {A X : Type} (op : Op X) (k : X -> code A) lo hi :
  (forall x, ahead P (k x) (lo - weight P op) (hi - weight P op)) ->
  (weight P op <= hi)%nat ->
  ahead P (Do op k) lo hi.
Proof.
  intros Hk Hw. exists (lo - weight P op)%nat, (hi - weight P op)%nat.
  split; [lia|]. split; [lia|done].
Qed.

Ltac walk_ahead :=
  repeat first
    [ rewrite mbind_bind
    | progress cbn [bind run_deferred perform when]
    | match goal with
      | |- forall _, _ => intros ?
      | |- ahead _ (Do _ _) _ _ => apply ahead_do; [|cbn; lia]
      | |- ahead _ (Ret _) _ _ => reflexivity
      | |- ahead _ (Fatalf _ _) _ _ => exact I
      | |- ahead _ (Panic _) _ _ => exact I
      | |- ahead _ (if ?b then _ else _) _ _ => destruct b
      | |- ahead _ (match ?x with _ => _ end) _ _ => destruct x
      | |- ahead _ (bind (if ?b then _ else _) _) _ _ => destruct b
      | |- ahead _ (bind (match ?x with _ => _ end) _) _ _ => destruct x
      end ].

Lemma execute_increments_once fl pid env opts p :
  ahead op_stat_inc (execute fl pid env opts p) 1 1.
Proof. unfold execute, when, perform. walk_ahead. Qed.

Lemma execute_runs_once fl pid env opts p :
  ahead op_exec (execute fl pid env opts p) 1 1.
Proof. unfold execute, when, perform. walk_ahead. Qed.

(** The operations that appear in [execute] only. *)
Definition op_in_execute : opclass := fun X op =>
  match op with
  | AtomicAddStatExec _ | GateEnter | GateLeave _ | outMuLock | outMuUnlock
  | Serialize _ | Printf _ _ | EnvExec _ _ _ | StdoutWrite _ => true
  | _ => false
  end.

(** A class of operations that only [execute] performs. *)
Definition execute_only (P : opclass) : Prop :=
  forall X (op : Op X), P X op = true -> op_in_execute X op = true.

Lemma execute_only_free P C {A : Type} (c : code A) :
  execute_only P ->
  all_ops (fun X op => startup_op C X op \/ reporter_op X op \/ worker_op X op) c ->
  ahead P c 0 0.
Proof.
  intros HP Hc. apply ahead_free. eapply all_ops_mono; [|exact Hc].
  intros X op Hop. simpl. destruct (P X op) eqn:E; [|done].
  apply HP in E. destruct op; simpl in *; intuition.
Qed.

Lemma stat_inc_execute_only : execute_only op_stat_inc.
Proof. intros X op. destruct op; simpl; try done. Qed.

Lemma exec_execute_only : execute_only op_exec.
Proof. intros X op. destruct op; simpl; try done. Qed.

Section StatExec.

Variable B : Build.
Variable fl : CmdLine.

Let C := wrap64 (2 * flagProcs fl).

Lemma execute_driver_ops pid env opts p :
  all_ops (driver_op C) (execute fl pid env opts p).
Proof. eapply all_ops_mono; [|apply execute_ops]. unfold driver_op. tauto. Qed.

Lemma driver_ops s :
  reachable B fl s ->
  Forall (thread_all (driver_op C)) (threads s) /\ Forall (event_all (driver_op C)) (trace s).
Proof.
  apply reachable_all_ops.
  - eapply all_ops_mono; [|apply main_ops]. unfold driver_op. tauto.
  - eapply all_ops_mono; [|apply reporter_ops]. unfold driver_op. tauto.
  - intros. eapply all_ops_mono; [|apply worker_prologue_ops]. unfold driver_op. tauto.
  - intros. eapply all_ops_mono; [|apply worker_body_ops]. unfold driver_op. tauto.
  - apply execute_driver_ops.
Qed.

(** What is counted for a class that only [execute] performs, once per
    call. *)
Lemma execute_once_counts P s :
  execute_only P ->
  (forall pid env opts p, ahead P (execute fl pid env opts p) 1 1) ->
  reachable B fl s ->
  exists lo hi,
    threads_ahead P (threads s) lo hi /\
    (tcount op_call_execute s * 1 <= tcount P s + lo)%nat /\
    (tcount P s + hi <= 0 + tcount op_call_execute s * 1)%nat.
Proof.
  intros HP Hexec. apply reachable_counts; try done.
  - intros pid env opts p. destruct (P _ (CallExecute pid env opts p)) eqn:E; [|done].
    by apply HP in E.
  - apply (execute_only_free P C); [done|].
    eapply all_ops_mono; [|apply main_ops]. tauto.
  - apply (execute_only_free P C); [done|].
    eapply all_ops_mono; [|apply reporter_ops]. tauto.
  - intros. apply (execute_only_free P C); [done|].
    eapply all_ops_mono; [|apply worker_prologue_ops]. tauto.
  - intros. apply (execute_only_free P C); [done|].
    eapply all_ops_mono; [|apply worker_body_ops]. tauto.
Qed.

Lemma effect_statExec {X : Type} d (op : Op X) x s :
  driver_op C X op ->
  statExec (effect d op x s)
  = if op_stat_inc X op then wrapu64 (statExec s + 1) else statExec s.
Proof.
  unfold driver_op. destruct op; simpl; try done; try (by repeat case_match).
  intros [H|[H|[H|H]]]; try done. by subst.
Qed.

(** The counter is the number of increments performed, as a uint64: it
    changes by atomic increments only and is never reset. *)
Lemma statExec_counts_increments s :
  reachable B fl s -> statExec s = wrapu64 (Z.of_nat (tcount op_stat_inc s)).
Proof.
  induction 1 as [|s ch s' Hr IH Hstep]; [done|].
  pose proof (driver_ops s Hr) as [Hall _].
  apply step_inv in Hstep as [Hex Hstep]. unfold tcount in *.
  destruct Hstep as [t r Ht Hc|t fmt args Ht Hc|t msg Ht Hc|t X op k x msg Ht Hc Hx Hb Hf
                    |t X op k x Ht Hc Hx Hb Hf]; simpl; rewrite ?count_snoc; simpl;
    rewrite ?Nat.add_0_r; try done.
  assert (Hop : driver_op C X op).
  { refine (proj1 (thread_all_moved fl (driver_op C) execute_driver_ops t X op k _ Hc)).
    by eapply Forall_lookup_1. }
  rewrite effect_statExec, effect_trace by done.
  destruct (op_stat_inc X op); rewrite IH; [|by rewrite Nat.add_0_r].
  unfold wrapu64. rewrite Zplus_mod_idemp_l. f_equal. lia.
Qed.

End StatExec.

(** C4: every call of [execute] increments the counter exactly once and
    runs the program exactly once, and returns; the counter is the number
    of increments performed so far (as a uint64: it is only ever
    incremented, never reset); and when no call of [execute] is in
    progress in any worker, the increments performed are exactly the
    Executor invocations issued, so that the counter is their number
    (below 2^64, the range of the counter). *)
Theorem statExec_counts_executions B fl s :
  reachable B fl s ->
  (forall pid env opts p o n,
     count (holds op_stat_inc) (run_code o n (execute fl pid env opts p)).1 = 1%nat /\
     count (holds op_exec) (run_code o n (execute fl pid env opts p)).1 = 1%nat /\
     (run_code o n (execute fl pid env opts p)).2 = Returned tt) /\
  statExec s = wrapu64 (Z.of_nat (tcount op_stat_inc s)) /\
  (quiescent s ->
     tcount op_stat_inc s = tcount op_exec s /\
     statExec s = wrapu64 (Z.of_nat (tcount op_exec s)) /\
     (Z.of_nat (tcount op_exec s) < 2 ^ 64 -> statExec s = Z.of_nat (tcount op_exec s))).
Proof.
  intros Hr.
  destruct (execute_once_counts B fl op_stat_inc s stat_inc_execute_only
              (execute_increments_once fl) Hr) as (li & hi & Hi & Hli & Hhi).
  destruct (execute_once_counts B fl op_exec s exec_execute_only
              (execute_runs_once fl) Hr) as (le & he & He & Hle & Hhe).
  pose proof (statExec_counts_increments B fl s Hr) as Hstat.
  split; [intros; apply execute_counts|]. split; [done|].
  intros Hq.
  assert (li = 0%nat) by (eapply quiescent_ahead; [exact Hq|exact Hi]).
  assert (le = 0%nat) by (eapply quiescent_ahead; [exact Hq|exact He]).
  assert (Heq : tcount op_stat_inc s = tcount op_exec s) by lia.
  split; [done|]. rewrite <- Heq. split; [done|].
  intros Hlt. rewrite Hstat. unfold wrapu64. apply Z.mod_small. lia.
Qed.

(** One worker, after its first iteration and the first run of its
    second. *)
Definition after_three_runs : state :=
  default (init linux_build logprog_flags)
    (run logprog_flags (init linux_build logprog_flags)
       (moves quiet_world 0 13 ++ moves quiet_world 1 40)).

Lemma after_three_runs_reachable : reachable linux_build logprog_flags after_three_runs.
Proof.
  apply runs_reachable. vm_compute. reflexivity.
Qed.

Lemma statExec_counts_executions_witness :
  statExec after_three_runs = Z.of_nat (tcount op_exec after_three_runs) /\
  statExec after_three_runs = 3.
Proof.
  destruct (statExec_counts_executions linux_build logprog_flags after_three_runs
              after_three_runs_reachable) as (_ & _ & H).
  destruct H as (_ & _ & H).
  - vm_compute. repeat constructor.
  - split; [apply H|]; vm_compute; reflexivity.
Defined.

(** ** Generation disabled *)

Definition one_record_world : world := {|
  wd_records := [ {| Val := [] |} ];
  wd_open_fails := false;
  wd_deserialize_fails := false;
  wd_makeenv_fails := false;
  wd_exec := {| output := []; hanged := false; exec_err := None |};
  wd_intn := 0;
  wd_loc := O
|}.

(** With [-generate=false] and a corpus of one program: start-up, then
    the first iteration of the only worker and the first step of its
    second iteration. *)
Definition second_iteration_begun : state :=
  default (init linux_build corpus_flags)
    (run corpus_flags (init linux_build corpus_flags)
       (moves one_record_world 0 17 ++ moves one_record_world 1 19)).

(** C1 fails on the code: with the generate flag false and a corpus of
    one program, start-up succeeds, and iteration 1 of the worker asks
    the generator for a fresh program.  In the condition of line 112,
    [*flagGenerate && len(corpus) == 0 || i%4 != 0], the flag only guards
    the test for an empty corpus. *)
Theorem generate_disabled_still_generates :
  flagGenerate corpus_flags = false /\
  reachable linux_build corpus_flags second_iteration_begun /\
  exited second_iteration_begun = false /\
  heap second_iteration_begun = [[]; []; []] /\
  tcount op_go second_iteration_begun = 1%nat /\
  tcount op_generate second_iteration_begun = 1%nat /\
  last (trace second_iteration_begun) =
    Some (1%nat, Ev (Generate empty_target (randSource 0) 30 (choiceTable 0)) 2%nat) /\
  takes_generate corpus_flags [O] 1 = true /\
  position (holds op_generate)
    (events_of (fun _ => answer one_record_world)
       (worker_body corpus_flags
          {| sh_target := empty_target; sh_corpus := [O]; sh_ct := choiceTable 0;
             sh_config := {| Flags := 0; ConfigRest := 0 |}; sh_execOpts := execOpts_ 0 |}
          0 {| w_env := env_ 0; w_rs := randSource 0; w_rnd := rand_ (randSource 0) |} 1))
    = Some O.
Proof.
  split; [done|]. split.
  { apply runs_reachable. vm_compute. reflexivity. }
  repeat split; vm_compute; reflexivity.
Qed.

(** ** A worker that cannot create its execution environment *)

(** C10: when [ipc.MakeEnv] fails in a worker that start-up has
    spawned, the worker calls [log.Fatalf]: the process ends, and no
    goroutine, worker or other, moves any more. *)
Theorem makeenv_failure_is_fatal fl s ch pid sh e :
  exited s = false ->
  threads s !! ch_tid ch = Some (new_worker pid sh) ->
  ch_ans ch _ (MakeEnv (sh_config sh) pid) = Err e ->
  exists s1 s2,
    step fl s ch = Some s1 /\
    step fl s1 ch = Some s2 /\
    exited s1 = false /\
    exited s2 = true /\
    trace s2 = trace s ++
      [(ch_tid ch, Ev (MakeEnv (sh_config sh) pid) (Err e));
       (ch_tid ch, EvFatal "failed to create execution environment: %v" [AErr e])] /\
    (forall ch', step fl s2 ch' = None).
Proof.
  intros Hex Ht Hans.
  assert (Hlt : (ch_tid ch < length (threads s))%nat) by (by eapply lookup_lt_Some).
  eexists _, _. split; [|split].
  - unfold step. rewrite Hex, Ht. simpl. rewrite Hans. simpl. rewrite Hex. reflexivity.
  - unfold step. simpl. rewrite Hex, list_lookup_insert_eq by done. simpl. reflexivity.
  - simpl. split; [done|]. split; [done|]. split; [by rewrite <- app_assoc|].
    intros ch'. by apply exited_stuck.
Qed.

Definition two_workers_flags : CmdLine := {|
  flagOS := "linux"; flagArch := "amd64"; flagCorpus := ""; flagOutput := false;
  flagProcs := 2; flagLogProg := false; flagGenerate := true; flagSyscalls := "";
  flagEnable := "none"; flagDisable := "none"
|}.

Definition no_executor_world : world := {|
  wd_records := [];
  wd_open_fails := false;
  wd_deserialize_fails := false;
  wd_makeenv_fails := true;
  wd_exec := {| output := []; hanged := false; exec_err := None |};
  wd_intn := 0;
  wd_loc := O
|}.

(** Two workers are spawned; the first has run programs, the second has
    not moved yet. *)
Definition first_worker_running : state :=
  default (init linux_build two_workers_flags)
    (run two_workers_flags (init linux_build two_workers_flags)
       (moves quiet_world 0 17 ++ moves quiet_world 1 16)).

Lemma makeenv_failure_is_fatal_witness :
  reachable linux_build two_workers_flags first_worker_running /\
  tcount op_exec first_worker_running = 2%nat /\
  exists s1 s2,
    step two_workers_flags first_worker_running
      {| ch_tid := 2; ch_ans := answer no_executor_world; ch_data := [] |} = Some s1 /\
    step two_workers_flags s1
      {| ch_tid := 2; ch_ans := answer no_executor_world; ch_data := [] |} = Some s2 /\
    exited s2 = true /\
    (forall ch', step two_workers_flags s2 ch' = None).
Proof.
  split; [|split; [vm_compute; reflexivity|]].
  { apply runs_reachable. vm_compute. reflexivity. }
  destruct (makeenv_failure_is_fatal two_workers_flags first_worker_running
              {| ch_tid := 2; ch_ans := answer no_executor_world; ch_data := [] |}
              1 {| sh_target := empty_target; sh_corpus := []; sh_ct := choiceTable 0;
                   sh_config := {| Flags := 0; ConfigRest := 0 |};
                   sh_execOpts := execOpts_ 0 |}
              "no executor")
    as (s1 & s2 & H1 & H2 & _ & H3 & _ & H4).
  - vm_compute; reflexivity.
  - reflexivity.
  - reflexivity.
  - exists s1, s2. exact (conj H1 (conj H2 (conj H3 H4))).
Defined.


(** ** Code that waits for an event *)

(** Operations that neither spawn a worker nor execute a program. *)
Definition quiet_op (X : Type) (op : Op X) : Prop :=
  match op with
  | GoWorker _ _ | CallExecute _ _ _ _ | EnvExec _ _ _ => False
  | _ => True
  end.

(** Until an event of [release] happens, the code performs quiet
    operations only and does not return: it can only end the process
    (by a panic only if [may_panic]). *)
Fixpoint guarded (release : event -> bool) (may_panic : Prop) {A : Type} (c : code A) : Prop :=
  match c with
  | Ret _ => False
  | Fatalf _ _ => True
  | Panic _ => may_panic
  | Do op k =>
      quiet_op _ op /\ forall x, release (Ev op x) = false -> guarded release may_panic (k x)
  end.

Lemma guarded_bind release {A B : Type} (c : code A) (f : A -> code B) :
  all_ops (fun X op => quiet_op X op) c ->
  (forall a, guarded release True (f a)) ->
  guarded release True (bind c f).
Proof.
  intros Hc Hf. induction c as [a|fmt args|msg|X op k IH]; simpl in *; try done.
  destruct Hc as [Hq Hk]. split; [done|]. intros x _. by apply IH.
Qed.

Lemma count_snoc_0 (P : event -> bool) (tr : list (nat * event)) tid e :
  count P (tr ++ [(tid, e)]).*2 = O -> count P tr.*2 = O /\ P e = false.
Proof. rewrite count_snoc. destruct (P e); [lia|]. split; [lia|done]. Qed.

(** A run of guarded code alone, in which no event of [release]
    happens: it ends the process without having spawned a worker or
    executed a program. *)
Lemma guarded_run release may_panic {A : Type} (c : code A) (o : oracle) : forall n,
  guarded release may_panic c ->
  count release (run_code o n c).1 = O ->
  ((run_code o n c).2 = Exited \/ (may_panic /\ (run_code o n c).2 = Panicked)) /\
  count (holds op_go) (run_code o n c).1 = O /\
  count (holds op_call_execute) (run_code o n c).1 = O /\
  count (holds op_exec) (run_code o n c).1 = O.
Proof.
  induction c as [a|fmt args|msg|X op k IH]; simpl; intros n Hg Hc; try done.
  - auto.
  - auto.
  - destruct Hg as [Hq Hk].
    destruct (release (Ev op (o n X op))) eqn:Hrel; [lia|]. simpl in Hc.
    destruct (IH _ (S n) (Hk _ Hrel) Hc) as (H1 & H2 & H3 & H4).
    split; [done|]. destruct op; simpl in *; done.
Qed.

Section Guarded.

Variable B : Build.
Variable fl : CmdLine.
Variable release : event -> bool.
Variable may_panic : Prop.

Hypothesis main_guarded : guarded release may_panic (main B fl).

(** As long as no event of [release] has happened, [main] is the only
    goroutine, it is still in its start-up, and no program has been
    executed. *)
Lemma reachable_guarded s :
  reachable B fl s ->
  count release (trace s).*2 = O ->
  (exists c, threads s = [ {| frames := []; t_base := BMain c |} ] /\
             guarded release may_panic c) /\
  tcount op_go s = O /\ tcount op_call_execute s = O /\ tcount op_exec s = O.
Proof using main_guarded.
  induction 1 as [|s ch s' Hr IH Hstep]; intros Hrel.
  - split; [by eexists|done].
  - apply step_inv in Hstep as [Hex Hstep]. unfold tcount in *.
    destruct Hstep as [t r Ht Hc|t fmt args Ht Hc|t msg Ht Hc|t X op k x msg Ht Hc Hx Hb Hf
                      |t X op k x Ht Hc Hx Hb Hf]; simpl in *.
    + destruct (IH Hrel) as ((c & Hts & Hg) & _). rewrite Hts in Ht.
      destruct (ch_tid ch) as [|[|?]]; simplify_eq/=. done.
    + apply count_snoc_0 in Hrel as [Hrel _]. rewrite !count_snoc. simpl.
      destruct (IH Hrel) as (Hc' & -> & -> & ->). done.
    + apply count_snoc_0 in Hrel as [Hrel _]. rewrite !count_snoc. simpl.
      destruct (IH Hrel) as (Hc' & -> & -> & ->). done.
    + apply count_snoc_0 in Hrel as [Hrel _]. rewrite !count_snoc. simpl.
      destruct (IH Hrel) as (Hc' & -> & -> & ->). done.
    + rewrite effect_trace in *. apply count_snoc_0 in Hrel as [Hrel Hx'].
      destruct (IH Hrel) as ((c & Hts & Hg) & Hgo & Hcall & Hexec).
      rewrite effect_threads, Hts. rewrite Hts in Ht.
      destruct (ch_tid ch) as [|[|?]]; simplify_eq/=.
      destruct Hg as [Hq Hk]. rewrite !count_snoc, Hgo, Hcall, Hexec.
      split; [|by destruct op].
      exists (k x). split; [|by apply Hk]. by destruct op.
Qed.

End Guarded.

(** ** Nothing to mutate *)

Lemma main_barren B fl :
  flagGenerate fl = false -> guarded deserialized False (main B fl).
Proof.
  intros Hgen. unfold main, readCorpus, perform. rewrite Hgen.
  simpl. split; [done|]. intros [ff|e] _; [|done].
  simpl. split; [done|]. intros [target|e] _; [|done].
  destruct (String.eqb (flagCorpus fl) ""); simpl.
  { split; [done|]. intros _ _. done. }
  split; [done|]. intros [db|e] _; [|done]. simpl.
  destruct (Records db) as [|rec recs]; simpl.
  { split; [done|]. intros _ _. done. }
  split; [done|]. intros [p|e] Hrel; [done|]. done.
Qed.

(** C6: with generation disabled, a start-up that loads no program
    fails fatally: run alone, [main] ends in [log.Fatalf] without spawning
    a worker or executing a program (with the message "nothing to
    mutate" once the empty corpus is loaded, from an empty path or an
    empty store); and in no state of the process reached without a
    deserialized program is there a goroutine other than [main] in its
    start-up, a spawned worker or an executed program. *)
Theorem nothing_to_mutate_is_fatal B fl :
  flagGenerate fl = false ->
  (forall o,
     count deserialized (events_of o (main B fl)) = O ->
     outcome_of o (main B fl) = Exited /\
     count (holds op_go) (events_of o (main B fl)) = O /\
     count (holds op_call_execute) (events_of o (main B fl)) = O /\
     count (holds op_exec) (events_of o (main B fl)) = O) /\
  (forall (o : oracle) ff target,
     flagCorpus fl = "" ->
     o 0%nat _ (ParseFeaturesFlags (flagEnable fl) (flagDisable fl) true) = Ok ff ->
     o 1%nat _ (GetTarget (flagOS fl) (flagArch fl)) = Ok target ->
     run_code o 0 (main B fl) =
       ([Ev (ParseFeaturesFlags (flagEnable fl) (flagDisable fl) true) (Ok ff);
         Ev (GetTarget (flagOS fl) (flagArch fl)) (Ok target);
         Ev (Logf 0 "parsed %v programs" [AInt 0]) tt;
         EvFatal "nothing to mutate (-generate=false and no corpus)" []], Exited)) /\
  (forall (o : oracle) ff target db,
     flagCorpus fl <> "" ->
     o 0%nat _ (ParseFeaturesFlags (flagEnable fl) (flagDisable fl) true) = Ok ff ->
     o 1%nat _ (GetTarget (flagOS fl) (flagArch fl)) = Ok target ->
     o 2%nat _ (dbOpen (flagCorpus fl)) = Ok db ->
     Records db = [] ->
     run_code o 0 (main B fl) =
       ([Ev (ParseFeaturesFlags (flagEnable fl) (flagDisable fl) true) (Ok ff);
         Ev (GetTarget (flagOS fl) (flagArch fl)) (Ok target);
         Ev (dbOpen (flagCorpus fl)) (Ok db);
         Ev (Logf 0 "parsed %v programs" [AInt 0]) tt;
         EvFatal "nothing to mutate (-generate=false and no corpus)" []], Exited)) /\
  (forall s,
     reachable B fl s ->
     count deserialized (trace s).*2 = O ->
     (exists c, threads s = [ {| frames := []; t_base := BMain c |} ]) /\
     tcount op_go s = O /\ tcount op_call_execute s = O /\ tcount op_exec s = O).
Proof.
  intros Hgen. pose proof (main_barren B fl Hgen) as Hbarren.
  split; [|split; [|split]].
  - intros o Hc. unfold events_of, outcome_of in *.
    destruct (guarded_run deserialized False (main B fl) o 0 Hbarren Hc)
      as ([H|[[] _]] & H'). done.
  - intros o ff target Hpath Hff Htarget.
    unfold main, readCorpus, perform. rewrite Hgen, Hpath. cbn. rewrite Hff. cbn.
    rewrite Htarget. cbn. by destruct (o 2%nat _ _).
  - intros o ff target db Hpath Hff Htarget Hdb Hrecs.
    apply String.eqb_neq in Hpath.
    unfold main, readCorpus, perform. rewrite Hgen, Hpath. cbn. rewrite Hff. cbn.
    rewrite Htarget. cbn. rewrite Hdb. cbn. rewrite Hrecs. cbn. by destruct (o 3%nat _ _).
  - intros s Hr Hc.
    destruct (reachable_guarded B fl deserialized False Hbarren s Hr Hc)
      as ((c & Hts & _) & H'). split; [by exists c|done].
Qed.

(** Generation disabled and an empty corpus store: [main] has made its
    five steps. *)
Definition startup_failed : state :=
  default (init linux_build corpus_flags)
    (run corpus_flags (init linux_build corpus_flags) (moves quiet_world 0 5)).

Lemma nothing_to_mutate_is_fatal_witness :
  exited startup_failed = true /\
  length (threads startup_failed) = 1%nat /\
  tcount op_exec startup_failed = O.
Proof.
  destruct (nothing_to_mutate_is_fatal linux_build corpus_flags eq_refl) as (_ & _ & _ & H).
  destruct (H startup_failed) as ((c & Hts) & _ & _ & Hexec).
  - apply runs_reachable. vm_compute. reflexivity.
  - vm_compute. reflexivity.
  - split; [vm_compute; reflexivity|]. split; [by rewrite Hts|exact Hexec].
Defined.

(** ** The gate *)

Lemma ahead_bind_assoc P {A B C : Type} (c : code A) (f : A -> code B) (g : B -> code C) :
  forall lo hi,
    ahead P (bind c (fun a => bind (f a) g)) lo hi -> ahead P (bind (bind c f) g) lo hi.
Proof.
  induction c as [a|fmt args|msg|X op k IH]; simpl; intros lo hi H; try done.
  destruct H as (l & h & Hl & Hh & Hk). exists l, h. repeat split; try done.
  intros x. apply IH, Hk.
Qed.

Ltac walk_main P :=
  repeat first
    [ rewrite mbind_bind
    | apply ahead_bind_assoc
    | progress cbn [bind perform when]
    | match goal with
      | |- forall _, _ => intros ?
      | |- ahead _ (perform _) _ _ => unfold perform
      | |- ahead _ (Do _ _) _ _ => apply ahead_do; [|cbn; lia]
      | |- ahead _ (Ret _) _ _ => reflexivity
      | |- ahead _ (Fatalf _ _) _ _ => exact I
      | |- ahead _ (Panic _) _ _ => exact I
      | |- ahead _ (if ?b then _ else _) _ _ => destruct b
      | |- ahead _ (match ?x with _ => _ end) _ _ => destruct x
      | |- ahead _ (bind (if ?b then _ else _) _) _ _ => destruct b
      | |- ahead _ (bind (match ?x with _ => _ end) _) _ _ => destruct x
      | |- ahead _ (bind _ _) _ _ =>
          apply ahead_bind_free;
          [ solve [ first [ apply readCorpus_records_ops | apply mark_enabled_ops
                          | apply log_disabled_ops | apply spawn_ops ]; done ] | ]
      end ].

Lemma spawn_go n : forall pid sh, ahead op_go (spawn n pid sh) n n.
Proof.
  induction n as [|n IH]; intros pid sh; simpl; [done|].
  exists n, n. repeat split; try (cbn; lia). intros _. apply IH.
Qed.

(** [main] builds the gate exactly once on every path to its ticker
    loop. *)
Lemma main_new_gate_once B fl : ahead op_new_gate (main B fl) 1 1.
Proof. unfold main, readCorpus, buildCallList. walk_main op_new_gate. Qed.

(** [main] spawns [flagProcs] workers on every path to its ticker loop. *)
Lemma main_spawns_procs B fl :
  ahead op_go (main B fl) (Z.to_nat (flagProcs fl)) (Z.to_nat (flagProcs fl)).
Proof.
  unfold main, readCorpus, buildCallList. walk_main op_go.
  all: cbn [weight op_go]; rewrite ?Nat.sub_0_r.
  all: match goal with
       | |- ahead _ (bind (spawn ?n ?pid ?sh) ?f) _ _ =>
           eapply ahead_weaken; [apply (ahead_bind op_go (spawn n pid sh) f n n 0 0)|lia|lia]
       end; [apply spawn_go|].
  all: intros ?; cbn; by exists 0%nat, 0%nat.
Qed.

Lemma wrap64_small z : - 2 ^ 63 <= z < 2 ^ 63 -> wrap64 z = z.
Proof. intros H. unfold wrap64. rewrite Z.mod_small; lia. Qed.

(** A class of operations that only the start-up performs. *)
Definition startup_only (P : opclass) : Prop :=
  forall X (op : Op X),
    P X op = true -> ~ reporter_op X op /\ ~ worker_op X op /\ ~ execute_op X op.

Lemma startup_only_free P (Φ : forall X : Type, Op X -> Prop) {A : Type} (c : code A) :
  startup_only P ->
  (forall X (op : Op X), Φ X op -> reporter_op X op \/ worker_op X op \/ execute_op X op) ->
  all_ops Φ c -> ahead P c 0 0.
Proof.
  intros HP HΦ Hc. apply ahead_free. eapply all_ops_mono; [|exact Hc].
  intros X op Hop. simpl. destruct (P X op) eqn:E; [|done].
  apply HP in E. apply HΦ in Hop. tauto.
Qed.

(** The capacity an event gives to a new gate. *)
Definition new_gate_capacity (e : event) : option Z :=
  match e with
  | Ev op _ => match op with NewGate c => Some c | _ => None end
  | _ => None
  end.

(** The gate, when there is one, has capacity [C], and no more than [C]
    tickets are outstanding. *)
Definition gate_ok (C : Z) (og : option Gate) : Prop :=
  match og with
  | Some g => capacity g = C /\ (0 <= C -> Z.of_nat (outstanding g) <= C)
  | None => True
  end.

Section GateInvariants.

Variable B : Build.
Variable fl : CmdLine.

Let C := wrap64 (2 * flagProcs fl).

(** What only the start-up performs is performed at most as often as
    [main] does. *)
Lemma startup_only_counts P n0 s :
  startup_only P ->
  ahead P (main B fl) 0 n0 ->
  reachable B fl s ->
  (tcount P s <= n0)%nat.
Proof.
  intros HP Hmain Hr.
  destruct (reachable_counts B fl P 0 0 n0) with (s := s) as (lo & hi & _ & _ & Hhi);
    try done.
  - intros pid env opts p. destruct (P _ (CallExecute pid env opts p)) eqn:E; [|done].
    apply HP in E. simpl in E. tauto.
  - eapply startup_only_free; [done| |apply reporter_ops]. tauto.
  - intros. eapply startup_only_free; [done| |apply worker_prologue_ops]. tauto.
  - intros. eapply startup_only_free; [done| |apply worker_body_ops]. tauto.
  - intros. eapply startup_only_free; [done| |apply execute_ops]. tauto.
  - lia.
Qed.

Lemma new_gate_startup_only : startup_only op_new_gate.
Proof. intros X op. destruct op; simpl; try done. tauto. Qed.

Lemma go_startup_only : startup_only op_go.
Proof. intros X op. destruct op; simpl; try done. tauto. Qed.

Lemma effect_gate_ok {X : Type} d (op : Op X) x s :
  driver_op C X op -> blocked op s = false ->
  gate_ok C (gate s) -> gate_ok C (gate (effect d op x s)).
Proof.
  unfold driver_op. destruct op; simpl; try done; try (by repeat case_match).
  - intros [H|[H|[H|H]]]; done.
  - destruct (gate s) as [g|]; simpl; [|done]. unfold gate_available.
    intros _ Hb [Hc Ho]. apply negb_false_iff, Z.ltb_lt in Hb. split; [done|]. lia.
  - destruct (gate s) as [g|]; simpl; [|done]. intros _ _ [Hc Ho]. split; [done|]. lia.
Qed.

Lemma effect_gate_built {X : Type} d (op : Op X) x s :
  is_Some (gate (effect d op x s)) <-> is_Some (gate s) \/ op_new_gate X op = true.
Proof.
  destruct op; simpl; try (by repeat case_match; intuition congruence).
  - split; [by right|by eexists].
  - rewrite fmap_is_Some. intuition congruence.
  - rewrite fmap_is_Some. intuition congruence.
Qed.

Lemma reachable_gate s :
  reachable B fl s ->
  gate_ok C (gate s) /\
  (is_Some (gate s) <-> (0 < tcount op_new_gate s)%nat) /\
  length (threads s) = (1 + tcount op_go s)%nat.
Proof.
  induction 1 as [|s ch s' Hr (IHok & IHb & IHl) Hstep].
  - split; [done|]. split; [|done]. unfold tcount. simpl. split; [by intros [? ?]|lia].
  - pose proof (driver_ops B fl s Hr) as [Hall _].
    apply step_inv in Hstep as [Hex Hstep]. unfold tcount in *.
    destruct Hstep as [t r Ht Hc|t fmt args Ht Hc|t msg Ht Hc|t X op k x msg Ht Hc Hx Hb Hf
                      |t X op k x Ht Hc Hx Hb Hf]; simpl; rewrite ?count_snoc; simpl;
      rewrite ?Nat.add_0_r, ?length_insert; try done.
    assert (Hop : driver_op C X op).
    { refine (proj1 (thread_all_moved fl (driver_op C) (execute_driver_ops fl) t X op k _ Hc)).
      by eapply Forall_lookup_1. }
    rewrite ?effect_trace, effect_threads, length_app, ?count_snoc. simpl.
    split; [by apply effect_gate_ok|]. split.
    + rewrite effect_gate_built, IHb. destruct (op_new_gate X op); intuition lia.
    + rewrite IHl. destruct op; simpl; lia.
Qed.

Lemma readCorpus_quiet target : all_ops quiet_op (readCorpus fl target).
Proof.
  unfold readCorpus, perform. walk_ops. by apply readCorpus_records_ops.
Qed.

Lemma buildCallList_quiet target enabled : all_ops quiet_op (buildCallList B fl target enabled).
Proof.
  unfold buildCallList, perform.
  walk_ops; first [ apply mark_enabled_ops | apply log_disabled_ops ]; done.
Qed.

Lemma main_gate_first : guarded (holds op_new_gate) True (main B fl).
Proof.
  unfold main, perform.
  repeat first
    [ rewrite mbind_bind
    | progress simpl
    | match goal with
      | |- _ /\ _ => split
      | |- True => exact I
      | H : true = false |- _ => discriminate H
      | |- forall _, _ => intros ?
      | |- guarded _ _ (if ?b then _ else _) => destruct b
      | |- guarded _ _ (match ?x with _ => _ end) => destruct x
      | |- guarded _ _ (bind _ _) =>
          apply guarded_bind;
          [ solve [ first [ apply readCorpus_quiet | apply buildCallList_quiet ] ] | ]
      end ].
Qed.

End GateInvariants.

(** C8: for a worker count [flagProcs] (from 0 up to what twice fits
    in an [int]), the gate is built at most once in any run of the
    process, and exactly once, before any worker is spawned, in every
    start-up that reaches the ticker loop, which spawns [flagProcs]
    workers; every construction gives it the capacity [2 * flagProcs]; the
    gate that exists has that capacity, and never more than that many
    tickets outstanding; while there is no gate, [main] is the only
    goroutine. *)
Theorem gate_capacity_fixed B fl s :
  0 <= flagProcs fl < 2 ^ 62 ->
  reachable B fl s ->
  (tcount op_new_gate s <= 1)%nat /\
  Forall (fun te => forall c, new_gate_capacity te.2 = Some c -> c = 2 * flagProcs fl)
    (trace s) /\
  match gate s with
  | Some g =>
      capacity g = 2 * flagProcs fl /\
      Z.of_nat (outstanding g) <= 2 * flagProcs fl /\
      tcount op_new_gate s = 1%nat
  | None =>
      tcount op_new_gate s = O /\ length (threads s) = 1%nat
  end /\
  (length (threads s) <= 1 + Z.to_nat (flagProcs fl))%nat /\
  (forall o,
     outcome_of o (main B fl) = Returned tt ->
     count (holds op_new_gate) (events_of o (main B fl)) = 1%nat /\
     count (holds op_go) (events_of o (main B fl)) = Z.to_nat (flagProcs fl)).
Proof.
  intros Hprocs Hr.
  assert (HC : wrap64 (2 * flagProcs fl) = 2 * flagProcs fl) by (apply wrap64_small; lia).
  destruct (reachable_gate B fl s Hr) as (Hok & Hbuilt & Hlen).
  assert (Hone : (tcount op_new_gate s <= 1)%nat).
  { apply (startup_only_counts B fl op_new_gate 1 s new_gate_startup_only); [|done].
    eapply ahead_weaken; [apply main_new_gate_once|lia|lia]. }
  assert (Hgo : (tcount op_go s <= Z.to_nat (flagProcs fl))%nat).
  { apply (startup_only_counts B fl op_go _ s go_startup_only); [|done].
    eapply ahead_weaken; [apply main_spawns_procs|lia|lia]. }
  split; [done|]. split; [|split; [|split]].
  - destruct (driver_ops B fl s Hr) as [_ Hev].
    eapply Forall_impl; [exact Hev|]. intros [tid e]. unfold event_all. simpl.
    destruct e as [X op x| |]; simpl; try done.
    destruct op; simpl; try done. unfold driver_op. simpl.
    intros [H|[H|[H|H]]] c' [= <-]; try done. by rewrite <- HC.
  - destruct (gate s) as [g|] eqn:Hg.
    + destruct Hok as [Hcap Hout]. rewrite HC in Hcap, Hout.
      split; [done|]. split; [apply Hout; lia|].
      assert (0 < tcount op_new_gate s)%nat by (apply Hbuilt; by eexists). lia.
    + assert (H0 : tcount op_new_gate s = O).
      { destruct (tcount op_new_gate s) eqn:E; [done|].
        assert (His : is_Some (@None Gate)) by (apply Hbuilt; lia). by destruct His. }
      split; [done|].
      destruct (reachable_guarded B fl (holds op_new_gate) True (main_gate_first B fl) s Hr H0)
        as ((c & -> & _) & _). done.
  - lia.
  - intros o Hret. unfold events_of, outcome_of in *.
    destruct (ahead_run op_new_gate (main B fl) o 0 _ _ (main_new_gate_once B fl)) as [H1 H2].
    destruct (ahead_run op_go (main B fl) o 0 _ _ (main_spawns_procs B fl)) as [H3 H4].
    specialize (H2 _ Hret). specialize (H4 _ Hret). lia.
Qed.

Lemma gate_capacity_fixed_witness :
  (tcount op_new_gate after_three_runs <= 1)%nat /\
  exists g, gate after_three_runs = Some g /\ capacity g = 2 /\ Z.of_nat (outstanding g) <= 2.
Proof.
  destruct (gate_capacity_fixed linux_build logprog_flags after_three_runs
              ltac:(simpl; lia) after_three_runs_reachable) as (H1 & _ & H3 & _).
  split; [exact H1|].
  assert (E : gate after_three_runs = Some {| capacity := 2; outstanding := 0 |})
    by (vm_compute; reflexivity).
  rewrite E in H3. eexists. split; [exact E|]. split; [apply H3|apply H3].
Defined.

(** ** The corpus *)

(** The variables a worker goroutine has captured. *)
Definition worker_shared (t : thread) : option Shared :=
  match t_base t with
  | BInit _ sh _ | BLoop _ sh _ _ _ => Some sh
  | _ => None
  end.

(** The answer of an allocation is a program at or above [h]. *)
Definition fresh_answer (h : nat) {X : Type} (op : Op X) : X -> Prop :=
  match op in Op X return X -> Prop with
  | Generate _ _ _ _ => fun x => (h <= x)%nat
  | Clone _ => fun x => (h <= x)%nat
  | Deserialize _ _ _ => fun x => match x with Ok l => (h <= l)%nat | Err _ => True end
  | _ => fun _ => True
  end.

(** What worker code may do: mutate programs at or above [h] only. *)
Definition private_op (h : nat) (X : Type) (op : Op X) : Prop :=
  match op with
  | Mutate p _ _ _ _ => (h <= p)%nat
  | GoWorker _ _ | Deserialize _ _ _ => False
  | _ => True
  end.

(** Code that mutates only programs at or above [h], when the programs
    it is given by allocations are at or above [h]. *)
Fixpoint private (h : nat) {A : Type} (c : code A) : Prop :=
  match c with
  | Do op k => private_op h _ op /\ forall x, fresh_answer h op x -> private h (k x)
  | _ => True
  end.

(** What start-up code may do when all programs so far are below [h] and
    the corpus [oc] has been published to workers: it mutates nothing, it
    deserializes only before it publishes, and it publishes one corpus,
    of programs below [h]. *)
Definition publish_op (h : nat) (oc : option (list loc)) (X : Type) (op : Op X) : Prop :=
  match op with
  | GoWorker _ sh =>
      Forall (fun l => (l < h)%nat) (sh_corpus sh) /\ (oc = None \/ oc = Some (sh_corpus sh))
  | Deserialize _ _ _ => oc = None
  | Mutate _ _ _ _ _ | Generate _ _ _ _ | Clone _ | CallExecute _ _ _ _ => False
  | _ => True
  end.

(** The bound on the programs after an operation. *)
Definition bound_after (h : nat) {X : Type} (op : Op X) : X -> nat :=
  match op in Op X return X -> nat with
  | Deserialize _ _ _ => fun x => match x with Ok l => S l | Err _ => h end
  | _ => fun _ => h
  end.

(** The corpus published after an operation. *)
Definition published_after (oc : option (list loc)) {X : Type} (op : Op X) : option (list loc) :=
  match op with
  | GoWorker _ sh => Some (sh_corpus sh)
  | _ => oc
  end.

Fixpoint publishes (h : nat) (oc : option (list loc)) {A : Type} (c : code A) : Prop :=
  match c with
  | Do op k =>
      publish_op h oc _ op /\
      forall x, fresh_answer h op x ->
                publishes (bound_after h op x) (published_after oc op) (k x)
  | _ => True
  end.

(** Operations that touch neither the programs nor the goroutines. *)
Definition neutral_op (X : Type) (op : Op X) : Prop :=
  match op with
  | GoWorker _ _ | Deserialize _ _ _ | Mutate _ _ _ _ _ | Generate _ _ _ _ | Clone _
  | CallExecute _ _ _ _ => False
  | _ => True
  end.

Lemma private_neutral h {A : Type} (c : code A) : all_ops neutral_op c -> private h c.
Proof.
  induction c as [a|fmt args|msg|X op k IH]; simpl; try done.
  intros [Hop Hk]. split; [by destruct op|]. intros x _. by apply IH.
Qed.

Lemma publishes_neutral_bind h oc {A B : Type} (c : code A) (g : A -> code B) :
  all_ops neutral_op c -> (forall a, publishes h oc (g a)) -> publishes h oc (bind c g).
Proof.
  induction c as [a|fmt args|msg|X op k IH]; simpl; try done.
  intros [Hop Hk] Hg. split; [by destruct op|]. intros x _.
  replace (bound_after h op x) with h by (by destruct op).
  replace (published_after oc op) with oc by (by destruct op).
  by apply IH.
Qed.

Lemma publishes_readCorpus_records {B : Type} target (g : list loc -> code B) recs :
  forall h progs,
    Forall (fun l => (l < h)%nat) progs ->
    (forall h' ps, Forall (fun l => (l < h')%nat) ps -> publishes h' None (g ps)) ->
    publishes h None (bind (readCorpus_records target recs progs) g).
Proof.
  induction recs as [|rec recs IH]; intros h progs Hprogs Hg; simpl.
  - by apply Hg.
  - split; [done|]. intros [l|e] Hl; simpl; [|done].
    apply IH; [|done]. apply Forall_app. split.
    + eapply Forall_impl; [exact Hprogs|]. simpl in *. intros; lia.
    + constructor; [lia|done].
Qed.

Lemma publishes_spawn {B : Type} (g : unit -> code B) n : forall h oc pid sh,
  Forall (fun l => (l < h)%nat) (sh_corpus sh) ->
  oc = None \/ oc = Some (sh_corpus sh) ->
  (forall oc' a, publishes h oc' (g a)) ->
  publishes h oc (bind (spawn n pid sh) g).
Proof.
  induction n as [|n IH]; intros h oc pid sh Hc Hoc Hg; simpl; [done|].
  split; [done|]. intros x _. apply IH; auto.
Qed.

Ltac walk_private :=
  repeat first
    [ progress simpl
    | match goal with
      | |- _ /\ _ => split
      | |- True => exact I
      | |- forall _, _ => intros ?
      | |- (_ <= _)%nat => assumption
      | |- private _ (if ?b then _ else _) => destruct b
      | |- private _ (match ?x with _ => _ end) => destruct x
      | |- private _ ((if ?b then _ else _) ≫= _) => destruct b
      | |- private _ ((match ?x with _ => _ end) ≫= _) => destruct x
      end ].

Section Corpus.

Variable B : Build.
Variable fl : CmdLine.

Lemma execute_private h pid env opts p : private h (execute fl pid env opts p).
Proof.
  apply private_neutral. eapply all_ops_mono; [|apply execute_ops]. by intros X [].
Qed.

Lemma reporter_neutral : all_ops neutral_op reporter_body.
Proof. eapply all_ops_mono; [|apply reporter_ops]. by intros X []. Qed.

Lemma worker_prologue_private h sh pid : private h (worker_prologue sh pid).
Proof. unfold worker_prologue, perform. walk_private. Qed.

Lemma worker_body_private h sh pid w i : private h (worker_body fl sh pid w i).
Proof. unfold worker_body, index, perform. walk_private. Qed.

Lemma buildCallList_neutral target enabled :
  all_ops neutral_op (buildCallList B fl target enabled).
Proof.
  unfold buildCallList, perform.
  walk_ops; first [ apply mark_enabled_ops | apply log_disabled_ops ]; done.
Qed.

Lemma main_publishes : publishes 0 None (main B fl).
Proof.
  unfold main, readCorpus, perform.
  repeat first
    [ rewrite mbind_bind
    | progress simpl
    | match goal with
      | |- _ /\ _ => split
      | |- True => exact I
      | |- _ = _ => reflexivity
      | |- forall _, _ => intros ?
      | |- publishes _ _ (if ?b then _ else _) => destruct b
      | |- publishes _ _ (match ?x with _ => _ end) => destruct x
      | |- publishes _ _ (bind (if ?b then _ else _) _) => destruct b
      | |- publishes _ _ (bind (match ?x with _ => _ end) _) => destruct x
      | |- publishes _ _ (bind (buildCallList _ _ _ _) _) =>
          apply publishes_neutral_bind; [apply buildCallList_neutral|]
      | |- publishes _ _ (bind (readCorpus_records _ _ _) _) =>
          apply publishes_readCorpus_records; [by constructor|]
      | |- publishes _ _ (bind (spawn _ _ _) _) =>
          apply publishes_spawn; [done|by left|]
      end ].
Qed.

End Corpus.

(** *** The programs in the heap *)

Lemma effect_heap_length {X : Type} d (op : Op X) x s :
  (length (heap s) <= length (heap (effect d op x s)))%nat.
Proof.
  destruct op; simpl; try done; repeat case_match; simpl;
    rewrite ?length_app, ?length_insert; simpl; lia.
Qed.

Lemma resolve_fresh {X : Type} h (op : Op X) a x s :
  resolve s op a = Some x -> (h <= length (heap s))%nat -> fresh_answer h op x.
Proof.
  destruct op; simpl; try done.
  - destruct a; intros [= <-]; done.
  - by intros [= <-].
  - by intros [= <-].
Qed.

Lemma bound_after_heap {X : Type} h d (op : Op X) a x s :
  resolve s op a = Some x -> (h <= length (heap s))%nat ->
  (bound_after h op x <= length (heap (effect d op x s)))%nat.
Proof.
  intros Hx Hh. pose proof (effect_heap_length d op x s).
  destruct op; simpl in *; try lia.
  destruct a; injection Hx as <-; simpl; rewrite ?length_app; simpl; lia.
Qed.

(** An operation that mutates only at or above [h] leaves the programs
    below [h] as they are. *)
Lemma heap_below {X : Type} h d (op : Op X) x s l :
  (forall p, mutate_receiver (Ev op x) = Some p -> (h <= p)%nat) ->
  (h <= length (heap s))%nat -> (l < h)%nat ->
  heap (effect d op x s) !! l = heap s !! l.
Proof.
  intros Hm Hh Hl. destruct op; simpl in *; try done.
  - destruct x; simpl; [|done]. apply lookup_app_l. lia.
  - apply lookup_app_l. lia.
  - specialize (Hm _ eq_refl). apply list_lookup_insert_ne. lia.
  - case_match; simpl; [|done]. apply lookup_app_l. lia.
Qed.

(** *** The invariant *)

(** What each goroutine still does, when the programs allocated at
    start-up are those below [h] and the corpus [oc] is published. *)
Definition thread_ok (h : nat) (oc : option (list loc)) (t : thread) : Prop :=
  match t_base t with
  | BMain c => frames t = [] /\ publishes h oc c
  | BReporter c => frames t = [] /\ all_ops neutral_op c
  | BInit _ sh c =>
      oc = Some (sh_corpus sh) /\ private h c /\ Forall (private h) (frames t)
  | BLoop _ sh _ _ c =>
      oc = Some (sh_corpus sh) /\ private h c /\ Forall (private h) (frames t)
  end.

(** A mutation in the trace was of a program at or above [h], after
    the corpus was published. *)
Definition event_above (h : nat) (oc : option (list loc)) (te : nat * event) : Prop :=
  forall p, mutate_receiver te.2 = Some p -> (h <= p)%nat /\ is_Some oc.

Record corpus_inv (h : nat) (oc : option (list loc)) (s : state) : Prop := {
  ci_heap : (h <= length (heap s))%nat;
  ci_threads : Forall (thread_ok h oc) (threads s);
  ci_alone : oc = None -> length (threads s) = 1%nat;
  ci_corpus : forall corpus, oc = Some corpus -> Forall (fun l => (l < h)%nat) corpus;
  ci_trace : Forall (event_above h oc) (trace s)
}.

Section CorpusInvariant.

Variable B : Build.
Variable fl : CmdLine.

Lemma thread_ok_returned h oc t r :
  thread_ok h oc t ->
  act_code (activation_of fl t) = Ret r ->
  thread_ok h oc (act_returned (activation_of fl t) r).
Proof.
  unfold thread_ok.
  destruct t as [[|f fs] b]; destruct b; simpl; intros H Hc; simpl in *;
    try (destruct H as [? ?]; discriminate).
  - split; [done|apply reporter_neutral].
  - split; [done|apply reporter_neutral].
  - destruct H as (? & ? & ?). split; [done|]. split; [apply worker_body_private|done].
  - destruct H as (? & ? & ?). split; [done|]. split; [apply worker_body_private|done].
  - destruct H as (? & ? & Hf). split; [done|]. split; [done|]. by inversion Hf.
  - destruct H as (? & ? & Hf). split; [done|]. split; [done|]. by inversion Hf.
Qed.

(** What an operation of private code does. *)
Lemma private_op_moved h oc {X : Type} (op : Op X) x :
  private_op h X op ->
  bound_after h op x = h /\ published_after oc op = oc /\ spawned op = [] /\
  Forall (private h) (call_of fl op) /\
  (forall p, mutate_receiver (Ev op x) = Some p -> (h <= p)%nat).
Proof.
  destruct op; simpl; try done; intros Hop; repeat split; try done.
  - by intros p' [= <-].
  - constructor; [apply execute_private|done].
Qed.

(** A goroutine that performs an operation. *)
Lemma thread_ok_moved h oc t X (op : Op X) k x :
  thread_ok h oc t ->
  act_code (activation_of fl t) = Do op k ->
  fresh_answer h op x ->
  thread_ok (bound_after h op x) (published_after oc op)
    (act_moved (activation_of fl t) (k x) (call_of fl op)) /\
  Forall (thread_ok (bound_after h op x) (published_after oc op)) (spawned op) /\
  (forall p, mutate_receiver (Ev op x) = Some p -> (h <= p)%nat /\ is_Some oc) /\
  ((bound_after h op x = h /\ published_after oc op = oc) \/ oc = None) /\
  (forall corpus, published_after oc op = Some corpus ->
     oc = Some corpus \/ Forall (fun l => (l < bound_after h op x)%nat) corpus) /\
  (published_after oc op = None -> spawned op = [] /\ oc = None).
Proof.
  unfold thread_ok.
  destruct t as [[|f fs] b]; destruct b; simpl; intros H Hc Hx; simpl in *; subst;
    try (destruct H as [? ?]; discriminate).
  - (* main, in its start-up *)
    destruct H as (_ & Hop & Hk). specialize (Hk x Hx).
    destruct op; simpl in *; try done; try (repeat split; auto; done).
    destruct Hop as [Hc Hoc]. split; [done|]. split.
    { constructor; [|done]. simpl. split; [done|].
      split; [apply (worker_prologue_private h sh pid)|done]. }
    split; [done|]. split; [destruct Hoc as [-> | ->]; auto|].
    split; [|done]. intros corpus [= <-]. by right.
  - (* main, in its ticker loop *)
    destruct H as (_ & Hop & Hk).
    assert (Hp : private_op h X op) by (by destruct op).
    destruct (private_op_moved h oc op x Hp) as (-> & -> & -> & _ & Hm).
    assert (Hcall : call_of fl op = []) by (by destruct op).
    rewrite Hcall. repeat split; auto; intros; by destruct op.
  - (* a worker, before its loop *)
    destruct H as (Hoc & [Hop Hk] & Hf).
    destruct (private_op_moved h oc op x Hop) as (-> & -> & -> & Hcall & Hm).
    repeat split; auto.
  - (* a worker, in its loop *)
    destruct H as (Hoc & [Hop Hk] & Hf).
    destruct (private_op_moved h oc op x Hop) as (-> & -> & -> & Hcall & Hm).
    repeat split; auto.
  - (* a worker in execute, before its loop *)
    destruct H as (Hoc & Hc & Hf). inversion Hf as [|? ? Hd Hfs]; subst.
    simpl in Hd. destruct Hd as [Hop Hk].
    destruct (private_op_moved h (Some (sh_corpus sh)) op x Hop) as (-> & -> & -> & Hcall & Hm).
    repeat split; auto. apply Forall_app. split; [done|]. constructor; auto.
  - (* a worker in execute *)
    destruct H as (Hoc & Hc & Hf). inversion Hf as [|? ? Hd Hfs]; subst.
    simpl in Hd. destruct Hd as [Hop Hk].
    destruct (private_op_moved h (Some (sh_corpus sh)) op x Hop) as (-> & -> & -> & Hcall & Hm).
    repeat split; auto. apply Forall_app. split; [done|]. constructor; auto.
Qed.

Lemma event_above_quiet h oc tid e :
  mutate_receiver e = None -> event_above h oc (tid, e).
Proof. intros He p. simpl. by rewrite He. Qed.

(** In every state the process can reach there are a bound [h] and a
    published corpus [oc] for which the invariant holds. *)
Lemma reachable_corpus s : reachable B fl s -> exists h oc, corpus_inv h oc s.
Proof.
  induction 1 as [|s ch s' Hr (h & oc & [Hh Hts Hal Hco Htr]) Hstep].
  - exists 0%nat, None. constructor; simpl; try done.
    constructor; [|done]. split; [done|apply main_publishes].
  - apply step_inv in Hstep as [Hex Hstep].
    destruct Hstep as [t r Ht Hc|t fmt args Ht Hc|t msg Ht Hc|t X op k x msg Ht Hc Hx Hb Hf
                      |t X op k x Ht Hc Hx Hb Hf].
    + exists h, oc. constructor; simpl; rewrite ?length_insert; try done.
      apply Forall_insert; [done|]. apply thread_ok_returned; [|done].
      by eapply Forall_lookup_1.
    + exists h, oc. constructor; simpl; try done.
      apply Forall_app. split; [done|]. constructor; [|done]. by apply event_above_quiet.
    + exists h, oc. constructor; simpl; try done.
      apply Forall_app. split; [done|]. constructor; [|done]. by apply event_above_quiet.
    + exists h, oc. constructor; simpl; try done.
      apply Forall_app. split; [done|]. constructor; [|done]. by apply event_above_quiet.
    + assert (Ht' : thread_ok h oc t) by (by eapply Forall_lookup_1).
      pose proof (resolve_fresh h op _ x s Hx Hh) as Hfresh.
      destruct (thread_ok_moved h oc t X op k x Ht' Hc Hfresh)
        as (Hmv & Hsp & Hm & Hsame & Hcorp & Hnone).
      exists (bound_after h op x), (published_after oc op).
      constructor; simpl; rewrite ?effect_threads, ?effect_trace.
      * by eapply bound_after_heap.
      * destruct Hsame as [[E1 E2]|E].
        { rewrite E1, E2 in *. apply Forall_insert; [|done]. apply Forall_app. by split. }
        specialize (Hal E).
        destruct (threads s) as [|t0 [|t1 ts]]; simpl in Hal; try lia.
        destruct (ch_tid ch) as [|n]; simpl in Ht; [|done]. simpl.
        constructor; done.
      * intros Hoc. destruct (Hnone Hoc) as [E1 E2].
        rewrite length_insert, length_app, E1. simpl. rewrite Hal; done.
      * intros corpus Hoc. destruct (Hcorp corpus Hoc) as [E|]; [|done].
        destruct Hsame as [[E1 _]|E']; [|congruence]. rewrite E1. by apply Hco.
      * apply Forall_app. split.
        { destruct Hsame as [[E1 E2]|E]; [by rewrite E1, E2|].
          eapply Forall_impl; [exact Htr|]. intros te Hte p Hp.
          destruct (Hte p Hp) as [_ [? ?]]. congruence. }
        constructor; [|done]. intros p Hp. simpl in Hp.
        destruct (Hm p Hp) as [Hhp [c' Hc']].
        destruct Hsame as [[E1 E2]|E]; [|congruence]. rewrite E1, E2.
        split; [done|by eexists].
Qed.

End CorpusInvariant.


(** The corpora that the workers of a state have captured. *)
Definition workers_corpora (s : state) : list (list loc) :=
  omap (fun t => sh_corpus <$> worker_shared t) (threads s).

(** C5: the corpus a worker has captured is never mutated in place.  In
    every state the process can reach, the entries of the corpus are
    programs of the heap; no [Mutate] performed so far, by any worker,
    had an entry as its receiver; no step of any goroutine changes the
    contents of an entry; and in every worker iteration each [Mutate] is
    applied to the program that the iteration itself obtained before, from
    the generator or by [Clone]. *)
Theorem corpus_never_mutated B fl s corpus :
  reachable B fl s ->
  corpus ∈ workers_corpora s ->
  Forall (fun l => is_Some (heap s !! l)) corpus /\
  (forall te p, te ∈ trace s -> mutate_receiver te.2 = Some p -> p ∉ corpus) /\
  (forall ch s',
     step fl s ch = Some s' ->
     forall l, l ∈ corpus -> heap s' !! l = heap s !! l) /\
  (forall sh pid w i (o : oracle) k j e p,
     (run_code o k (worker_body fl sh pid w i)).1 !! j = Some e ->
     mutate_receiver e = Some p ->
     exists j' e',
       (j' < j)%nat /\
       (run_code o k (worker_body fl sh pid w i)).1 !! j' = Some e' /\
       produced e' = Some p).
Proof.
  intros Hr Hin.
  destruct (reachable_corpus B fl s Hr) as (h & oc & [Hh Hts Hal Hco Htr]).
  assert (Hbelow : Forall (fun l => (l < h)%nat) corpus).
  { apply list_elem_of_omap in Hin as (t & Ht & Hsh).
    rewrite Forall_forall in Hts. specialize (Hts t Ht).
    unfold thread_ok, worker_shared in *. apply Hco.
    destruct (t_base t); simpl in *; try done;
      destruct Hts as (-> & _); by injection Hsh as <-. }
  rewrite Forall_forall in Hbelow.
  split; [|split; [|split]].
  - apply Forall_forall. intros l Hl. apply lookup_lt_is_Some.
    specialize (Hbelow l Hl). lia.
  - intros te p Hte Hp Hpc. rewrite Forall_forall in Htr.
    destruct (Htr te Hte p Hp) as [Hhp _]. specialize (Hbelow p Hpc). lia.
  - intros ch s' Hstep l Hl. specialize (Hbelow l Hl).
    apply step_inv in Hstep as [Hex Hstep].
    destruct Hstep as [t r Ht Hc|t fmt args Ht Hc|t msg Ht Hc|t X op k x msg Ht Hc Hx Hb Hf
                      |t X op k x Ht Hc Hx Hb Hf]; simpl; try done.
    assert (Ht' : thread_ok h oc t) by (by eapply Forall_lookup_1).
    pose proof (resolve_fresh h op _ x s Hx Hh) as Hfresh.
    destruct (thread_ok_moved fl h oc t X op k x Ht' Hc Hfresh) as (_ & _ & Hm & _).
    apply (heap_below h); [|done|done]. intros p Hp. by apply Hm.
  - intros. by eapply mutate_receiver_produced.
Qed.

Lemma corpus_never_mutated_witness :
  Forall (fun l => is_Some (heap second_iteration_begun !! l)) [O] /\
  forall ch s',
    step corpus_flags second_iteration_begun ch = Some s' ->
    heap s' !! O = heap second_iteration_begun !! O.
Proof.
  assert (E : workers_corpora second_iteration_begun = [[O]]) by (vm_compute; reflexivity).
  destruct (corpus_never_mutated linux_build corpus_flags second_iteration_begun [O])
    as (H1 & _ & H3 & _).
  - apply runs_reachable. vm_compute. reflexivity.
  - rewrite E. apply list_elem_of_here.
  - split; [exact H1|]. intros ch s' Hstep. apply (H3 ch s' Hstep). apply list_elem_of_here.
Defined.

(** * More of the driver *)

(** ** What execute prints *)

Definition op_lock : opclass := fun X op =>
  match op with outMuLock => true | _ => false end.
Definition op_unlock : opclass := fun X op =>
  match op with outMuUnlock => true | _ => false end.

(** What an event prints with [fmt.Printf]. *)
Definition printed (e : event) : option (string * list arg) :=
  match e with
  | Ev op _ => match op with Printf fmt args => Some (fmt, args) | _ => None end
  | _ => None
  end.

(** What an event writes to [os.Stdout]. *)
Definition stdout_written (e : event) : option (list Byte.byte) :=
  match e with
  | Ev op _ => match op with StdoutWrite b => Some b | _ => None end
  | _ => None
  end.

(** What [env.Exec] returned in an event. *)
Definition executed (e : event) : option ExecResult :=
  match e with
  | Ev op x =>
      match op in Op X return X -> option ExecResult with
      | EnvExec _ _ _ => fun r => Some r
      | _ => fun _ => None
      end x
  | _ => None
  end.

(** The text of the program in an event. *)
Definition serialized (e : event) : option string :=
  match e with
  | Ev op x =>
      match op in Op X return X -> option string with
      | Serialize _ => fun s => Some s
      | _ => fun _ => None
      end x
  | _ => None
  end.

(** X1: the console output of one call of [execute], in the order it
    happens: the counter is incremented; with logprog the program is
    announced (under the gate and the mutex) before it runs; the
    program runs; an executor error is reported; then, exactly when the
    program hanged, the executor failed or [-output] is set, the
    program text is printed and after it the executor's output is
    written to stdout; with logprog the ticket is given back last.
    Nothing else is printed, and what is written to stdout is the output
    the executor returned. *)
Theorem execute_console_output fl pid env opts p (o : oracle) n :
  let tr := (run_code o n (execute fl pid env opts p)).1 in
  exists r,
    omap executed tr = [r] /\
    let dump := hanged r || bool_decide (exec_err r <> None) || flagOutput fl in
    omap stdout_written tr = (if dump then [output r] else []) /\
    exists texts,
      omap serialized tr = texts /\
      length texts = ((if flagLogProg fl then 1 else 0) + (if dump then 1 else 0))%nat /\
      omap printed tr =
        (if flagLogProg fl
         then [("executing program %v\n%s\n", [AInt pid; AStr (default "" (texts !! O))])]
         else []) ++
        match exec_err r with
        | Some e => [("failed to execute executor: %v\n", [AErr e])]
        | None => []
        end ++
        (if dump then [("PROGRAM:\n%s\n", [AStr (default "" (last texts))])] else []) /\
      exists ticket announced dumped,
        tr =
          [Ev (AtomicAddStatExec 1) tt] ++
          (if flagLogProg fl
           then [Ev GateEnter ticket;
                 Ev outMuLock tt;
                 Ev (Serialize p) announced;
                 Ev (Printf "executing program %v\n%s\n" [AInt pid; AStr announced]) tt;
                 Ev outMuUnlock tt]
           else []) ++
          [Ev (EnvExec env opts p) r] ++
          match exec_err r with
          | Some e => [Ev (Printf "failed to execute executor: %v\n" [AErr e]) tt]
          | None => []
          end ++
          (if dump
           then [Ev (Serialize p) dumped;
                 Ev (Printf "PROGRAM:\n%s\n" [AStr dumped]) tt;
                 Ev (StdoutWrite (output r)) tt]
           else []) ++
          (if flagLogProg fl then [Ev (GateLeave ticket) tt] else []).
Proof.
  unfold execute. destruct (flagLogProg fl); cbn.
  - destruct (o (S (S (S (S (S (S n)))))) _ (EnvExec env opts p)) as [out h [e|]] eqn:Hr;
      destruct h, (flagOutput fl); cbn;
      repeat match goal with |- context [o ?m unit ?op] => destruct (o m unit op) end;
      eexists; (split; [reflexivity|]); cbn; (split; [reflexivity|]);
      eexists; (split; [reflexivity|]); (split; [reflexivity|]); (split; [reflexivity|]);
      eexists _, _, _; cbn; reflexivity.
  - destruct (o (S n) _ (EnvExec env opts p)) as [out h [e|]] eqn:Hr;
      destruct h, (flagOutput fl); cbn;
      repeat match goal with |- context [o ?m unit ?op] => destruct (o m unit op) end;
      eexists; (split; [reflexivity|]); cbn; (split; [reflexivity|]);
      eexists; (split; [reflexivity|]); (split; [reflexivity|]); (split; [reflexivity|]);
      eexists _, _, _; cbn; reflexivity.
  Unshelve. all: first [exact 0 | exact ""].
Qed.

(** X2: the mutex of the console is not held while the program runs: with
    logprog, [execute] locks and unlocks [outMu] exactly once and has
    unlocked it before it calls [env.Exec]; without logprog it touches
    neither the mutex nor the gate. *)
Theorem execute_unlocks_before_exec fl pid env opts p (o : oracle) n :
  let tr := (run_code o n (execute fl pid env opts p)).1 in
  if flagLogProg fl
  then position (holds op_lock) tr = Some 2%nat /\
       position (holds op_unlock) tr = Some 5%nat /\
       position (holds op_exec) tr = Some 6%nat /\
       count (holds op_lock) tr = 1%nat /\
       count (holds op_unlock) tr = 1%nat
  else count (holds op_lock) tr = O /\
       count (holds op_unlock) tr = O /\
       count (holds op_gate_enter) tr = O /\
       count (holds op_gate_leave) tr = O /\
       position (holds op_exec) tr = Some 1%nat.
Proof.
  unfold execute. destruct (flagLogProg fl); cbn.
  - destruct (o (S (S (S (S (S (S n)))))) _ (EnvExec env opts p)) as [out h [e|]];
      destruct h, (flagOutput fl); cbn; done.
  - destruct (o (S n) _ (EnvExec env opts p)) as [out h [e|]];
      destruct h, (flagOutput fl); cbn; done.
Qed.

(** ** The seeds of the workers *)

(** The seed an event gives to [rand.NewSource]. *)
Definition seeded (e : event) : option Z :=
  match e with
  | Ev op _ => match op with NewSource seed => Some seed | _ => None end
  | _ => None
  end.

(** What an event read from the clock. *)
Definition clock_read (e : event) : option Z :=
  match e with
  | Ev op x =>
      match op in Op X return X -> option Z with
      | UnixNano => fun now => Some now
      | _ => fun _ => None
      end x
  | _ => None
  end.

Lemma wrap64_inj_mod a b : wrap64 a = wrap64 b -> a mod 2 ^ 64 = b mod 2 ^ 64.
Proof. intros H. by rewrite <- (wrap64_mod a), <- (wrap64_mod b), H. Qed.

Lemma seed_collision now1 now2 p q :
  now1 = now2 ->
  wrap64 (now1 + wrap64 (p * 10 ^ 12)) = wrap64 (now2 + wrap64 (q * 10 ^ 12)) ->
  (2 ^ 52 | q - p).
Proof.
  intros -> H. apply wrap64_inj_mod in H.
  rewrite <- (Zplus_mod_idemp_r (wrap64 (p * 10 ^ 12))) in H.
  rewrite <- (Zplus_mod_idemp_r (wrap64 (q * 10 ^ 12))) in H.
  rewrite !wrap64_mod, !Zplus_mod_idemp_r in H.
  assert (Hd : (2 ^ 64 | (q - p) * 10 ^ 12)).
  { apply Z.mod_divide; [lia|].
    replace ((q - p) * 10 ^ 12) with ((now2 + q * 10 ^ 12) - (now2 + p * 10 ^ 12)) by lia.
    rewrite Zminus_mod, H, Z.sub_diag. done. }
  replace (2 ^ 64) with (2 ^ 52 * 2 ^ 12) in Hd by lia.
  replace ((q - p) * 10 ^ 12) with (((q - p) * 5 ^ 12) * 2 ^ 12) in Hd by lia.
  apply Z.mul_divide_cancel_r in Hd; [|lia].
  rewrite Z.mul_comm in Hd. apply Z.gauss in Hd; [done|]. by vm_compute.
Qed.

(** X3: two workers that read the same clock value seed their generators
    differently, for any two pids less than 2^52 apart: the pid is
    scaled by 1e12 before it is added to the clock, and 1e12 pids apart
    wrap around to the same int64 only at multiples of 2^52. *)
Theorem worker_seeds_distinct sh1 sh2 (o1 o2 : oracle) p q s1 s2 :
  0 < q - p < 2 ^ 52 ->
  omap clock_read (events_of o1 (worker_prologue sh1 p)) =
    omap clock_read (events_of o2 (worker_prologue sh2 q)) ->
  s1 ∈ omap seeded (events_of o1 (worker_prologue sh1 p)) ->
  s2 ∈ omap seeded (events_of o2 (worker_prologue sh2 q)) ->
  s1 <> s2.
Proof.
  unfold events_of, worker_prologue. cbn. intros Hpq.
  destruct (o1 O _ (MakeEnv (sh_config sh1) p)) as [env1|e1]; cbn;
    [|intros _ H; by apply elem_of_nil in H].
  destruct (o2 O _ (MakeEnv (sh_config sh2) q)) as [env2|e2]; cbn;
    [|intros _ _ H; by apply elem_of_nil in H].
  intros Hnow H1 H2 E.
  apply list_elem_of_singleton in H1, H2. subst s1 s2.
  injection Hnow as Hnow.
  apply (seed_collision _ _ _ _ Hnow) in E.
  apply Z.divide_pos_le in E; lia.
Qed.

Lemma worker_seeds_distinct_witness :
  wrap64 (0 + wrap64 (0 * 10 ^ 12)) <> wrap64 (0 + wrap64 (1 * 10 ^ 12)).
Proof.
  apply (worker_seeds_distinct
           {| sh_target := {| Syscalls := []; SyscallName := fun _ => "" |};
              sh_corpus := []; sh_ct := choiceTable 0;
              sh_config := {| Flags := 0; ConfigRest := 0 |}; sh_execOpts := execOpts_ 0 |}
           {| sh_target := {| Syscalls := []; SyscallName := fun _ => "" |};
              sh_corpus := []; sh_ct := choiceTable 0;
              sh_config := {| Flags := 0; ConfigRest := 0 |}; sh_execOpts := execOpts_ 0 |}
           (fun _ => answer quiet_world) (fun _ => answer quiet_world) 0 1).
  - lia.
  - reflexivity.
  - apply list_elem_of_here.
  - apply list_elem_of_here.
Defined.

(** ** readCorpus: the programs in the order of the records *)

Lemma readCorpus_records_trace target (o : oracle) recs : forall n progs ps,
  (run_code o n (readCorpus_records target recs progs)).2 = Returned ps ->
  exists locs,
    ps = progs ++ locs /\ length locs = length recs /\
    (run_code o n (readCorpus_records target recs progs)).1 =
      zip_with (fun rec p => Ev (Deserialize target (Val rec) NonStrict) (Ok p)) recs locs.
Proof.
  induction recs as [|rec recs IH]; intros n progs ps; simpl.
  - intros [= <-]. exists []. by rewrite app_nil_r.
  - destruct (o n _ (Deserialize target (Val rec) NonStrict)) as [p|e] eqn:Hd; simpl; [|done].
    intros Hps. destruct (IH _ _ _ Hps) as (locs & -> & Hlen & Htr).
    exists (p :: locs). rewrite <- app_assoc. simpl. by rewrite Hlen, Htr.
Qed.

(** X4: when [readCorpus] returns a corpus read from a store, all it did was
    open the store and deserialize its records one by one, in the
    store's order, each in non-strict mode for the target; the corpus is
    the programs it got, in that order. *)
Theorem readCorpus_keeps_order fl target (o : oracle) n ps :
  flagCorpus fl <> "" ->
  (run_code o n (readCorpus fl target)).2 = Returned ps ->
  exists db,
    length ps = length (Records db) /\
    (run_code o n (readCorpus fl target)).1 =
      Ev (dbOpen (flagCorpus fl)) (Ok db) ::
      zip_with (fun rec p => Ev (Deserialize target (Val rec) NonStrict) (Ok p))
        (Records db) ps.
Proof.
  intros Hpath. unfold readCorpus. apply String.eqb_neq in Hpath. rewrite Hpath. cbn.
  destruct (o n _ (dbOpen (flagCorpus fl))) as [db|e]; cbn; [|done].
  intros Hps. destruct (readCorpus_records_trace _ _ _ _ _ _ Hps) as (locs & -> & Hlen & ->).
  exists db. done.
Qed.

Lemma readCorpus_keeps_order_witness :
  exists db,
    length [O] = length (Records db) /\
    (run_code (fun _ => answer one_record_world) 0 (readCorpus corpus_flags empty_target)).1 =
      Ev (dbOpen (flagCorpus corpus_flags)) (Ok db) ::
      zip_with (fun rec p => Ev (Deserialize empty_target (Val rec) NonStrict) (Ok p))
        (Records db) [O].
Proof.
  apply (readCorpus_keeps_order corpus_flags empty_target
           (fun _ => answer one_record_world) 0 [O]).
  - discriminate.
  - reflexivity.
Defined.

(** ** buildCallList: the list of calls it returns *)

Lemma foldl_insert_true (l : list sysref) : forall (m : CallSet) c,
  foldl (fun calls c => <[c := true]> calls) m l !! c =
    if bool_decide (c ∈ l) then Some true else m !! c.
Proof.
  unfold CallSet. induction l as [|c0 l IH]; intros m c; simpl; [done|].
  rewrite IH. destruct (decide (c ∈ l)) as [Hin|Hin].
  - rewrite !bool_decide_eq_true_2; [done| |done]. by apply list_elem_of_further.
  - rewrite (bool_decide_eq_false_2 (c ∈ l)) by done.
    destruct (decide (c = c0)) as [->|Hne].
    + rewrite lookup_insert_eq, bool_decide_eq_true_2; [done|]. apply list_elem_of_here.
    + rewrite lookup_insert_ne by done.
      rewrite bool_decide_eq_false_2; [done|].
      intros H. apply elem_of_cons in H as [H|H]; done.
Qed.

(** X5: for a target OS other than the controller's own, [buildCallList]
    asks the host nothing and does not look at the allow-list: it
    returns every syscall of the target, enabled, and nothing else. *)
Theorem buildCallList_other_os B fl target enabled (o : oracle) n :
  flagOS fl <> GOOS B ->
  exists calls,
    run_code o n (buildCallList B fl target enabled) = ([], Returned calls) /\
    forall c, calls !! c = if bool_decide (c ∈ Syscalls target) then Some true else None.
Proof.
  intros Hos. apply String.eqb_neq in Hos. unfold buildCallList. rewrite Hos. cbn.
  eexists. split; [reflexivity|]. intros c. by rewrite foldl_insert_true.
Qed.

Definition freebsd_flags : CmdLine := {|
  flagOS := "freebsd"; flagArch := "amd64"; flagCorpus := ""; flagOutput := false;
  flagProcs := 1; flagLogProg := false; flagGenerate := true; flagSyscalls := "";
  flagEnable := "none"; flagDisable := "none"
|}.

Definition two_call_target : Target :=
  {| Syscalls := [7%nat; 9%nat]; SyscallName := fun _ => "call" |}.

Lemma buildCallList_other_os_witness :
  exists calls,
    run_code (fun _ => answer quiet_world) 0
      (buildCallList linux_build freebsd_flags two_call_target [""]) = ([], Returned calls) /\
    forall c, calls !! c = if bool_decide (c ∈ Syscalls two_call_target) then Some true else None.
Proof.
  apply (buildCallList_other_os linux_build freebsd_flags two_call_target [""]
           (fun _ => answer quiet_world) 0).
  discriminate.
Defined.

(** X6: on the controller's own OS, when the host's calls are detected and
    the allow-list resolves to valid ids, the list [buildCallList]
    returns is what [TransitivelyEnabledCalls] answers for the detected
    calls that the allow-list names.  In between it logs each detected
    disabled call that the allow-list names (one line each, in the
    order the map yields them), and afterwards each call disabled
    transitively; it does nothing else. *)
Theorem buildCallList_same_os B fl target enabled (o : oracle) n calls disabled ids :
  flagOS fl = GOOS B ->
  enabled <> [] ->
  o n _ (DetectSupportedSyscalls target "none") = Ok (calls, disabled) ->
  o (S n) _ (ParseEnabledSyscalls target enabled []) = Ok ids ->
  valid_ids target ids ->
  let named c := exists id, id ∈ ids /\ Syscalls target !! Z.to_nat id = Some c in
  exists (calls1 : CallSet) (disabled1 : Disabled) logs1 logs2,
    (forall c v, calls1 !! c = Some v <-> calls !! c = Some v /\ named c) /\
    (forall c v, disabled1 !! c = Some v <-> disabled !! c = Some v /\ named c) /\
    logs1 ≡ₚ map (disabled_logged target "unsupported syscall: %v: %v")
               (map_to_list disabled1) /\
    let answered :=
      o (S (S (n + length logs1))) _ (TransitivelyEnabledCalls target calls1) in
    logs2 ≡ₚ map (disabled_logged target "transitively unsupported: %v: %v")
               (map_to_list answered.2) /\
    run_code o n (buildCallList B fl target enabled) =
      ([Ev (DetectSupportedSyscalls target "none") (Ok (calls, disabled));
        Ev (ParseEnabledSyscalls target enabled []) (Ok ids)] ++
       logs1 ++
       [Ev (TransitivelyEnabledCalls target calls1) answered] ++
       logs2,
       Returned answered.1).
Proof.
  intros Hos Hen Hd Hp Hv.
  exact (buildCallList_same_os_run B fl target enabled o n calls disabled ids
           Hos Hen Hd Hp Hv).
Qed.

(** X7: without an allow-list (an empty slice, which [main] never passes)
    nothing is filtered and nothing is resolved: the detected calls go
    to [TransitivelyEnabledCalls] as they are, after a log line for
    each detected disabled call. *)
Theorem buildCallList_without_allow_list B fl target (o : oracle) n calls disabled :
  flagOS fl = GOOS B ->
  o n _ (DetectSupportedSyscalls target "none") = Ok (calls, disabled) ->
  exists logs1 logs2,
    logs1 ≡ₚ map (disabled_logged target "unsupported syscall: %v: %v")
               (map_to_list disabled) /\
    let answered := o (S (n + length logs1)) _ (TransitivelyEnabledCalls target calls) in
    logs2 ≡ₚ map (disabled_logged target "transitively unsupported: %v: %v")
               (map_to_list answered.2) /\
    run_code o n (buildCallList B fl target []) =
      ([Ev (DetectSupportedSyscalls target "none") (Ok (calls, disabled))] ++
       logs1 ++
       [Ev (TransitivelyEnabledCalls target calls) answered] ++
       logs2,
       Returned answered.1).
Proof.
  intros Hos Hd. eexists _, _. split; [reflexivity|]. cbn zeta. split; [reflexivity|].
  unfold buildCallList. rewrite Hos, String.eqb_refl. cbn.
  rewrite Hd. cbn. change (negb (len (@nil string) =? 0)) with false. cbn.
  rewrite mbind_bind, run_code_bind, log_disabled_run. cbn.
  destruct (o _ _ (TransitivelyEnabledCalls target calls)) as [calls2 disabled2]. cbn.
  rewrite mbind_bind, run_code_bind, log_disabled_run. cbn.
  by rewrite app_nil_r.
Qed.

Lemma buildCallList_without_allow_list_witness :
  (run_code (fun _ => answer quiet_world) 0
     (buildCallList linux_build logprog_flags empty_target [])).2 = Returned ∅.
Proof.
  destruct (buildCallList_without_allow_list linux_build logprog_flags empty_target
              (fun _ => answer quiet_world) 0 ∅ ∅ eq_refl eq_refl)
    as (logs1 & logs2 & H1 & H).
  cbn zeta in H. destruct H as [_ H]. rewrite H.
  apply Permutation_length in H1. destruct logs1; [reflexivity|discriminate H1].
Defined.

(** A world where the host supports calls 7 and 9 but not 8, and the
    allow-list names the calls at indices 0 and 1. *)
Definition allow_list_answers : answers := fun X op =>
  match op in Op X return X with
  | DetectSupportedSyscalls _ _ =>
      Ok ({[ 7%nat := true; 9%nat := true ]}, {[ 8%nat := "no such call" ]})
  | ParseEnabledSyscalls _ _ _ => Ok [0; 1]
  | op => answer quiet_world _ op
  end.

Definition three_call_target : Target :=
  {| Syscalls := [7%nat; 8%nat; 9%nat]; SyscallName := fun _ => "call" |}.

Lemma buildCallList_same_os_witness :
  (run_code (fun _ => allow_list_answers) 0
     (buildCallList linux_build logprog_flags three_call_target ["a"; "b"])).2
  <> Panicked.
Proof.
  destruct (buildCallList_same_os linux_build logprog_flags three_call_target ["a"; "b"]
              (fun _ => allow_list_answers) 0
              {[ 7%nat := true; 9%nat := true ]} {[ 8%nat := "no such call" ]} [0; 1])
    as (calls1 & disabled1 & logs1 & logs2 & _ & _ & _ & H).
  - reflexivity.
  - discriminate.
  - reflexivity.
  - reflexivity.
  - repeat constructor; by vm_compute.
  - cbn zeta in H. destruct H as [_ H]. rewrite H. discriminate.
Defined.

(** X8: an id outside [target.Syscalls] in the resolved allow-list makes
    [buildCallList] panic, before it logs anything or computes the
    transitive closure. *)
Theorem buildCallList_bad_id_panics B fl target enabled (o : oracle) n calls disabled ids :
  flagOS fl = GOOS B ->
  enabled <> [] ->
  o n _ (DetectSupportedSyscalls target "none") = Ok (calls, disabled) ->
  o (S n) _ (ParseEnabledSyscalls target enabled []) = Ok ids ->
  ~ valid_ids target ids ->
  run_code o n (buildCallList B fl target enabled) =
    ([Ev (DetectSupportedSyscalls target "none") (Ok (calls, disabled));
      Ev (ParseEnabledSyscalls target enabled []) (Ok ids);
      EvPanic "index out of range"], Panicked).
Proof.
  intros Hos Hen Hd Hp Hv.
  assert (Hlen : (len enabled =? 0) = false) by (destruct enabled; done).
  unfold buildCallList. rewrite Hos, String.eqb_refl. cbn.
  rewrite Hd. cbn. rewrite Hlen. cbn. rewrite Hp. cbn.
  change (mark_enabled target ids ∅ ≫= ?f) with (bind (mark_enabled target ids ∅) f).
  by rewrite (mark_enabled_invalid target ids ∅ Hv).
Qed.

Definition bad_id_answers : answers := fun X op =>
  match op in Op X return X with
  | ParseEnabledSyscalls _ _ _ => Ok [3]
  | op => answer quiet_world _ op
  end.

Lemma buildCallList_bad_id_panics_witness :
  run_code (fun _ => bad_id_answers) 0
    (buildCallList linux_build logprog_flags three_call_target [""]) =
    ([Ev (DetectSupportedSyscalls three_call_target "none") (Ok (∅, ∅));
      Ev (ParseEnabledSyscalls three_call_target [""] []) (Ok [3]);
      EvPanic "index out of range"], Panicked).
Proof.
  apply (buildCallList_bad_id_panics linux_build logprog_flags three_call_target [""]
           (fun _ => bad_id_answers) 0 ∅ ∅ [3]).
  - reflexivity.
  - discriminate.
  - reflexivity.
  - reflexivity.
  - intros H. apply Forall_cons in H as [[_ H] _]. by vm_compute in H.
Defined.

(** ** Errors at start-up *)

Definition on_error {A : Type} (fmt : string) (r : result A) : option event :=
  match r with
  | Err e => Some (EvFatal fmt [AErr e])
  | Ok _ => None
  end.

(** The call of [log.Fatalf] that the driver makes when the operation
    of the event has returned an error: the checks [if err != nil] of
    [main], [readCorpus], [buildCallList] and of the worker. *)
Definition fatal_after (e : event) : option event :=
  match e with
  | Ev op x =>
      match op in Op X return X -> option event with
      | ParseFeaturesFlags _ _ _ => on_error "%v"
      | GetTarget _ _ => on_error "%v"
      | dbOpen _ => on_error "failed to open corpus database: %v"
      | Deserialize _ _ _ => on_error "failed to deserialize corpus program: %v"
      | hostCheck _ => on_error "%v"
      | hostSetup _ _ => on_error "%v"
      | DetectSupportedSyscalls _ _ => on_error "failed to detect host supported syscalls: %v"
      | ParseEnabledSyscalls _ _ _ => on_error "failed to parse enabled syscalls: %v"
      | ipcconfigDefault _ => on_error "%v"
      | MakeEnv _ _ => on_error "failed to create execution environment: %v"
      | _ => fun _ => None
      end x
  | _ => None
  end.

(** Code that answers every error with its [log.Fatalf] at once. *)
Fixpoint fails_fast {A : Type} (c : code A) : Prop :=
  match c with
  | Do op k =>
      (forall x fmt args,
         fatal_after (Ev op x) = Some (EvFatal fmt args) -> k x = Fatalf fmt args) /\
      (forall x, fails_fast (k x))
  | _ => True
  end.

Lemma fails_fast_bind {A B : Type} (c : code A) (f : A -> code B) :
  fails_fast c -> (forall a, fails_fast (f a)) -> fails_fast (bind c f).
Proof.
  intros Hc Hf. induction c as [a|fmt args|msg|X op k IH]; simpl in *; try done.
  destruct Hc as [Herr Hk]. split.
  - intros x fmt args Hx. by rewrite (Herr x fmt args Hx).
  - intros x. by apply IH.
Qed.

Lemma fatal_after_fatal e f : fatal_after e = Some f -> exists fmt args, f = EvFatal fmt args.
Proof.
  destruct e as [X op x| |]; simpl; try done.
  destruct op; simpl; try done; destruct x; simpl; try done; intros [= <-]; by eexists _, _.
Qed.

Lemma fails_fast_run {A : Type} (c : code A) (o : oracle) : forall n j e f,
  fails_fast c ->
  (run_code o n c).1 !! j = Some e ->
  fatal_after e = Some f ->
  (run_code o n c).1 !! S j = Some f /\
  length (run_code o n c).1 = S (S j) /\
  (run_code o n c).2 = Exited.
Proof.
  induction c as [a|fmt args|msg|X op k IH]; simpl; intros n j e f Hc Hj Hf; try done.
  - destruct j; simpl in Hj; [|done]. by injection Hj as <-.
  - destruct j; simpl in Hj; [|done]. by injection Hj as <-.
  - destruct Hc as [Herr Hk]. destruct j as [|j]; simpl in Hj.
    + injection Hj as <-.
      destruct (fatal_after_fatal _ _ Hf) as (fmt & args & ->).
      rewrite (Herr _ fmt args Hf). done.
    + destruct (IH _ (S n) j e f (Hk _) Hj Hf) as (H1 & H2 & H3).
      simpl. rewrite H2. done.
Qed.

Ltac walk_fails :=
  repeat first
    [ rewrite mbind_bind
    | progress simpl
    | match goal with
      | |- _ /\ _ => split
      | |- True => exact I
      | |- forall _, _ => intros ?
      | H : on_error _ (Ok _) = Some _ |- _ => discriminate H
      | H : on_error _ (Err _) = Some _ |- _ => injection H as <- <-
      | H : None = Some _ |- _ => discriminate H
      | |- ?x = ?x => reflexivity
      | H : on_error _ ?r = Some _ |- _ => destruct r
      | |- fails_fast (if ?b then _ else _) => destruct b
      | |- fails_fast (match ?x with _ => _ end) => destruct x
      | |- fails_fast (bind (if ?b then _ else _) _) => destruct b
      | |- fails_fast (bind (match ?x with _ => _ end) _) => destruct x
      end ].

Lemma index_fails_fast {A : Type} (l : list A) i : fails_fast (index l i).
Proof. unfold index. walk_fails. Qed.

Lemma readCorpus_records_fails_fast target recs : forall progs,
  fails_fast (readCorpus_records target recs progs).
Proof. induction recs as [|rec recs IH]; intros progs; unfold perform; walk_fails; auto. Qed.

Lemma readCorpus_fails_fast fl target : fails_fast (readCorpus fl target).
Proof. unfold readCorpus, perform. walk_fails. apply readCorpus_records_fails_fast. Qed.

Lemma mark_enabled_fails_fast target ids : forall m, fails_fast (mark_enabled target ids m).
Proof.
  induction ids as [|id ids IH]; intros m; walk_fails.
  apply fails_fast_bind; [apply index_fails_fast|]. intros c. apply IH.
Qed.

Lemma log_disabled_fails_fast target fmt ds : fails_fast (log_disabled target fmt ds).
Proof. induction ds as [|[c reason] ds IH]; unfold perform; walk_fails; auto. Qed.

Lemma spawn_fails_fast n : forall pid sh, fails_fast (spawn n pid sh).
Proof. induction n as [|n IH]; intros pid sh; unfold perform; walk_fails; auto. Qed.

Lemma buildCallList_fails_fast B fl target enabled :
  fails_fast (buildCallList B fl target enabled).
Proof.
  unfold buildCallList, perform. walk_fails.
  - apply fails_fast_bind.
    + apply fails_fast_bind; [apply mark_enabled_fails_fast|]. intros ?. walk_fails.
    + intros [calls disabled]. apply fails_fast_bind; [apply log_disabled_fails_fast|].
      intros _. walk_fails. apply fails_fast_bind; [apply log_disabled_fails_fast|].
      intros _. walk_fails.
  - apply fails_fast_bind; [apply log_disabled_fails_fast|].
    intros _. walk_fails. apply fails_fast_bind; [apply log_disabled_fails_fast|].
    intros _. walk_fails.
Qed.

Lemma main_fails_fast B fl : fails_fast (main B fl).
Proof.
  unfold main, perform. walk_fails.
  apply fails_fast_bind; [apply readCorpus_fails_fast|]. intros corpus. walk_fails.
  apply fails_fast_bind; [apply buildCallList_fails_fast|]. intros calls. walk_fails.
  apply fails_fast_bind; [apply spawn_fails_fast|]. intros _. walk_fails.
Qed.

(** X9: every error at start-up is fatal at once: when one of the calls
    [main], [readCorpus] or [buildCallList] makes returns an error, the
    next thing that happens is the call of [log.Fatalf] with that error
    (under the message of that check), and it is the last: the run
    ends there, having done nothing in between. *)
Theorem startup_errors_are_fatal B fl (o : oracle) j e f :
  events_of o (main B fl) !! j = Some e ->
  fatal_after e = Some f ->
  events_of o (main B fl) !! S j = Some f /\
  length (events_of o (main B fl)) = S (S j) /\
  outcome_of o (main B fl) = Exited.
Proof. apply fails_fast_run, main_fails_fast. Qed.

(** A world where the host check fails. *)
Definition host_check_fails : answers := fun X op =>
  match op in Op X return X with
  | hostCheck _ => Err "no kvm"
  | op => answer quiet_world _ op
  end.

Lemma startup_errors_are_fatal_witness :
  events_of (fun _ => host_check_fails) (main linux_build logprog_flags) !! 4%nat =
    Some (EvFatal "%v" [AErr "no kvm"]) /\
  length (events_of (fun _ => host_check_fails) (main linux_build logprog_flags)) = 5%nat /\
  outcome_of (fun _ => host_check_fails) (main linux_build logprog_flags) = Exited.
Proof.
  apply (startup_errors_are_fatal linux_build logprog_flags (fun _ => host_check_fails) 3
           (Ev (hostCheck empty_target) (Err "no kvm"))).
  - reflexivity.
  - reflexivity.
Defined.

(** ** A start-up that succeeds *)

(** The goroutine an event starts: its pid and the variables it
    captures. *)
Definition started (e : event) : option (Z * Shared) :=
  match e with
  | Ev op _ => match op with GoWorker pid sh => Some (pid, sh) | _ => None end
  | _ => None
  end.

(** The program an event deserialized. *)
Definition deserialized_prog (e : event) : option loc :=
  match e with
  | Ev op x =>
      match op in Op X return X -> option loc with
      | Deserialize _ _ _ => fun x => match x with Ok p => Some p | Err _ => None end
      | _ => fun _ => None
      end x
  | _ => None
  end.

(** The event of [go func() { ... }()] for the worker [pid]. *)
Definition go_worker (sh : Shared) (pid : nat) : event := Ev (GoWorker (Z.of_nat pid) sh) tt.

Lemma spawn_run (o : oracle) sh k : forall n pid,
  run_code o n (spawn k (Z.of_nat pid) sh) = (map (go_worker sh) (seq pid k), Returned tt).
Proof.
  induction k as [|k IH]; intros n pid; [done|].
  cbn. replace (Z.of_nat pid + 1) with (Z.of_nat (S pid)) by lia.
  rewrite IH. cbn. unfold go_worker at 2.
  by destruct (o n _ (GoWorker (Z.of_nat pid) sh)).
Qed.

Lemma neutral_run {A : Type} (c : code A) (o : oracle) : forall n,
  all_ops neutral_op c ->
  omap started (run_code o n c).1 = [] /\ omap deserialized_prog (run_code o n c).1 = [].
Proof.
  induction c as [a|fmt args|msg|X op k IH]; simpl; intros n Hc; try done.
  destruct Hc as [Hop Hk]. destruct (IH (o n X op) (S n) (Hk _)) as [H1 H2].
  destruct op; simpl in *; done.
Qed.

Lemma readCorpus_records_progs target (o : oracle) recs : forall n progs ps,
  (run_code o n (readCorpus_records target recs progs)).2 = Returned ps ->
  ps = progs ++ omap deserialized_prog (run_code o n (readCorpus_records target recs progs)).1 /\
  omap started (run_code o n (readCorpus_records target recs progs)).1 = [].
Proof.
  induction recs as [|rec recs IH]; intros n progs ps; simpl.
  - intros [= <-]. by rewrite app_nil_r.
  - destruct (o n _ (Deserialize target (Val rec) NonStrict)) as [p|e] eqn:Hd; simpl; [|done].
    intros Hps. destruct (IH _ _ _ Hps) as [-> Hs]. by rewrite <- app_assoc.
Qed.

Lemma readCorpus_progs fl target (o : oracle) n ps :
  (run_code o n (readCorpus fl target)).2 = Returned ps ->
  ps = omap deserialized_prog (run_code o n (readCorpus fl target)).1 /\
  omap started (run_code o n (readCorpus fl target)).1 = [].
Proof.
  unfold readCorpus. destruct (String.eqb (flagCorpus fl) ""); cbn.
  - by intros [= <-].
  - destruct (o n _ (dbOpen (flagCorpus fl))) as [db|e]; cbn; [|done].
    intros Hps. by apply readCorpus_records_progs in Hps.
Qed.

(** [config.Flags |= ...] for each feature that is enabled (lines 82-99
    of [main]). *)
Definition enabled_config (B : Build) (featuresFlags : FeaturesFlags) (features : HostFeatures)
    (config : Config) : Config :=
  let config :=
    flag_if (featuresFlags "tun" && features (FeatureNetworkInjection B))
      (FlagEnableTun B) config in
  let config :=
    flag_if (featuresFlags "net_dev" && features (FeatureNetworkDevices B))
      (FlagEnableNetDev B) config in
  let config := flag_if (featuresFlags "net_reset") (FlagEnableNetReset B) config in
  let config := flag_if (featuresFlags "cgroups") (FlagEnableCgroups B) config in
  let config := flag_if (featuresFlags "binfmt_misc") (FlagEnableBinfmtMisc B) config in
  let config := flag_if (featuresFlags "close_fds") (FlagEnableCloseFds B) config in
  config.

(** The run of a start-up that reaches the ticker loop. *)
Lemma main_returns B fl (o : oracle) :
  outcome_of o (main B fl) = Returned tt ->
  exists ff target tr1 corpus features tr2 calls prios ct config0 execOpts,
    let sh := {| sh_target := target; sh_corpus := corpus; sh_ct := ct;
                 sh_config := enabled_config B ff features config0;
                 sh_execOpts := execOpts |} in
    run_code o 2 (readCorpus fl target) = (tr1, Returned corpus) /\
    run_code o (5 + length tr1) (buildCallList B fl target (Split (flagSyscalls fl) comma))
      = (tr2, Returned calls) /\
    (flagGenerate fl = false -> corpus <> []) /\
    events_of o (main B fl) =
      [Ev (ParseFeaturesFlags (flagEnable fl) (flagDisable fl) true) (Ok ff);
       Ev (GetTarget (flagOS fl) (flagArch fl)) (Ok target)] ++
      tr1 ++
      [Ev (Logf 0 "parsed %v programs" [AInt (len corpus)]) tt;
       Ev (hostCheck target) (Ok features);
       Ev (hostSetup target features) (Ok tt)] ++
      tr2 ++
      [Ev (CalculatePriorities target corpus) prios;
       Ev (BuildChoiceTable target prios calls) ct;
       Ev (ipcconfigDefault target) (Ok (config0, execOpts));
       Ev (NewGate (wrap64 (2 * flagProcs fl))) tt] ++
      map (go_worker sh) (seq 0 (Z.to_nat (flagProcs fl))) ++
      [Ev (NewTicker (5 * 10 ^ 9)) tt].
Proof.
  unfold outcome_of, events_of, main, perform. cbn.
  destruct (o 0%nat _ (ParseFeaturesFlags (flagEnable fl) (flagDisable fl) true))
    as [ff|e]; cbn; [|done].
  destruct (o 1%nat _ (GetTarget (flagOS fl) (flagArch fl))) as [target|e]; cbn; [|done].
  rewrite mbind_bind, run_code_bind.
  destruct (run_code o 2 (readCorpus fl target)) as [tr1 [corpus| |]] eqn:Hrc; cbn; [|done|done].
  destruct (o (S (S (length tr1))) _ (Logf 0 "parsed %v programs" [AInt (len corpus)])).
  destruct (negb (flagGenerate fl) && (len corpus =? 0)) eqn:Hgen; cbn; [done|].
  destruct (o (S (S (S (length tr1)))) _ (hostCheck target)) as [features|e]; cbn; [|done].
  destruct (o (S (S (S (S (length tr1))))) _ (hostSetup target features)) as [[]|e];
    cbn; [|done].
  rewrite mbind_bind, run_code_bind.
  destruct (run_code o (S (S (S (S (S (length tr1))))))
              (buildCallList B fl target (Split (flagSyscalls fl) comma)))
    as [tr2 [calls| |]] eqn:Hbc; cbn; [|done|done].
  set (m := (S (S (S (S (S (length tr1 + length tr2))))))%nat).
  destruct (o m _ (CalculatePriorities target corpus)) as [prios_id] eqn:Hp.
  destruct (o (S m) _ (BuildChoiceTable target (prios prios_id) calls)) as [ct_id] eqn:Hct.
  destruct (o (S (S m)) _ (ipcconfigDefault target)) as [[config0 execOpts]|e]; cbn; [|done].
  rewrite mbind_bind, run_code_bind.
  change (spawn ?k 0 ?sh) with (spawn k (Z.of_nat 0) sh). rewrite spawn_run. cbn.
  intros _.
  exists ff, target, tr1, corpus, features, tr2, calls, (prios prios_id), (choiceTable ct_id),
    config0, execOpts.
  split; [done|]. split; [done|]. split.
  { intros Hg. rewrite Hg in Hgen. simpl in Hgen. intros ->. done. }
  cbn. destruct (o (S (S (S m))) _ (NewGate (wrap64 (2 * flagProcs fl)))).
  by destruct (o _ _ (NewTicker (5 * 10 ^ 9))).
Qed.

Lemma started_go_workers sh pids :
  omap started (map (go_worker sh) pids) = map (fun pid => (Z.of_nat pid, sh)) pids /\
  omap deserialized_prog (map (go_worker sh) pids) = [].
Proof. induction pids as [|pid pids [IH1 IH2]]; [done|]. cbn. by rewrite IH1, IH2. Qed.

(** X10: a start-up that reaches the ticker loop has started [flagProcs]
    workers, with the pids 0, 1, ... in this order, and all of them
    with the same variables: the target that was resolved, the corpus
    (the programs that were deserialized, in their order; not empty
    when generation is disabled), and the choice table that was built
    from the priorities of that corpus and from the calls
    [buildCallList] returned. *)
Theorem main_starts_workers B fl (o : oracle) :
  outcome_of o (main B fl) = Returned tt ->
  exists sh,
    omap started (events_of o (main B fl)) =
      map (fun pid => (Z.of_nat pid, sh)) (seq 0 (Z.to_nat (flagProcs fl))) /\
    sh_corpus sh = omap deserialized_prog (events_of o (main B fl)) /\
    (flagGenerate fl = false -> sh_corpus sh <> []) /\
    Ev (GetTarget (flagOS fl) (flagArch fl)) (Ok (sh_target sh)) ∈ events_of o (main B fl) /\
    exists prios calls m,
      (run_code o m (buildCallList B fl (sh_target sh) (Split (flagSyscalls fl) comma))).2
        = Returned calls /\
      Ev (CalculatePriorities (sh_target sh) (sh_corpus sh)) prios ∈ events_of o (main B fl) /\
      Ev (BuildChoiceTable (sh_target sh) prios calls) (sh_ct sh) ∈ events_of o (main B fl).
Proof.
  intros Hret.
  destruct (main_returns B fl o Hret)
    as (ff & target & tr1 & corpus & features & tr2 & calls & prios & ct & config0 & execOpts
        & Hrc & Hbc & Hne & ->).
  assert (Hs1 : corpus = omap deserialized_prog tr1 /\ omap started tr1 = []).
  { pose proof (readCorpus_progs fl target o 2 corpus) as H1. rewrite Hrc in H1.
    by apply H1. }
  assert (Hs2 : omap started tr2 = [] /\ omap deserialized_prog tr2 = []).
  { pose proof (neutral_run _ o (5 + length tr1) (buildCallList_neutral B fl target
                  (Split (flagSyscalls fl) comma))) as H2.
    by rewrite Hbc in H2. }
  destruct Hs1 as [Hc1 Hs1], Hs2 as [Hs2 Hd2].
  eexists. split; [|split; [|split; [|split]]].
  - rewrite !omap_app, Hs1, Hs2, (proj1 (started_go_workers _ _)). cbn.
    by rewrite app_nil_r.
  - rewrite !omap_app, <- Hc1, Hd2, (proj2 (started_go_workers _ _)). cbn.
    by rewrite app_nil_r.
  - exact Hne.
  - cbn. apply list_elem_of_further, list_elem_of_here.
  - exists prios, calls, (5 + length tr1)%nat. cbn [sh_target sh_corpus sh_ct]. rewrite Hbc.
    split; [done|]. split.
    + cbn. do 2 apply list_elem_of_further. apply elem_of_app. right.
      do 3 apply list_elem_of_further. apply elem_of_app. right. apply list_elem_of_here.
    + cbn. do 2 apply list_elem_of_further. apply elem_of_app. right.
      do 3 apply list_elem_of_further. apply elem_of_app. right.
      apply list_elem_of_further, list_elem_of_here.
Qed.

Lemma main_starts_workers_witness :
  exists sh,
    omap started (events_of (fun _ => answer quiet_world) (main linux_build two_workers_flags))
      = [(0, sh); (1, sh)].
Proof.
  destruct (main_starts_workers linux_build two_workers_flags (fun _ => answer quiet_world))
    as (sh & H & _).
  - reflexivity.
  - exists sh. exact H.
Defined.

Lemma flag_if_bit cond f c i :
  Z.testbit (Flags (flag_if cond f c)) i = Z.testbit (Flags c) i || (cond && Z.testbit f i).
Proof.
  destruct cond; simpl; [apply Z.lor_spec|by rewrite orb_false_r].
Qed.

Lemma flag_if_rest cond f c : ConfigRest (flag_if cond f c) = ConfigRest c.
Proof. by destruct cond. Qed.

(** X11: the executor configuration of the workers is the default one with
    flags added, never cleared: each bit is set if it is set in the
    default configuration, or in the flag of a feature that is enabled
    on the command line (and, for tun and net_dev, that the host
    check reports).  Nothing else of the configuration changes. *)
Theorem main_enables_features B fl (o : oracle) pid sh :
  outcome_of o (main B fl) = Returned tt ->
  (pid, sh) ∈ omap started (events_of o (main B fl)) ->
  exists ff features config0,
    Ev (ParseFeaturesFlags (flagEnable fl) (flagDisable fl) true) (Ok ff)
      ∈ events_of o (main B fl) /\
    Ev (hostCheck (sh_target sh)) (Ok features) ∈ events_of o (main B fl) /\
    Ev (ipcconfigDefault (sh_target sh)) (Ok (config0, sh_execOpts sh))
      ∈ events_of o (main B fl) /\
    ConfigRest (sh_config sh) = ConfigRest config0 /\
    forall i,
      Z.testbit (Flags (sh_config sh)) i =
        Z.testbit (Flags config0) i
        || (ff "tun" && features (FeatureNetworkInjection B) && Z.testbit (FlagEnableTun B) i)
        || (ff "net_dev" && features (FeatureNetworkDevices B)
            && Z.testbit (FlagEnableNetDev B) i)
        || (ff "net_reset" && Z.testbit (FlagEnableNetReset B) i)
        || (ff "cgroups" && Z.testbit (FlagEnableCgroups B) i)
        || (ff "binfmt_misc" && Z.testbit (FlagEnableBinfmtMisc B) i)
        || (ff "close_fds" && Z.testbit (FlagEnableCloseFds B) i).
Proof.
  intros Hret.
  destruct (main_returns B fl o Hret)
    as (ff & target & tr1 & corpus & features & tr2 & calls & prios & ct & config0 & execOpts
        & Hrc & Hbc & Hne & ->).
  intros Hin.
  assert (Hs1 : omap started tr1 = []).
  { pose proof (readCorpus_progs fl target o 2 corpus) as H1. rewrite Hrc in H1.
    by apply H1. }
  assert (Hs2 : omap started tr2 = []).
  { pose proof (neutral_run _ o (5 + length tr1) (buildCallList_neutral B fl target
                  (Split (flagSyscalls fl) comma))) as H2.
    rewrite Hbc in H2. apply H2. }
  rewrite !omap_app, Hs1, Hs2, (proj1 (started_go_workers _ _)) in Hin. cbn in Hin.
  rewrite app_nil_r in Hin. apply list_elem_of_fmap in Hin as (j & [= -> ->] & _).
  exists ff, features, config0. cbn [sh_target sh_execOpts sh_config].
  split; [|split; [|split; [|split]]].
  - apply list_elem_of_here.
  - cbn. do 2 apply list_elem_of_further. apply elem_of_app. right.
    apply list_elem_of_further, list_elem_of_here.
  - cbn. do 2 apply list_elem_of_further. apply elem_of_app. right.
    do 3 apply list_elem_of_further. apply elem_of_app. right.
    do 2 apply list_elem_of_further. apply list_elem_of_here.
  - unfold enabled_config. by rewrite !flag_if_rest.
  - intros i. unfold enabled_config. by rewrite !flag_if_bit.
Qed.

(** The command line enables tun and cgroups; the host has network
    injection. *)
Definition features_answers : answers := fun X op =>
  match op in Op X return X with
  | ParseFeaturesFlags _ _ _ =>
      Ok (fun name => String.eqb name "tun" || String.eqb name "cgroups")
  | hostCheck _ => Ok (fun f => Nat.eqb f 0)
  | op => answer quiet_world _ op
  end.

Lemma main_enables_features_witness :
  exists sh,
    (0, sh) ∈ omap started (events_of (fun _ => features_answers)
                              (main linux_build logprog_flags)) /\
    Flags (sh_config sh) = 9.
Proof.
  eexists. split; [apply list_elem_of_here|].
  destruct (main_enables_features linux_build logprog_flags (fun _ => features_answers) 0 _
              eq_refl (list_elem_of_here _ _)) as (ff & features & config0 & _).
  reflexivity.
Defined.

(** ** What each goroutine can still do *)

(** The gate has been built. *)
Definition is_built (s : state) : bool :=
  match gate s with
  | Some _ => true
  | None => false
  end.

(** The messages of the calls of [log.Fatalf] at start-up. *)
Definition startup_fatal (fmt : string) : bool :=
  bool_decide (fmt ∈ ["%v";
                      "failed to open corpus database: %v";
                      "failed to deserialize corpus program: %v";
                      "nothing to mutate (-generate=false and no corpus)";
                      "failed to detect host supported syscalls: %v";
                      "failed to parse enabled syscalls: %v"]).

(** The operations that prepare the run, before the gate is built. *)
Definition prep_op (X : Type) (op : Op X) : Prop :=
  match op with
  | ParseFeaturesFlags _ _ _ | GetTarget _ _ | dbOpen _ | Deserialize _ _ _
  | Logf _ _ _ | hostCheck _ | hostSetup _ _ | DetectSupportedSyscalls _ _
  | ParseEnabledSyscalls _ _ _ | TransitivelyEnabledCalls _ _
  | CalculatePriorities _ _ | BuildChoiceTable _ _ _ | ipcconfigDefault _ => True
  | _ => False
  end.

(** Code that prepares the run: it ends the process only by one of the
    start-up messages or by an index out of range. *)
Fixpoint pre_ok {A : Type} (c : code A) : Prop :=
  match c with
  | Ret _ => True
  | Fatalf fmt _ => startup_fatal fmt = true
  | Panic msg => msg = "index out of range"
  | Do op k => prep_op _ op /\ forall x, pre_ok (k x)
  end.

(** The operations of the ticker loop never end the process. *)
Fixpoint reporter_ok {A : Type} (c : code A) : Prop :=
  match c with
  | Ret _ => True
  | Fatalf _ _ | Panic _ => False
  | Do op k => reporter_op _ op /\ forall x, reporter_ok (k x)
  end.

(** What an operation of a worker needs, when [h] programs are
    allocated: a program it clones or mutates is allocated, and the bound
    of [Intn] is positive. *)
Definition worker_needs (h : nat) (X : Type) (op : Op X) : Prop :=
  match op with
  | MakeEnv _ _ | UnixNano | NewSource _ | randNew _ | Generate _ _ _ _
  | CallExecute _ _ _ _ => True
  | Mutate p _ _ _ _ => (p < h)%nat
  | Clone p => (p < h)%nat
  | Intn _ n => 0 < n
  | _ => False
  end.

(** What is known of an answer, when at least [h] programs are
    allocated: an allocation returns a new program, [Intn(n)] a number
    in [0, n). *)
Definition answer_ok (h : nat) {X : Type} (op : Op X) : X -> Prop :=
  match op in Op X return X -> Prop with
  | Generate _ _ _ _ => fun x => (h <= x)%nat
  | Clone _ => fun x => (h <= x)%nat
  | Intn _ n => fun x => 0 <= x < n
  | _ => fun _ => True
  end.

(** The number of programs known to be allocated after the operation. *)
Definition heap_after (h : nat) {X : Type} (op : Op X) : X -> nat :=
  match op in Op X return X -> nat with
  | Generate _ _ _ _ => fun x => S x
  | Clone _ => fun x => S x
  | _ => fun _ => h
  end.

(** Code of a worker that never panics or faults, and ends the process
    only when it cannot create its execution environment. *)
Fixpoint safe (h : nat) {A : Type} (c : code A) : Prop :=
  match c with
  | Ret _ => True
  | Fatalf fmt _ => fmt = "failed to create execution environment: %v"
  | Panic _ => False
  | Do op k =>
      worker_needs h _ op /\
      forall x, answer_ok h op x -> safe (heap_after h op x) (k x)
  end.

(** What [execute] needs of the mutex, when the goroutine holds it
    ([held]) or not. *)
Definition exec_pre (held : bool) (X : Type) (op : Op X) : Prop :=
  match op with
  | outMuLock => held = false
  | outMuUnlock => held = true
  | AtomicAddStatExec _ | GateEnter | GateLeave _ | Serialize _ | Printf _ _
  | EnvExec _ _ _ | StdoutWrite _ => True
  | _ => False
  end.

Definition exec_post (held : bool) {X : Type} (op : Op X) : bool :=
  match op with
  | outMuLock => true
  | outMuUnlock => false
  | _ => held
  end.

(** Code of [execute]: it locks the mutex only when it does not hold it,
    unlocks it only when it holds it, returns without it, and never
    ends the process. *)
Fixpoint exec_ok (held : bool) {A : Type} (c : code A) : Prop :=
  match c with
  | Ret _ => held = false
  | Fatalf _ _ | Panic _ => False
  | Do op k => exec_pre held _ op /\ forall x, exec_ok (exec_post held op) (k x)
  end.

Section Soundness.

Variable B : Build.
Variable fl : CmdLine.

(** What an operation of [main] needs: the preparation comes before
    the gate is built, the workers and the ticker after; a worker is
    given a corpus that is not empty when generation is disabled. *)
Definition main_op (built : bool) (X : Type) (op : Op X) : Prop :=
  match op with
  | NewGate _ => built = false
  | GoWorker _ sh => built = true /\ (flagGenerate fl = false -> sh_corpus sh <> [])
  | NewTicker _ => built = true
  | _ => prep_op X op /\ built = false
  end.

(** Code of [main]: it ends the process only before it has built the
    gate, and returns only after. *)
Fixpoint startup_ok (built : bool) {A : Type} (c : code A) : Prop :=
  match c with
  | Ret _ => built = true
  | Fatalf fmt _ => built = false /\ startup_fatal fmt = true
  | Panic msg => built = false /\ msg = "index out of range"
  | Do op k => main_op built _ op /\ forall x, startup_ok (built || op_new_gate _ op) (k x)
  end.

Lemma startup_ok_bind {A C : Type} (c : code A) (f : A -> code C) :
  pre_ok c -> (forall a, startup_ok false (f a)) -> startup_ok false (bind c f).
Proof.
  intros Hc Hf. induction c as [a|fmt args|msg|X op k IH]; simpl in *; try done.
  destruct Hc as [Hop Hk]. split; [by destruct op|].
  intros x. replace (op_new_gate X op) with false by (by destruct op). by apply IH.
Qed.

Lemma index_pre_ok {A : Type} (l : list A) i : pre_ok (index l i).
Proof. unfold index. by repeat case_match. Qed.

Lemma pre_ok_bind {A C : Type} (c : code A) (f : A -> code C) :
  pre_ok c -> (forall a, pre_ok (f a)) -> pre_ok (bind c f).
Proof.
  intros Hc Hf. induction c as [a|fmt args|msg|X op k IH]; simpl in *; try done.
  destruct Hc as [Hop Hk]. split; [done|]. intros x. by apply IH.
Qed.

Lemma readCorpus_records_pre_ok target recs : forall progs,
  pre_ok (readCorpus_records target recs progs).
Proof.
  induction recs as [|rec recs IH]; intros progs; simpl; [done|].
  split; [done|]. intros [p|e]; simpl; [apply IH|done].
Qed.

Lemma readCorpus_pre_ok target : pre_ok (readCorpus fl target).
Proof.
  unfold readCorpus. destruct (String.eqb (flagCorpus fl) ""); simpl; [done|].
  split; [done|]. intros [db|e]; simpl; [apply readCorpus_records_pre_ok|done].
Qed.

Lemma mark_enabled_pre_ok target ids : forall m, pre_ok (mark_enabled target ids m).
Proof.
  induction ids as [|id ids IH]; intros m; simpl; [done|].
  apply pre_ok_bind; [apply index_pre_ok|]. intros c. apply IH.
Qed.

Lemma log_disabled_pre_ok target fmt ds : pre_ok (log_disabled target fmt ds).
Proof. induction ds as [|[c reason] ds IH]; simpl; [done|]. split; [done|]. by intros _. Qed.

Lemma buildCallList_pre_ok target enabled : pre_ok (buildCallList B fl target enabled).
Proof.
  assert (Htail : forall calls disabled,
            pre_ok (log_disabled target "unsupported syscall: %v: %v" (map_to_list disabled) ≫=
                    (fun _ : unit =>
                     perform (TransitivelyEnabledCalls target calls) ≫=
                     (fun '(calls, disabled) =>
                      log_disabled target "transitively unsupported: %v: %v"
                        (map_to_list disabled) ≫= (fun _ : unit => Ret calls))))).
  { intros calls disabled. rewrite mbind_bind.
    apply pre_ok_bind; [apply log_disabled_pre_ok|]. intros _. simpl.
    split; [done|]. intros [calls' disabled']. rewrite mbind_bind.
    apply pre_ok_bind; [apply log_disabled_pre_ok|]. by intros _. }
  unfold buildCallList. destruct (negb _); simpl; [done|].
  split; [done|]. intros [[calls disabled]|e]; simpl; [|done].
  rewrite mbind_bind. apply pre_ok_bind.
  - destruct (negb _); simpl; [|done].
    split; [done|]. intros [ids|e]; simpl; [|done].
    rewrite mbind_bind. apply pre_ok_bind; [apply mark_enabled_pre_ok|]. by intros es.
  - intros [calls' disabled']. apply Htail.
Qed.

Lemma spawn_startup_ok {A : Type} (g : unit -> code A) n : forall pid sh,
  (flagGenerate fl = false -> sh_corpus sh <> []) ->
  (forall a, startup_ok true (g a)) ->
  startup_ok true (bind (spawn n pid sh) g).
Proof.
  induction n as [|n IH]; intros pid sh Hsh Hg; simpl; [done|].
  split; [done|]. intros _. by apply IH.
Qed.

Lemma main_startup_ok : startup_ok false (main B fl).
Proof.
  unfold main, perform. simpl.
  split; [done|]. intros [ff|e]; simpl; [|done].
  split; [done|]. intros [target|e]; simpl; [|done].
  rewrite mbind_bind. apply startup_ok_bind; [apply readCorpus_pre_ok|]. intros corpus. simpl.
  split; [done|]. intros _.
  destruct (negb (flagGenerate fl) && (len corpus =? 0)) eqn:Hgen; simpl; [done|].
  split; [done|]. intros [features|e]; simpl; [|done].
  split; [done|]. intros [[]|e]; simpl; [|done].
  rewrite mbind_bind. apply startup_ok_bind; [apply buildCallList_pre_ok|]. intros calls. simpl.
  split; [done|]. intros prios.
  split; [done|]. intros ct.
  split; [done|]. intros [[config execOpts]|e]; simpl; [|done].
  split; [done|]. intros _.
  rewrite mbind_bind. apply spawn_startup_ok.
  - simpl. intros Hg. rewrite Hg in Hgen. simpl in Hgen. by intros ->.
  - intros _. simpl. done.
Qed.

Lemma reporter_body_ok : reporter_ok reporter_body.
Proof. unfold reporter_body, perform. simpl. repeat split. Qed.

Lemma execute_exec_ok pid env opts p : exec_ok false (execute fl pid env opts p).
Proof.
  unfold execute, when, perform.
  destruct (flagLogProg fl); simpl; repeat (split; [done|]; intros ?);
    destruct (exec_err _); simpl; repeat (split; [done|]; intros ?);
    destruct (hanged _ || _ || flagOutput fl); simpl; done.
Qed.

Lemma safe_mono {A : Type} (c : code A) : forall h h',
  safe h c -> (h <= h')%nat -> safe h' c.
Proof.
  induction c as [a|fmt args|msg|X op k IH]; simpl; intros h h' Hc Hh; try done.
  destruct Hc as [Hop Hk]. split.
  - destruct op; simpl in *; try done; lia.
  - intros x Hx. apply (IH x (heap_after h op x)).
    + apply Hk. destruct op; simpl in *; try done; lia.
    + destruct op; simpl in *; try done; lia.
Qed.

Lemma worker_prologue_safe h sh pid : safe h (worker_prologue sh pid).
Proof.
  unfold worker_prologue, perform. simpl.
  split; [done|]. intros [env|e] _; simpl; [|done]. repeat split.
Qed.

Lemma worker_body_safe h sh pid w i :
  Forall (fun l => (l < h)%nat) (sh_corpus sh) ->
  (flagGenerate fl = false -> sh_corpus sh <> []) ->
  safe h (worker_body fl sh pid w i).
Proof.
  intros Hcorpus Hne. unfold worker_body, perform.
  destruct (takes_generate fl (sh_corpus sh) i) eqn:Htake; simpl.
  - split; [done|]. intros p Hp. repeat split; try done. lia.
  - assert (Hlen : 0 < len (sh_corpus sh)).
    { unfold takes_generate in Htake. apply orb_false_iff in Htake as [Htake _].
      destruct (flagGenerate fl) eqn:Hgen; simpl in Htake.
      - apply Z.eqb_neq in Htake. unfold len in *. lia.
      - specialize (Hne eq_refl). unfold len. destruct (sh_corpus sh); simpl; [done|lia]. }
    split; [done|]. intros n [Hn0 Hn1].
    destruct (index_valid (sh_corpus sh) n (conj Hn0 Hn1)) as (e & -> & He). simpl.
    split.
    { eapply Forall_lookup_1 in Hcorpus; [|exact He]. done. }
    intros p Hp. repeat split; try done; lia.
Qed.

End Soundness.

(** ** The invariant of the goroutines *)

(** The calls of [execute] a goroutine is inside of: at most one, which
    holds the mutex or not. *)
Definition frames_ok (fs : list (code unit)) (held : bool) : Prop :=
  match fs with
  | [] => held = false
  | [f] => exec_ok held f
  | _ => False
  end.

(** [n] of the goroutines hold the mutex. *)
Fixpoint lock_sum (ts : list thread) (n : nat) : Prop :=
  match ts with
  | [] => n = O
  | t :: ts' =>
      exists b n', frames_ok (frames t) b /\ lock_sum ts' n' /\
                   n = ((if b then 1 else 0) + n')%nat
  end.

Lemma lock_sum_focus ts : forall tid t n,
  lock_sum ts n ->
  ts !! tid = Some t ->
  exists b rest,
    frames_ok (frames t) b /\ n = ((if b then 1 else 0) + rest)%nat /\
    forall t' b', frames_ok (frames t') b' ->
      lock_sum (<[tid := t']> ts) ((if b' then 1 else 0) + rest).
Proof.
  induction ts as [|t0 ts IH]; intros tid t n Hn Ht; [done|].
  simpl in Hn. destruct Hn as (b0 & n0 & Hb0 & Hn0 & ->).
  destruct tid as [|tid]; simpl in Ht.
  - injection Ht as ->. exists b0, n0. repeat split; try done.
    intros t' b' Hb'. simpl. by exists b', n0.
  - destruct (IH tid t n0 Hn0 Ht) as (b & rest & Hb & -> & Hupd).
    exists b, ((if b0 then 1 else 0) + rest)%nat. split; [done|]. split; [lia|].
    intros t' b' Hb'. simpl. exists b0, ((if b' then 1 else 0) + rest)%nat.
    split; [done|]. split; [by apply Hupd|lia].
Qed.

Lemma lock_sum_spawned ts {X : Type} (op : Op X) : forall n,
  lock_sum ts n -> lock_sum (ts ++ spawned op) n.
Proof.
  induction ts as [|t ts IH]; intros n Hn; simpl in *.
  - subst n. destruct op; simpl; try done. by exists false, O.
  - destruct Hn as (b & n' & Hb & Hn' & ->). exists b, n'. split; [done|]. split; [|done].
    by apply IH.
Qed.

Lemma effect_built {X : Type} d (op : Op X) x s :
  is_built (effect d op x s) = is_built s || op_new_gate X op.
Proof.
  unfold is_built.
  destruct op; simpl; try (by destruct (gate s)).
  - destruct x; simpl; by destruct (gate s).
  - destruct (heap s !! p); simpl; by destruct (gate s).
Qed.

Lemma effect_outMu {X : Type} d (op : Op X) x s :
  outMu (effect d op x s) = exec_post (outMu s) op.
Proof. destruct op; simpl; try done; by repeat case_match. Qed.

(** An operation of a worker, answered. *)
Lemma worker_answered {X : Type} d (op : Op X) a x s :
  worker_needs (length (heap s)) X op ->
  resolve s op a = Some x ->
  answer_ok (length (heap s)) op x /\
  (heap_after (length (heap s)) op x <= length (heap (effect d op x s)))%nat.
Proof.
  pose proof (effect_heap_length d op x s) as Hlen.
  destruct op; simpl in *; try done; intros Hop Hx;
    try (split; [done|]; rewrite ?length_insert; done).
  - injection Hx as <-. rewrite length_app. simpl. split; lia.
  - split; [|done]. destruct (Z.leb_spec n 0) as [?|_]; [lia|].
    destruct (Z.leb_spec 0 a), (Z.ltb_spec a n); simpl in Hx; try done.
    injection Hx as <-. lia.
  - injection Hx as <-. split; [lia|].
    destruct (heap s !! p) as [pd|] eqn:Hpd; simpl.
    + rewrite length_app. simpl. lia.
    + apply lookup_ge_None in Hpd. lia.
Qed.

Section SoundState.

Variable B : Build.
Variable fl : CmdLine.

(** Goroutine 0 is [main], in its start-up or in its ticker loop, and
    calls nothing of this file. *)
Definition main_ok (built : bool) (t : thread) : Prop :=
  frames t = [] /\
  match t_base t with
  | BMain c => startup_ok fl built c
  | BReporter c => built = true /\ reporter_ok c
  | _ => False
  end.

(** The other goroutines are workers. *)
Definition worker_ok (h : nat) (t : thread) : Prop :=
  match t_base t with
  | BInit _ sh c => safe h c /\ (flagGenerate fl = false -> sh_corpus sh <> [])
  | BLoop _ sh _ _ c => safe h c /\ (flagGenerate fl = false -> sh_corpus sh <> [])
  | _ => False
  end.

Definition sound (s : state) : Prop :=
  exists t0 ws,
    threads s = t0 :: ws /\
    main_ok (is_built s) t0 /\
    Forall (worker_ok (length (heap s))) ws /\
    (is_built s = false -> ws = []) /\
    lock_sum (threads s) (if outMu s then 1 else 0).

Lemma worker_ok_mono h h' t : worker_ok h t -> (h <= h')%nat -> worker_ok h' t.
Proof.
  unfold worker_ok. destruct (t_base t); try done; intros [Hc Hne] Hh;
    (split; [by eapply safe_mono|done]).
Qed.

(** The corpus of a worker is allocated. *)
Lemma worker_corpus_allocated s t sh :
  reachable B fl s -> t ∈ threads s -> worker_shared t = Some sh ->
  Forall (fun l => (l < length (heap s))%nat) (sh_corpus sh).
Proof.
  intros Hr Ht Hsh.
  destruct (reachable_corpus B fl s Hr) as (h & oc & [Hh Hts _ Hco _]).
  eapply Forall_forall in Hts; [|exact Ht].
  assert (Hoc : oc = Some (sh_corpus sh)).
  { unfold thread_ok, worker_shared in *. destruct (t_base t); try done;
      injection Hsh as <-; by destruct Hts. }
  eapply Forall_impl; [by apply Hco|]. simpl. intros; lia.
Qed.

Lemma call_of_frames_ok h {X : Type} (op : Op X) :
  worker_needs h X op -> frames_ok (call_of fl op) false /\ spawned op = [].
Proof. destruct op; simpl; try done. intros _. split; [apply execute_exec_ok|done]. Qed.

Lemma sound_init : sound (init B fl).
Proof.
  exists {| frames := []; t_base := BMain (main B fl) |}, [].
  split; [done|]. split; [split; [done|apply main_startup_ok]|].
  split; [done|]. split; [done|]. simpl. by exists false, O.
Qed.

Lemma sound_moved s tid t' e :
  (exists t0 ws,
     <[tid := t']> (threads s) = t0 :: ws /\
     main_ok (is_built s) t0 /\
     Forall (worker_ok (length (heap s))) ws /\
     (is_built s = false -> ws = []) /\
     lock_sum (<[tid := t']> (threads s)) (if outMu s then 1 else 0)) ->
  sound (set_thread tid t' (log tid e s)).
Proof. intros H. exact H. Qed.

Lemma sound_step s ch s' :
  reachable B fl s -> sound s -> step fl s ch = Some s' -> sound s'.
Proof.
  intros Hr (t0 & ws & Hts & Hmain & Hws & Hbuilt & Hlock) Hstep.
  apply step_inv in Hstep as [Hex Hstep].
  destruct Hstep as [t r Ht Hc|t fmt args Ht Hc|t msg Ht Hc|t X op k x msg Ht Hc Hx Hb Hf
                    |t X op k x Ht Hc Hx Hb Hf].
  2-4: by exists t0, ws.
  - (* a return *)
    destruct (lock_sum_focus _ _ _ _ Hlock Ht) as (b & rest & Hfr & Hn & Hupd).
    assert (Hcorp : forall sh, worker_shared t = Some sh ->
                      Forall (fun l => (l < length (heap s))%nat) (sh_corpus sh)).
    { intros sh Hsh. apply (worker_corpus_allocated s t sh Hr); [|done].
      by eapply list_elem_of_lookup_2. }
    unfold sound, set_thread. simpl. rewrite Hn. rewrite Hts in *.
    destruct (ch_tid ch) as [|n]; simpl in Ht.
    + injection Ht as <-. destruct Hmain as [Hf0 Hb0].
      destruct t0 as [fs b0]. simpl in Hf0. subst fs. simpl in Hfr. subst b.
      exists {| frames := []; t_base := BReporter reporter_body |}, ws.
      assert (Hbt : is_built s = true).
      { destruct b0; simpl in *; try done; subst; simpl in *; [done|by destruct Hb0]. }
      assert (Hnew : act_returned (activation_of fl {| frames := []; t_base := b0 |}) r
                     = {| frames := []; t_base := BReporter reporter_body |}).
      { destruct b0; simpl in *; try done. }
      rewrite Hnew. simpl. split; [done|].
      split; [split; [done|]; simpl; split; [done|apply reporter_body_ok]|].
      split; [done|]. split; [done|].
      apply (Hupd {| frames := []; t_base := BReporter reporter_body |} false). done.
    + assert (Hw : worker_ok (length (heap s)) t) by (by eapply Forall_lookup_1).
      exists t0, (<[n := act_returned (activation_of fl t) r]> ws).
      split; [done|]. split; [done|].
      assert (Hnew : worker_ok (length (heap s)) (act_returned (activation_of fl t) r) /\
                     frames_ok (frames (act_returned (activation_of fl t) r)) false /\
                     b = false).
      { unfold worker_ok in *.
        destruct t as [[|f [|f2 fs]] b0]; simpl in *; [| |done].
        - subst b. destruct b0; simpl in *; try done; destruct Hw as [_ Hne].
          + split; [|done]. split; [|done]. apply worker_body_safe; [|done].
            by apply Hcorp.
          + split; [|done]. split; [|done]. apply worker_body_safe; [|done].
            by apply Hcorp.
        - subst f. simpl in Hfr. done. }
      destruct Hnew as (Hw' & Hfr' & ->).
      split; [by apply Forall_insert|].
      split; [intros Hbf; specialize (Hbuilt Hbf); subst ws; done|].
      apply (Hupd _ false Hfr').
  - (* an operation *)
    pose proof (lock_sum_spawned _ op _ Hlock) as Hlock'.
    assert (Ht' : (threads s ++ spawned op) !! ch_tid ch = Some t)
      by (by apply lookup_app_l_Some).
    destruct (lock_sum_focus _ _ _ _ Hlock' Ht') as (b & rest & Hfr & Hn & Hupd).
    pose proof (effect_heap_length (ch_data ch) op x s) as Hheap.
    apply sound_moved.
    rewrite effect_threads, effect_outMu, effect_built. rewrite Hts in *.
    destruct (ch_tid ch) as [|n]; simpl in Ht.
    + (* main *)
      injection Ht as <-. destruct Hmain as [Hf0 Hb0].
      destruct t0 as [fs b0]. simpl in Hf0. subst fs. simpl in Hfr. subst b.
      assert (Hcall : call_of fl op = [] /\ exec_post (outMu s) op = outMu s /\
                      (forall c, Forall (worker_ok c) (spawned op)) /\
                      (is_built s || op_new_gate X op = false -> spawned op = []) /\
                      main_ok (is_built s || op_new_gate X op)
                        (act_moved (activation_of fl {| frames := []; t_base := b0 |})
                           (k x) [])).
      { destruct b0; simpl in *; try done; subst c; simpl in Hb0.
        - destruct Hb0 as [Hop Hk].
          split; [by destruct op; simpl in *; try done; destruct Hop|].
          split; [by destruct op; simpl in *; try done; destruct Hop|].
          split.
          { intros c. destruct op; simpl in *; try done. constructor; [|done].
            split; [apply worker_prologue_safe|by destruct Hop]. }
          split.
          { destruct op; simpl in *; try done. destruct Hop as [-> _]. done. }
          split; [done|apply Hk].
        - destruct Hb0 as [Hbt [Hop Hk]].
          split; [by destruct op|]. split; [by destruct op|]. split; [by destruct op|].
          split; [by destruct op|]. split; [done|]. simpl.
          replace (op_new_gate X op) with false by (by destruct op).
          rewrite orb_false_r. split; [done|apply Hk]. }
      destruct Hcall as (Hcall & Hmu & Hsp & Hnone & Hmain').
      rewrite Hcall, Hmu. simpl.
      eexists _, (ws ++ spawned op). split; [reflexivity|]. split; [exact Hmain'|].
      split.
      { apply Forall_app. split; [|apply Hsp].
        eapply Forall_impl; [exact Hws|]. intros t Ht. by eapply worker_ok_mono. }
      split.
      { intros Hbf. rewrite (Hnone Hbf), app_nil_r. apply Hbuilt.
        by apply orb_false_iff in Hbf as [? _]. }
      rewrite Hn. simpl in Hupd. apply (Hupd _ false). by rewrite (proj1 Hmain').
    + (* a worker *)
      assert (Hw : worker_ok (length (heap s)) t) by (by eapply Forall_lookup_1).
      assert (Hbt : is_built s = true).
      { destruct (is_built s) eqn:E; [done|]. rewrite (Hbuilt eq_refl) in Ht. done. }
      assert (Hnew : exists b',
                 worker_ok (length (heap (effect (ch_data ch) op x s)))
                   (act_moved (activation_of fl t) (k x) (call_of fl op)) /\
                 frames_ok (frames (act_moved (activation_of fl t) (k x) (call_of fl op))) b' /\
                 spawned op = [] /\ op_new_gate X op = false /\
                 (if exec_post (outMu s) op then 1 else 0)%nat
                 = ((if b' then 1 else 0) + rest)%nat).
      { unfold worker_ok in *.
        destruct t as [[|f [|f2 fs]] b0]; simpl in *; [| |done].
        - (* outside execute *)
          subst b. exists false.
          assert (Hbase : exists c, act_code (activation_of fl {| frames := []; t_base := b0 |})
                                    = c /\ safe (length (heap s)) c /\
                          forall c', safe (length (heap (effect (ch_data ch) op x s))) c' ->
                            worker_ok (length (heap (effect (ch_data ch) op x s)))
                              (act_moved (activation_of fl {| frames := []; t_base := b0 |})
                                 c' (call_of fl op))).
          { destruct b0; simpl in *; try done; destruct Hw as [Hs Hne]; eexists;
              (split; [reflexivity|]); (split; [done|]); intros c' Hc'; done. }
          destruct Hbase as (c & Hcc & Hs & Hmv). rewrite Hc in Hcc. subst c.
          destruct Hs as [Hop Hk].
          destruct (worker_answered (ch_data ch) op _ x s Hop Hx) as [Hans Hh].
          destruct (call_of_frames_ok _ op Hop) as [Hcall Hsp].
          split.
          { unfold worker_ok. apply Hmv. eapply safe_mono; [apply Hk, Hans|exact Hh]. }
          split; [by destruct b0|]. split; [done|].
          split; [by destruct op|].
          replace (exec_post (outMu s) op) with (outMu s) by (by destruct op).
          done.
        - (* inside execute *)
          subst f. simpl in Hfr. destruct Hfr as [Hop Hk].
          assert (Hcall : call_of fl op = []) by (by destruct op).
          rewrite Hcall. simpl. exists (exec_post b op).
          split.
          { destruct b0; try done; destruct Hw as [Hs Hne];
              (split; [by eapply safe_mono|done]). }
          split; [apply Hk|]. split; [by destruct op|]. split; [by destruct op|].
          destruct op; simpl in *; try done.
          + subst b. rewrite Hb in Hn. simpl in Hn. by subst rest.
          + subst b. destruct (outMu s); simpl in Hn; [|done].
            injection Hn as <-. done. }
      destruct Hnew as (b' & Hw' & Hfr' & Hsp & Hng & Hsum).
      rewrite Hsp, app_nil_r, Hng, orb_false_r in *. simpl.
      exists t0, (<[n := act_moved (activation_of fl t) (k x) (call_of fl op)]> ws).
      split; [done|]. split; [done|].
      split.
      { apply Forall_insert; [|done].
        eapply Forall_impl; [exact Hws|]. intros t1 Ht1. by eapply worker_ok_mono. }
      split; [by rewrite Hbt|].
      rewrite Hsum. simpl in Hupd. by apply Hupd.
Qed.

Lemma reachable_sound s : reachable B fl s -> sound s.
Proof.
  induction 1 as [|s ch s' Hr IH Hstep]; [apply sound_init|by eapply sound_step].
Qed.

End SoundState.

(** ** Faults, roles and the end of the process *)

(** The operations of goroutine 0: the start-up and the ticker loop. *)
Definition main_thread_op (X : Type) (op : Op X) : Prop :=
  match op with
  | ParseFeaturesFlags _ _ _ | GetTarget _ _ | dbOpen _ | Deserialize _ _ _
  | Logf _ _ _ | hostCheck _ | hostSetup _ _ | DetectSupportedSyscalls _ _
  | ParseEnabledSyscalls _ _ _ | TransitivelyEnabledCalls _ _
  | CalculatePriorities _ _ | BuildChoiceTable _ _ _ | ipcconfigDefault _
  | NewGate _ | GoWorker _ _ | NewTicker _ | TickerRecv | AtomicLoadStatExec => True
  | _ => False
  end.

(** The operations of the other goroutines: the worker and [execute]. *)
Definition worker_thread_op (X : Type) (op : Op X) : Prop :=
  match op with
  | MakeEnv _ _ | UnixNano | NewSource _ | randNew _ | Generate _ _ _ _
  | Mutate _ _ _ _ _ | Intn _ _ | Clone _ | CallExecute _ _ _ _
  | AtomicAddStatExec _ | GateEnter | GateLeave _ | outMuLock | outMuUnlock
  | Serialize _ | Printf _ _ | EnvExec _ _ _ | StdoutWrite _ => True
  | _ => False
  end.

Definition op_role (tid : nat) (X : Type) (op : Op X) : Prop :=
  match tid with
  | O => main_thread_op X op
  | S _ => worker_thread_op X op
  end.

(** An event of the trace is an operation of the goroutine's role. *)
Definition role_ok (te : nat * event) : Prop :=
  match te.2 with
  | Ev op _ => op_role te.1 _ op
  | _ => True
  end.

(** The event ends the process. *)
Definition is_exit (e : event) : bool :=
  match e with
  | Ev _ _ => false
  | _ => true
  end.

(** How a goroutine can end the process: [main] by a fatal error of the
    start-up or an index out of range, before the gate is built; a
    worker by the fatal error of its execution environment. *)
Definition exit_ok (built : bool) (tid : nat) (e : event) : Prop :=
  match e with
  | Ev _ _ => False
  | EvFatal fmt _ =>
      match tid with
      | O => built = false /\ startup_fatal fmt = true
      | S _ => fmt = "failed to create execution environment: %v"
      end
  | EvPanic msg =>
      match tid with
      | O => built = false /\ msg = "index out of range"
      | S _ => False
      end
  end.

(** What the next step of a piece of code is allowed to be. *)
Definition next_ok (s : state) (tid : nat) {A : Type} (c : code A) : Prop :=
  match c with
  | Ret _ => True
  | Fatalf fmt args => exit_ok (is_built s) tid (EvFatal fmt args)
  | Panic msg => exit_ok (is_built s) tid (EvPanic msg)
  | Do op k => fault op s = None /\ op_role tid _ op
  end.

(** The trace of a process: the operations are those of the roles, and
    only the last event can be the end of the process. *)
Definition ended (s : state) : Prop :=
  Forall role_ok (trace s) /\
  if exited s
  then exists tr tid e,
         trace s = tr ++ [(tid, e)] /\
         Forall (fun te => is_exit te.2 = false) tr /\
         is_exit e = true /\ exit_ok (is_built s) tid e
  else Forall (fun te => is_exit te.2 = false) (trace s).

Section SoundConsequences.

Variable B : Build.
Variable fl : CmdLine.

Lemma allocated_no_fault (s : state) (p : loc) :
  (p < length (heap s))%nat ->
  match heap s !! p with
  | Some _ => None
  | None => Some "nil pointer dereference"
  end = None.
Proof.
  intros Hp. destruct (heap s !! p) eqn:E; [done|].
  apply lookup_ge_None in E. lia.
Qed.

(** What a goroutine of a sound state is about to do. *)
Lemma sound_next s tid t :
  sound fl s ->
  threads s !! tid = Some t ->
  next_ok s tid (act_code (activation_of fl t)).
Proof.
  intros (t0 & ws & Hts & Hmain & Hws & Hbuilt & Hlock) Ht.
  destruct (lock_sum_focus _ _ _ _ Hlock Ht) as (b & rest & Hfr & Hn & _).
  rewrite Hts in Ht. destruct tid as [|n]; simpl in Ht.
  - injection Ht as <-. destruct Hmain as [Hf0 Hb0].
    destruct t0 as [fs b0]. simpl in Hf0. subst fs.
    destruct b0; simpl in *; try done.
    + destruct c as [a|fmt args|msg|X op k]; simpl in *; try done.
      destruct Hb0 as [Hop _]. split; destruct op; simpl in *; try done; by destruct Hop.
    + destruct Hb0 as [_ Hb0].
      destruct c as [a|fmt args|msg|X op k]; simpl in *; try done.
      destruct Hb0 as [Hop _]. split; by destruct op.
  - assert (Hw : worker_ok fl (length (heap s)) t) by (by eapply Forall_lookup_1).
    assert (Hbt : is_built s = true).
    { destruct (is_built s) eqn:E; [done|]. rewrite (Hbuilt eq_refl) in Ht. done. }
    unfold worker_ok in Hw.
    destruct t as [[|f [|f2 fs]] b0]; simpl in *; [| |done].
    + assert (Hbase : forall A (c : code A), safe (length (heap s)) c -> next_ok s (S n) c).
      { intros A c Hc. destruct c as [a|fmt args|msg|X op k]; simpl in *; try done.
        destruct Hc as [Hop _]. split; [|by destruct op].
        destruct op; simpl in *; try done.
        - by apply allocated_no_fault.
        - destruct (Z.leb_spec n0 0); [lia|done].
        - by apply allocated_no_fault. }
      destruct b0; simpl in *; try done; apply Hbase, Hw.
    + destruct f as [a|fmt args|msg|X op k]; simpl in *; try done.
      destruct Hfr as [Hop _]. split; [|by destruct op].
      unfold is_built in Hbt.
      destruct op; simpl in *; try done.
      * by destruct (gate s).
      * by destruct (gate s).
      * subst b. by destruct (outMu s).
Qed.

Lemma reachable_ended s : reachable B fl s -> ended s.
Proof.
  induction 1 as [|s ch s' Hr [IHr IHe] Hstep]; [split; simpl; constructor|].
  pose proof (reachable_sound B fl s Hr) as Hs.
  apply step_inv in Hstep as [Hex Hstep]. unfold ended in *. rewrite Hex in IHe.
  destruct Hstep as [t r Ht Hc|t fmt args Ht Hc|t msg Ht Hc|t X op k x msg Ht Hc Hx Hb Hf
                    |t X op k x Ht Hc Hx Hb Hf];
    pose proof (sound_next s _ t Hs Ht) as Hnext; rewrite Hc in Hnext; simpl in Hnext.
  - simpl. by rewrite Hex.
  - simpl. split; [apply Forall_app; by split; [|constructor]|].
    by exists (trace s), (ch_tid ch), (EvFatal fmt args).
  - simpl. split; [apply Forall_app; by split; [|constructor]|].
    by exists (trace s), (ch_tid ch), (EvPanic msg).
  - destruct Hnext as [Hnf _]. congruence.
  - destruct Hnext as [_ Hrole]. simpl. rewrite effect_exited, effect_trace, Hex.
    split; apply Forall_app; by split; [|constructor].
Qed.

End SoundConsequences.

(** X12: no goroutine is ever about to make an operation that faults: when
    a worker enters or leaves the gate, the gate has been built; when it
    unlocks the mutex, the mutex is locked; the programs it clones or
    mutates are allocated; and the bound it gives to [rnd.Intn] is
    positive. *)
Theorem no_runtime_fault B fl s tid t X (op : Op X) k :
  reachable B fl s ->
  threads s !! tid = Some t ->
  act_code (activation_of fl t) = Do op k ->
  fault op s = None.
Proof.
  intros Hr Ht Hc.
  pose proof (sound_next fl s tid t (reachable_sound B fl s Hr) Ht) as Hnext.
  rewrite Hc in Hnext. apply Hnext.
Qed.

(** X13: goroutine 0 is [main], which calls nothing of this file, and every
    other goroutine is a worker, inside at most one call of [execute];
    all that [main] has done are operations of the start-up and of the
    ticker loop, and all that the workers have done are operations of
    the worker loop and of [execute]. *)
Theorem goroutine_roles B fl s :
  reachable B fl s ->
  (exists t0 ws,
     threads s = t0 :: ws /\
     frames t0 = [] /\ worker_shared t0 = None /\
     Forall (fun t => is_Some (worker_shared t) /\ (length (frames t) <= 1)%nat) ws) /\
  Forall role_ok (trace s).
Proof.
  intros Hr. split; [|apply (reachable_ended B fl s Hr)].
  destruct (reachable_sound B fl s Hr) as (t0 & ws & Hts & [Hf0 Hb0] & Hws & _ & Hlock).
  exists t0, ws. split; [done|]. split; [done|].
  split; [unfold worker_shared; by destruct (t_base t0)|].
  rewrite Hts in Hlock. simpl in Hlock. destruct Hlock as (_ & n' & _ & Hlock & _).
  clear Hts. revert n' Hlock. induction Hws as [|t ws Ht Hws IH]; intros n' Hlock; [done|].
  simpl in Hlock. destruct Hlock as (b & n'' & Hfr & Hlock & _).
  constructor; [|by eapply IH].
  split.
  - unfold worker_ok, worker_shared in *. destruct (t_base t); try done; by eexists.
  - destruct (frames t) as [|f [|f2 fs]]; simpl in *; try done; lia.
Qed.

(** X14: the process ends in two ways only.  [main] ends it during the
    start-up, by a fatal error or by an index out of range, and then
    before the gate is built: no worker was started and no program was
    executed.  A worker ends it when it cannot create its execution
    environment.  Nothing else ends it: no failure or hang of the
    executor, and no panic of a worker. *)
Theorem process_ends_only_at_startup_or_makeenv B fl s :
  reachable B fl s ->
  if exited s
  then exists tr tid e,
         trace s = tr ++ [(tid, e)] /\
         Forall (fun te => is_exit te.2 = false) tr /\
         ((tid = O /\
           gate s = None /\ length (threads s) = 1%nat /\
           tcount op_go s = O /\ tcount op_exec s = O /\
           ((exists fmt args, e = EvFatal fmt args /\ startup_fatal fmt = true) \/
            e = EvPanic "index out of range")) \/
          ((0 < tid)%nat /\
           exists args, e = EvFatal "failed to create execution environment: %v" args))
  else Forall (fun te => is_exit te.2 = false) (trace s).
Proof.
  intros Hr. destruct (reachable_ended B fl s Hr) as [_ He].
  destruct (exited s); [|done].
  destruct He as (tr & tid & e & Htr & Hno & Hexit & Hok).
  exists tr, tid, e. split; [done|]. split; [done|].
  destruct tid as [|n]; [left|right].
  - assert (Hb : is_built s = false) by (destruct e; simpl in Hok; try done; apply Hok).
    assert (Hg : gate s = None) by (unfold is_built in Hb; by destruct (gate s)).
    destruct (reachable_gate B fl s Hr) as (_ & Hbuilt & _).
    assert (H0 : tcount op_new_gate s = O).
    { destruct (tcount op_new_gate s) eqn:E; [done|].
      assert (His : is_Some (gate s)) by (apply Hbuilt; lia).
      rewrite Hg in His. by destruct His. }
    destruct (reachable_guarded B fl (holds op_new_gate) True (main_gate_first B fl) s Hr H0)
      as ((c & Hts & _) & Hgo & _ & Hexec).
    split; [done|]. split; [done|]. split; [by rewrite Hts|]. split; [done|]. split; [done|].
    destruct e as [X op x|fmt args|msg]; simpl in Hok; [done| |].
    + left. exists fmt, args. split; [done|apply Hok].
    + right. by destruct Hok as [_ ->].
  - split; [lia|]. destruct e as [X op x|fmt args|msg]; simpl in Hok; try done.
    exists args. by rewrite Hok.
Qed.

(** One worker, inside its first call of [execute], about to enter
    the gate. *)
Definition worker_at_gate : state :=
  default (init linux_build logprog_flags)
    (run logprog_flags (init linux_build logprog_flags)
       (moves quiet_world 0 13 ++ moves quiet_world 1 8)).

Lemma worker_at_gate_reachable : reachable linux_build logprog_flags worker_at_gate.
Proof. apply runs_reachable. vm_compute. reflexivity. Qed.

Lemma no_runtime_fault_witness :
  exists t k,
    threads worker_at_gate !! 1%nat = Some t /\
    act_code (activation_of logprog_flags t) = Do GateEnter k /\
    fault GateEnter worker_at_gate = None.
Proof.
  eexists _, _. split; [vm_compute; reflexivity|]. split; [simpl; reflexivity|].
  eapply (no_runtime_fault linux_build logprog_flags worker_at_gate 1 _ _ GateEnter _
            worker_at_gate_reachable).
  - vm_compute. reflexivity.
  - simpl. reflexivity.
Defined.

Lemma goroutine_roles_witness : Forall role_ok (trace after_three_runs).
Proof.
  exact (proj2 (goroutine_roles linux_build logprog_flags after_three_runs
                  after_three_runs_reachable)).
Defined.

Lemma startup_failed_reachable : reachable linux_build corpus_flags startup_failed.
Proof. apply runs_reachable. vm_compute. reflexivity. Qed.

Lemma process_ends_only_at_startup_or_makeenv_witness :
  exited startup_failed = true /\
  exists tr tid e,
    trace startup_failed = tr ++ [(tid, e)] /\
    Forall (fun te => is_exit te.2 = false) tr.
Proof.
  assert (E : exited startup_failed = true) by (vm_compute; reflexivity).
  split; [exact E|].
  pose proof (process_ends_only_at_startup_or_makeenv linux_build corpus_flags startup_failed
                startup_failed_reachable) as H.
  rewrite E in H. destruct H as (tr & tid & e & H1 & H2 & _).
  exists tr, tid, e. split; [exact H1|exact H2].
Defined.

(** ** The ticker loop *)

(** The value of the counter an event loaded. *)
Definition loaded (e : event) : option Z :=
  match e with
  | Ev op x =>
      match op in Op X return X -> option Z with
      | AtomicLoadStatExec => fun n => Some n
      | _ => fun _ => None
      end x
  | _ => None
  end.

Lemma loaded_load {X : Type} (op : Op X) x n :
  loaded (Ev op x) = Some n -> forall s a, resolve s op a = Some x -> n = statExec s.
Proof. destruct op; simpl; try done. intros [= <-] s a [= <-]. done. Qed.

Lemma loaded_main {X : Type} (op : Op X) x n tid :
  loaded (Ev op x) = Some n -> op_role tid X op -> tid = O.
Proof. destruct op; simpl; try done. intros _. by destruct tid. Qed.

(** X15: every value the ticker loop loads from the counter is the number
    of increments that had been performed in the process when it was
    loaded (as a uint64), and the loop logs the value it loaded; only
    [main] loads the counter. *)
Theorem reporter_reads_counter B fl s tr tid e post n :
  reachable B fl s ->
  trace s = tr ++ (tid, e) :: post ->
  loaded e = Some n ->
  tid = O /\
  n = wrapu64 (Z.of_nat (count (holds op_stat_inc) tr.*2)) /\
  forall (o : oracle) k,
    run_code o k reporter_body =
      ([Ev TickerRecv tt;
        Ev AtomicLoadStatExec (o (S k) _ AtomicLoadStatExec);
        Ev (Logf 0 "executed %v programs" [AInt (o (S k) _ AtomicLoadStatExec)]) tt],
       Returned tt).
Proof.
  intros Hr Htr He.
  split; [|split].
  - destruct (reachable_ended B fl s Hr) as [Hroles _].
    rewrite Htr in Hroles. apply Forall_app in Hroles as [_ Hroles].
    apply Forall_cons in Hroles as [Hrole _]. unfold role_ok in Hrole. simpl in Hrole.
    destruct e as [X op x| |]; [|done|done]. by eapply loaded_main.
  - revert tr post Htr. induction Hr as [|s ch s' Hr IH Hstep]; intros tr post Htr.
    { by destruct tr. }
    pose proof (statExec_counts_increments B fl s Hr) as Hstat. unfold tcount in Hstat.
    assert (Hlast : forall tid' e', trace s' = trace s ++ [(tid', e')] ->
              (forall m, loaded e' = Some m -> m = statExec s) ->
              n = wrapu64 (Z.of_nat (count (holds op_stat_inc) tr.*2))).
    { intros tid' e' Hs' Hres. rewrite Hs' in Htr.
      destruct post as [|te post _] using rev_ind.
      - apply app_inj_tail in Htr as [<- [= <- <-]].
        rewrite (Hres n He). exact Hstat.
      - rewrite app_comm_cons, app_assoc in Htr. apply app_inj_tail in Htr as [Htr _].
        by eapply IH. }
    apply step_inv in Hstep as [Hex Hstep].
    destruct Hstep as [t r Ht Hc|t fmt args Ht Hc|t msg Ht Hc|t X op k x msg Ht Hc Hx Hb Hf
                      |t X op k x Ht Hc Hx Hb Hf].
    + by eapply IH.
    + eapply Hlast; [reflexivity|]. intros; discriminate.
    + eapply Hlast; [reflexivity|]. intros; discriminate.
    + eapply Hlast; [reflexivity|]. intros; discriminate.
    + eapply Hlast; [simpl; by rewrite effect_trace|].
      intros m Hm. by eapply loaded_load.
  - intros o k. unfold reporter_body, perform. cbn.
    by destruct (o k _ TickerRecv), (o (S (S k)) _ (Logf _ _ _)).
Qed.

(** Start-up, nine steps of the worker (it has incremented the counter
    once), then [main] enters the ticker loop and loads the counter. *)
Definition first_report : state :=
  default (init linux_build logprog_flags)
    (run logprog_flags (init linux_build logprog_flags)
       (moves quiet_world 0 13 ++ moves quiet_world 1 9 ++ moves quiet_world 0 4)).

Lemma first_report_reachable : reachable linux_build logprog_flags first_report.
Proof. apply runs_reachable. vm_compute. reflexivity. Qed.

Lemma reporter_reads_counter_witness :
  trace first_report = take 23 (trace first_report) ++ [(O, Ev AtomicLoadStatExec 1)] /\
  1 = wrapu64 (Z.of_nat (count (holds op_stat_inc) (take 23 (trace first_report)).*2)).
Proof.
  assert (E : trace first_report
              = take 23 (trace first_report) ++ [(O, Ev AtomicLoadStatExec 1)])
    by (vm_compute; reflexivity).
  split; [exact E|].
  apply (reporter_reads_counter linux_build logprog_flags first_report
           (take 23 (trace first_report)) O (Ev AtomicLoadStatExec 1) [] 1
           first_report_reachable E eq_refl).
Defined.

(** ** Who the workers are *)

(** The pid of a worker goroutine. *)
Definition worker_pid (t : thread) : option Z :=
  match t_base t with
  | BInit pid _ _ => Some pid
  | BLoop pid _ _ _ _ => Some pid
  | _ => None
  end.

(** What [main] may start when it has started the workers below
    [next], with the variables [osh]: the worker [next], with the same
    variables. *)
Definition launch_op (next : Z) (osh : option Shared) (X : Type) (op : Op X) : Prop :=
  match op with
  | GoWorker pid sh => pid = next /\ (osh = None \/ osh = Some sh)
  | _ => True
  end.

Definition next_after (next : Z) {X : Type} (op : Op X) : Z :=
  match op with
  | GoWorker _ _ => next + 1
  | _ => next
  end.

Definition shared_after (osh : option Shared) {X : Type} (op : Op X) : option Shared :=
  match op with
  | GoWorker _ sh => Some sh
  | _ => osh
  end.

(** Code that starts the workers [next], [next + 1], ... in this
    order, all with the same variables, and returns when it has started
    the workers below [last]. *)
Fixpoint launches (last next : Z) (osh : option Shared) {A : Type} (c : code A) : Prop :=
  match c with
  | Ret _ => next = last
  | Fatalf _ _ | Panic _ => True
  | Do op k =>
      launch_op next osh _ op /\
      forall x, launches last (next_after next op) (shared_after osh op) (k x)
  end.

Lemma launches_bind_quiet last next osh {A C : Type} (c : code A) (f : A -> code C) :
  all_ops quiet_op c -> (forall a, launches last next osh (f a)) ->
  launches last next osh (bind c f).
Proof.
  intros Hc Hf. induction c as [a|fmt args|msg|X op k IH]; simpl in *; try done.
  destruct Hc as [Hop Hk]. split; [by destruct op|]. intros x.
  replace (next_after next op) with next by (by destruct op).
  replace (shared_after osh op) with osh by (by destruct op).
  by apply IH.
Qed.

Lemma launches_spawn last {A : Type} (g : unit -> code A) n : forall pid sh osh,
  osh = None \/ osh = Some sh ->
  (forall osh' a, launches last (pid + Z.of_nat n) osh' (g a)) ->
  launches last pid osh (bind (spawn n pid sh) g).
Proof.
  induction n as [|n IH]; intros pid sh osh Hosh Hg; simpl.
  - specialize (Hg osh). by rewrite Z.add_0_r in Hg.
  - split; [done|]. intros _. apply IH; [by right|].
    intros osh' a. replace (pid + 1 + Z.of_nat n) with (pid + Z.of_nat (S n)) by lia.
    apply Hg.
Qed.

Lemma main_launches B fl :
  launches (Z.of_nat (Z.to_nat (flagProcs fl))) 0 None (main B fl).
Proof.
  unfold main, perform. simpl.
  split; [done|]. intros [ff|e]; simpl; [|done].
  split; [done|]. intros [target|e]; simpl; [|done].
  rewrite mbind_bind. apply launches_bind_quiet; [apply readCorpus_quiet|]. intros corpus. simpl.
  split; [done|]. intros _.
  destruct (negb (flagGenerate fl) && (len corpus =? 0)); simpl; [done|].
  split; [done|]. intros [features|e]; simpl; [|done].
  split; [done|]. intros [[]|e]; simpl; [|done].
  rewrite mbind_bind. apply launches_bind_quiet; [apply buildCallList_quiet|]. intros calls.
  simpl.
  split; [done|]. intros prios.
  split; [done|]. intros ct.
  split; [done|]. intros [[config execOpts]|e]; simpl; [|done].
  split; [done|]. intros _.
  rewrite mbind_bind. apply launches_spawn; [by left|].
  intros osh' _. simpl. split; [done|]. intros _. simpl. lia.
Qed.

(** The workers started so far have the pids 0, 1, ... in the order
    of their goroutines and the same variables; [main] goes on to start
    the next ones, and is in its ticker loop only when all are
    started. *)
Definition identities (fl : CmdLine) (s : state) : Prop :=
  exists t0 ws osh,
    threads s = t0 :: ws /\
    frames t0 = [] /\
    match t_base t0 with
    | BMain c =>
        launches (Z.of_nat (Z.to_nat (flagProcs fl))) (Z.of_nat (length ws)) osh c
    | BReporter _ => length ws = Z.to_nat (flagProcs fl)
    | _ => False
    end /\
    forall i t, ws !! i = Some t ->
      worker_pid t = Some (Z.of_nat i) /\ worker_shared t = osh /\ is_Some osh.

Lemma worker_identity_returned fl t r :
  worker_pid (act_returned (activation_of fl t) r) = worker_pid t /\
  worker_shared (act_returned (activation_of fl t) r) = worker_shared t.
Proof. destruct t as [[|f fs] b]; [destruct b|]; done. Qed.

Lemma worker_identity_moved fl t c call :
  worker_pid (act_moved (activation_of fl t) c call) = worker_pid t /\
  worker_shared (act_moved (activation_of fl t) c call) = worker_shared t.
Proof. destruct t as [[|f fs] b]; [destruct b|]; done. Qed.

Lemma identities_moved fl s tid t' e :
  (exists t0 ws osh,
     <[tid := t']> (threads s) = t0 :: ws /\
     frames t0 = [] /\
     match t_base t0 with
     | BMain c =>
         launches (Z.of_nat (Z.to_nat (flagProcs fl))) (Z.of_nat (length ws)) osh c
     | BReporter _ => length ws = Z.to_nat (flagProcs fl)
     | _ => False
     end /\
     forall i t, ws !! i = Some t ->
       worker_pid t = Some (Z.of_nat i) /\ worker_shared t = osh /\ is_Some osh) ->
  identities fl (set_thread tid t' (log tid e s)).
Proof. intros H. exact H. Qed.

Lemma reachable_identities B fl s : reachable B fl s -> identities fl s.
Proof.
  induction 1 as [|s ch s' Hr (t0 & ws & osh & Hts & Hf0 & Hmain & Hws) Hstep].
  { exists {| frames := []; t_base := BMain (main B fl) |}, [], None.
    split; [done|]. split; [done|]. split; [apply main_launches|done]. }
  pose proof (reachable_sound B fl s Hr) as Hs.
  apply step_inv in Hstep as [Hex Hstep].
  destruct Hstep as [t r Ht Hc|t fmt args Ht Hc|t msg Ht Hc|t X op k x msg Ht Hc Hx Hb Hf
                    |t X op k x Ht Hc Hx Hb Hf].
  2-4: by exists t0, ws, osh.
  - (* a return *)
    unfold identities, set_thread. simpl. rewrite Hts in *.
    destruct (ch_tid ch) as [|n]; simpl in Ht.
    + injection Ht as <-. destruct t0 as [fs b0]. simpl in Hf0. subst fs.
      exists {| frames := []; t_base := BReporter reporter_body |}, ws, osh.
      destruct b0; simpl in *; try done; subst c; simpl in Hmain.
      split; [done|]. split; [done|]. split; [lia|done].
    + exists t0, (<[n := act_returned (activation_of fl t) r]> ws), osh.
      split; [done|]. split; [done|]. rewrite length_insert. split; [done|].
      intros i t1 Hi. destruct (decide (i = n)) as [->|Hne].
      * rewrite list_lookup_insert_eq in Hi by (by eapply lookup_lt_Some).
        injection Hi as <-.
        destruct (worker_identity_returned fl t r) as [-> ->]. by apply Hws.
      * rewrite list_lookup_insert_ne in Hi by done. by apply Hws.
  - (* an operation *)
    pose proof (sound_next fl s _ t Hs Ht) as Hnext. rewrite Hc in Hnext.
    destruct Hnext as [_ Hrole].
    apply identities_moved. rewrite effect_threads. rewrite Hts in *.
    destruct (ch_tid ch) as [|n]; simpl in Ht.
    + injection Ht as <-. destruct t0 as [fs b0]. simpl in Hf0. subst fs.
      assert (Hcall : call_of fl op = []) by (by destruct op).
      rewrite Hcall. simpl.
      destruct b0; simpl in *; try done; subst c.
      * destruct Hmain as [Hop Hk]. specialize (Hk x).
        exists {| frames := []; t_base := BMain (k x) |}, (ws ++ spawned op),
          (shared_after osh op).
        split; [done|]. split; [done|]. split.
        { destruct op; simpl in *; rewrite ?app_nil_r; try done.
          rewrite length_app. simpl.
          replace (Z.of_nat (length ws + 1)) with (Z.of_nat (length ws) + 1) by lia. done. }
        intros i t1 Hi. destruct op; simpl in *; rewrite ?app_nil_r in Hi; try by apply Hws.
        destruct Hop as [-> Hosh].
        apply lookup_app_Some in Hi as [Hi|[Hlen Hi]].
        -- destruct (Hws i t1 Hi) as (Hp & Hsh & [sh0 E]). rewrite E in Hsh, Hosh.
           destruct Hosh as [?|[= <-]]; [done|].
           split; [done|]. split; [done|by eexists].
        -- destruct (i - length ws)%nat as [|?] eqn:E; simpl in Hi; [|done].
           injection Hi as <-. simpl. replace i with (length ws) by lia.
           split; [done|]. split; [done|by eexists].
      * exists {| frames := []; t_base := BReporter (k x) |}, (ws ++ spawned op), osh.
        assert (Hsp : spawned op = []).
        { pose proof (reachable_sound B fl s Hr) as (t0' & ws' & Hts' & [_ Hb0] & _).
          rewrite Hts in Hts'. injection Hts' as <- <-. simpl in Hb0.
          destruct Hb0 as [_ [Hop _]]. by destruct op. }
        rewrite Hsp, app_nil_r. done.
    + assert (Hsp : spawned op = []) by (by destruct op).
      rewrite Hsp, app_nil_r. simpl.
      exists t0, (<[n := act_moved (activation_of fl t) (k x) (call_of fl op)]> ws), osh.
      split; [done|]. split; [done|]. rewrite length_insert. split; [done|].
      intros i t1 Hi. destruct (decide (i = n)) as [->|Hne].
      * rewrite list_lookup_insert_eq in Hi by (by eapply lookup_lt_Some).
        injection Hi as <-.
        destruct (worker_identity_moved fl t (k x) (call_of fl op)) as [-> ->]. by apply Hws.
      * rewrite list_lookup_insert_ne in Hi by done. by apply Hws.
Qed.

(** X16: the goroutine after [main] number [i] (from 0) is the worker of
    pid [i], all the workers have captured the same variables, and
    when [main] is in its ticker loop, all the [flagProcs] workers
    are started. *)
Theorem worker_identities B fl s :
  reachable B fl s ->
  exists t0 ws,
    threads s = t0 :: ws /\
    (forall i t, ws !! i = Some t -> worker_pid t = Some (Z.of_nat i)) /\
    (forall t t' sh, t ∈ ws -> t' ∈ ws ->
       worker_shared t = Some sh -> worker_shared t' = Some sh) /\
    (forall c, t_base t0 = BReporter c -> length ws = Z.to_nat (flagProcs fl)).
Proof.
  intros Hr.
  destruct (reachable_identities B fl s Hr) as (t0 & ws & osh & Hts & Hf0 & Hmain & Hws).
  exists t0, ws. split; [done|]. split; [|split].
  - intros i t Hi. by apply Hws.
  - intros t t' sh Ht Ht' Hsh.
    apply list_elem_of_lookup in Ht as [i Hi], Ht' as [i' Hi'].
    destruct (Hws i t Hi) as (_ & E & _), (Hws i' t' Hi') as (_ & E' & _). congruence.
  - intros c Hc. by rewrite Hc in Hmain.
Qed.

(** Two workers started; [main] has entered its ticker loop. *)
Definition two_workers_started : state :=
  default (init linux_build two_workers_flags)
    (run two_workers_flags (init linux_build two_workers_flags) (moves quiet_world 0 16)).

Lemma two_workers_started_reachable :
  reachable linux_build two_workers_flags two_workers_started.
Proof. apply runs_reachable. vm_compute. reflexivity. Qed.

Lemma worker_identities_witness :
  exists t0 ws,
    threads two_workers_started = t0 :: ws /\
    (forall i t, ws !! i = Some t -> worker_pid t = Some (Z.of_nat i)) /\
    length ws = 2%nat.
Proof.
  destruct (worker_identities linux_build two_workers_flags two_workers_started
              two_workers_started_reachable) as (t0 & ws & H1 & H2 & _ & H4).
  exists t0, ws. split; [exact H1|]. split; [exact H2|].
  assert (E : exists c, head (threads two_workers_started)
                        = Some {| frames := []; t_base := BReporter c |}).
  { eexists. vm_compute. reflexivity. }
  destruct E as [c E]. rewrite H1 in E. injection E as ->. exact (H4 c eq_refl).
Defined.

(** ** One iteration of a worker *)

(** The call of [execute] an event makes: pid, environment, options
    and program. *)
Definition run_request (e : event) : option (Z * Env * ExecOpts * loc) :=
  match e with
  | Ev op _ =>
      match op with
      | CallExecute pid env opts p => Some (pid, env, opts, p)
      | _ => None
      end
  | _ => None
  end.

(** The program an event clones. *)
Definition cloned (e : event) : option loc :=
  match e with
  | Ev op _ => match op with Clone p => Some p | _ => None end
  | _ => None
  end.

(** X17: every iteration of a worker obtains one program and executes it
    twice, under the worker's pid, environment and options.  In the
    generate branch the program is executed as generated, then mutated
    and executed again; in the other branch the program is a clone of
    the corpus entry that [rnd.Intn] picked (given that its answer is
    an index of the corpus), and it is mutated before each of the two
    executions: clone, mutate, execute, mutate, execute.  The corpus
    entry itself is only cloned.  The iteration does nothing else. *)
Theorem worker_iteration_runs_program_twice fl sh pid w i (o : oracle) k :
  let corpus := sh_corpus sh in
  let n := o k _ (Intn (w_rnd w) (len corpus)) in
  (takes_generate fl corpus i = false -> 0 <= n < len corpus) ->
  let tr := (run_code o k (worker_body fl sh pid w i)).1 in
  (run_code o k (worker_body fl sh pid w i)).2 = Returned tt /\
  exists p,
    omap produced tr = [p] /\
    omap run_request tr =
      [(pid, w_env w, sh_execOpts sh, p); (pid, w_env w, sh_execOpts sh, p)] /\
    omap mutate_receiver tr = (if takes_generate fl corpus i then [p] else [p; p]) /\
    omap cloned tr =
      (if takes_generate fl corpus i then [] else option_list (corpus !! Z.to_nat n)) /\
    position (holds op_mutate) tr = Some 2%nat /\
    position (holds op_call_execute) tr
      = Some (if takes_generate fl corpus i then 1%nat else 3%nat) /\
    if takes_generate fl corpus i
    then tr = [Ev (Generate (sh_target sh) (w_rs w) programLength (sh_ct sh)) p;
               Ev (CallExecute pid (w_env w) (sh_execOpts sh) p) tt;
               Ev (Mutate p (w_rs w) programLength (sh_ct sh) corpus) tt;
               Ev (CallExecute pid (w_env w) (sh_execOpts sh) p) tt]
    else exists e,
           corpus !! Z.to_nat n = Some e /\
           tr = [Ev (Intn (w_rnd w) (len corpus)) n;
                 Ev (Clone e) p;
                 Ev (Mutate p (w_rs w) programLength (sh_ct sh) corpus) tt;
                 Ev (CallExecute pid (w_env w) (sh_execOpts sh) p) tt;
                 Ev (Mutate p (w_rs w) programLength (sh_ct sh) corpus) tt;
                 Ev (CallExecute pid (w_env w) (sh_execOpts sh) p) tt].
Proof.
  intros corpus n Hn tr. subst tr.
  destruct (takes_generate fl corpus i) eqn:Hg.
  - rewrite (generate_branch_events fl sh pid w o k i Hg). split; [done|].
    eexists. repeat (split; [reflexivity|]). reflexivity.
  - destruct (index_valid corpus n (Hn eq_refl)) as (e & _ & He).
    destruct (mutate_branch_events fl sh pid w o k i Hg) as (_ & _ & Hrun).
    rewrite (Hrun e (proj1 (Hn eq_refl)) He). split; [done|].
    eexists. fold corpus. fold n. rewrite He.
    repeat (split; [reflexivity|]). exists e. split; reflexivity.
Qed.

Lemma worker_iteration_runs_program_twice_witness :
  exists p,
    omap run_request
      (run_code (fun _ => answer one_record_world) 0
         (worker_body corpus_flags
            {| sh_target := empty_target; sh_corpus := [O]; sh_ct := choiceTable 0;
               sh_config := {| Flags := 0; ConfigRest := 0 |}; sh_execOpts := execOpts_ 0 |}
            0 {| w_env := env_ 0; w_rs := randSource 0; w_rnd := rand_ (randSource 0) |}
            0)).1
    = [(0, env_ 0, execOpts_ 0, p); (0, env_ 0, execOpts_ 0, p)].
Proof.
  destruct (worker_iteration_runs_program_twice corpus_flags
              {| sh_target := empty_target; sh_corpus := [O]; sh_ct := choiceTable 0;
                 sh_config := {| Flags := 0; ConfigRest := 0 |}; sh_execOpts := execOpts_ 0 |}
              0 {| w_env := env_ 0; w_rs := randSource 0; w_rnd := rand_ (randSource 0) |}
              0 (fun _ => answer one_record_world) 0) as (_ & p & _ & H & _).
  - intros _. by vm_compute.
  - exists p. exact H.
Defined.

(** ** No workers *)

Lemma trace_tids B fl s :
  reachable B fl s -> Forall (fun te => (te.1 < length (threads s))%nat) (trace s).
Proof.
  induction 1 as [|s ch s' Hr IH Hstep]; [constructor|].
  apply step_inv in Hstep as [Hex Hstep].
  destruct Hstep as [t r Ht Hc|t fmt args Ht Hc|t msg Ht Hc|t X op k x msg Ht Hc Hx Hb Hf
                    |t X op k x Ht Hc Hx Hb Hf]; simpl;
    pose proof (lookup_lt_Some _ _ _ Ht) as Hlt.
  - by rewrite length_insert.
  - apply Forall_app. split; [done|]. by constructor.
  - apply Forall_app. split; [done|]. by constructor.
  - apply Forall_app. split; [done|]. by constructor.
  - rewrite length_insert, effect_threads, effect_trace, length_app.
    apply Forall_app. split.
    + eapply Forall_impl; [exact IH|]. simpl. intros; lia.
    + constructor; [simpl; lia|done].
Qed.

Lemma count_none (P : event -> bool) (tr : list (nat * event)) :
  Forall (fun te => P te.2 = false) tr -> count P tr.*2 = O.
Proof.
  induction 1 as [|te tr Hte _ IH]; [done|].
  rewrite fmap_cons. cbn [count]. by rewrite Hte, IH.
Qed.

(** X18: with a worker count of zero or less the start-up is as usual, but
    no worker is ever started: [main] stays the only goroutine, no
    program is ever executed, and the counter stays at 0. *)
Theorem no_procs_no_executions B fl s :
  flagProcs fl <= 0 ->
  reachable B fl s ->
  length (threads s) = 1%nat /\
  tcount op_go s = O /\
  tcount op_exec s = O /\
  tcount op_stat_inc s = O /\
  statExec s = 0.
Proof.
  intros Hprocs Hr.
  assert (Hgo : (tcount op_go s <= 0)%nat).
  { apply (startup_only_counts B fl op_go _ s go_startup_only); [|done].
    eapply ahead_weaken; [apply main_spawns_procs|lia|].
    replace (Z.to_nat (flagProcs fl)) with O by lia. lia. }
  destruct (reachable_gate B fl s Hr) as (_ & _ & Hlen).
  assert (Hone : length (threads s) = 1%nat) by lia.
  assert (Hmain : Forall (fun te => forall P : opclass,
                            (forall X (op : Op X), main_thread_op X op -> P X op = false) ->
                            holds P te.2 = false) (trace s)).
  { pose proof (trace_tids B fl s Hr) as Htids. rewrite Hone in Htids.
    destruct (reachable_ended B fl s Hr) as [Hroles _].
    rewrite Forall_forall in Htids, Hroles. apply Forall_forall. intros [tid e] Hin P HP.
    specialize (Htids _ Hin). specialize (Hroles _ Hin).
    unfold role_ok in Hroles. simpl in *.
    destruct e as [X op x| |]; simpl; [|done|done].
    destruct tid; [|lia]. by apply HP. }
  assert (Hexec : tcount op_exec s = O).
  { apply count_none. eapply Forall_impl; [exact Hmain|]. intros te H. apply H.
    by intros X []. }
  assert (Hinc : tcount op_stat_inc s = O).
  { apply count_none. eapply Forall_impl; [exact Hmain|]. intros te H. apply H.
    by intros X []. }
  split; [done|]. split; [lia|]. split; [done|]. split; [done|].
  by rewrite (statExec_counts_increments B fl s Hr), Hinc.
Qed.

Definition no_procs_flags : CmdLine := {|
  flagOS := "linux"; flagArch := "amd64"; flagCorpus := ""; flagOutput := false;
  flagProcs := 0; flagLogProg := false; flagGenerate := true; flagSyscalls := "";
  flagEnable := "none"; flagDisable := "none"
|}.

(** No worker: [main] has entered its ticker loop and reported once. *)
Definition idle_report : state :=
  default (init linux_build no_procs_flags)
    (run no_procs_flags (init linux_build no_procs_flags) (moves quiet_world 0 17)).

Lemma idle_report_reachable : reachable linux_build no_procs_flags idle_report.
Proof. apply runs_reachable. vm_compute. reflexivity. Qed.

Lemma no_procs_no_executions_witness :
  exited idle_report = false /\
  last (trace idle_report) = Some (O, Ev (Logf 0 "executed %v programs" [AInt 0]) tt) /\
  length (threads idle_report) = 1%nat /\
  statExec idle_report = 0.
Proof.
  split; [vm_compute; reflexivity|]. split; [vm_compute; reflexivity|].
  destruct (no_procs_no_executions linux_build no_procs_flags idle_report)
    as (H1 & _ & _ & _ & H5).
  - simpl. lia.
  - exact idle_report_reachable.
  - split; [exact H1|exact H5].
Defined.
